(** * Ruby-compatible hash ring: a shallow embedding of the Go routers

    The development embeds the two Go ring implementations of the
    repository,

    - [rubyHashRing] of [cmd/go-ring-custom] ([newRubyHashRing],
      [getNode], [binarySearch], [serverHashFor]), and
    - [rubyStyleHash] of [cmd/go-ring-consistenthash]
      ([newRubyStyleHash], [Get], [normalizeForGoRedis]),

    together with the library routines they call ([crc32.ChecksumIEEE],
    [md5.Sum], [binary.BigEndian.Uint32], [sort.Slice], [sort.Search],
    [fmt.Sprintf] for the verb pair [%s:%d]), and proves the routing
    properties of the ring over these definitions. *)

From Stdlib Require Import ZArith Lia List Ascii String Sorting.Sorted Permutation.
From stdpp Require Import base numbers list gmap strings pretty sorting.

Local Open Scope Z_scope.

(** * Part I: the programs

    Every definition of this part is a transcription of a function of the
    repository or of a library routine it calls. *)

(** ** Go values *)

(** A Go [string] is a sequence of bytes; [[]byte(s)] exposes them. *)
Definition bytes_of_string (s : string) : list Z :=
  (fun c : ascii => Z.of_N (N_of_ascii c)) <$> list_ascii_of_string s.

(** [uint32] arithmetic: values live in [0, 2^32). *)
Definition uint32_max : Z := 0xFFFFFFFF.
Definition to_uint32 (x : Z) : Z := Z.land x uint32_max.

(** [int] is 64 bits wide on the supported platforms; products wrap. *)
Definition to_int (x : Z) : Z := (x + 2 ^ 63) mod 2 ^ 64 - 2 ^ 63.

(** [len] of a slice, as a Go [int]. *)
Definition len {A} (l : list A) : Z := Z.of_nat (length l).

(** ** Outcomes of Go computations

    A call either returns, panics at run time (index out of range, bad
    slice capacity), or, in the model only, exhausts the iteration
    budget given to a loop. *)
Inductive result (A : Type) : Type :=
| Ret (a : A)
| Panic (msg : string)
| OutOfFuel.
Arguments Ret {A} a.
Arguments Panic {A} msg.
Arguments OutOfFuel {A}.

#[global] Instance result_ret : MRet result := fun A a => Ret a.

#[global] Instance result_bind : MBind result := fun A B k m =>
  match m with
  | Ret a => k a
  | Panic msg => Panic msg
  | OutOfFuel => OutOfFuel
  end.

(** [s[i]] with Go's bounds check. *)
Definition index {A} (s : list A) (i : Z) : result A :=
  if (0 <=? i) && (i <? len s) then
    match s !! Z.to_nat i with
    | Some x => Ret x
    | None => Panic "index out of range"
    end
  else Panic "index out of range".

(** ** hash/crc32: the IEEE checksum (generic table-driven routine) *)
Module crc32.

(** The reversed IEEE 802.3 polynomial. *)
Definition IEEE : Z := 0xedb88320.

Definition table_step (poly crc : Z) : Z :=
  if Z.land crc 1 =? 1 then Z.lxor (Z.shiftr crc 1) poly else Z.shiftr crc 1.

(** [simpleMakeTable]: entry [i] is [i] pushed through eight shift steps. *)
Definition simplePopulateTable (poly : Z) : list Z :=
  (fun i => Nat.iter 8 (table_step poly) (Z.of_nat i)) <$> seq 0 256.

Definition IEEETable : list Z := Eval vm_compute in simplePopulateTable IEEE.

(** [simpleUpdate]: [crc = tab[byte(crc)^v] ^ (crc >> 8)] for every byte. *)
Definition simpleUpdate (crc : Z) (tab : list Z) (p : list Z) : Z :=
  let crc := Z.lxor crc uint32_max in
  let crc :=
    foldl (fun crc v =>
             Z.lxor (nth (Z.to_nat (Z.lxor (Z.land crc 0xFF) v)) tab 0)
                    (Z.shiftr crc 8))
          crc p in
  Z.lxor crc uint32_max.

Definition ChecksumIEEE (data : list Z) : Z := simpleUpdate 0 IEEETable data.

End crc32.

(** ** crypto/md5 (RFC 1321) *)
Module md5.

Definition add32 (x y : Z) : Z := to_uint32 (x + y).
Definition not32 (x : Z) : Z := Z.lxor x uint32_max.
Definition rotl32 (x : Z) (s : Z) : Z :=
  to_uint32 (Z.lor (Z.shiftl x s) (Z.shiftr x (32 - s))).

(** Per-round additive constants, [floor (2^32 * |sin (i + 1)|)]. *)
Definition K : list Z :=
  [ 0xd76aa478; 0xe8c7b756; 0x242070db; 0xc1bdceee;
    0xf57c0faf; 0x4787c62a; 0xa8304613; 0xfd469501;
    0x698098d8; 0x8b44f7af; 0xffff5bb1; 0x895cd7be;
    0x6b901122; 0xfd987193; 0xa679438e; 0x49b40821;
    0xf61e2562; 0xc040b340; 0x265e5a51; 0xe9b6c7aa;
    0xd62f105d; 0x02441453; 0xd8a1e681; 0xe7d3fbc8;
    0x21e1cde6; 0xc33707d6; 0xf4d50d87; 0x455a14ed;
    0xa9e3e905; 0xfcefa3f8; 0x676f02d9; 0x8d2a4c8a;
    0xfffa3942; 0x8771f681; 0x6d9d6122; 0xfde5380c;
    0xa4beea44; 0x4bdecfa9; 0xf6bb4b60; 0xbebfbc70;
    0x289b7ec6; 0xeaa127fa; 0xd4ef3085; 0x04881d05;
    0xd9d4d039; 0xe6db99e5; 0x1fa27cf8; 0xc4ac5665;
    0xf4292244; 0x432aff97; 0xab9423a7; 0xfc93a039;
    0x655b59c3; 0x8f0ccc92; 0xffeff47d; 0x85845dd1;
    0x6fa87e4f; 0xfe2ce6e0; 0xa3014314; 0x4e0811a1;
    0xf7537e82; 0xbd3af235; 0x2ad7d2bb; 0xeb86d391 ].

(** Per-round left-rotation amounts. *)
Definition S : list Z :=
  [ 7; 12; 17; 22; 7; 12; 17; 22; 7; 12; 17; 22; 7; 12; 17; 22;
    5;  9; 14; 20; 5;  9; 14; 20; 5;  9; 14; 20; 5;  9; 14; 20;
    4; 11; 16; 23; 4; 11; 16; 23; 4; 11; 16; 23; 4; 11; 16; 23;
    6; 10; 15; 21; 6; 10; 15; 21; 6; 10; 15; 21; 6; 10; 15; 21 ].

(** Little-endian decoding of a group of bytes. *)
Fixpoint le_word (bs : list Z) : Z :=
  match bs with
  | [] => 0
  | b :: bs' => Z.lor b (Z.shiftl (le_word bs') 8)
  end.

(** Little-endian encoding of [x] on [n] bytes. *)
Fixpoint le_bytes (n : nat) (x : Z) : list Z :=
  match n with
  | O => []
  | Datatypes.S n' => Z.land x 0xFF :: le_bytes n' (Z.shiftr x 8)
  end.

(** Split a list in consecutive groups of [k] elements ([n] groups). *)
Fixpoint chunks {A} (n k : nat) (l : list A) : list (list A) :=
  match n with
  | O => []
  | Datatypes.S n' => take k l :: chunks n' k (drop k l)
  end.

(** Message padding: a [0x80] byte, zeros up to 56 mod 64, and the bit
    length on 8 little-endian bytes. *)
Definition pad (msg : list Z) : list Z :=
  let n := length msg in
  let zeros := ((55 + 64 - n mod 64) mod 64)%nat in
  msg ++ [0x80] ++ replicate zeros 0
      ++ le_bytes 8 ((8 * Z.of_nat n) mod 2 ^ 64).

Record state := State { sa : Z; sb : Z; sc : Z; sd : Z }.

Definition init : state :=
  State 0x67452301 0xefcdab89 0x98badcfe 0x10325476.

(** One of the 64 operations of the compression function. *)
Definition round (X : list Z) (st : state) (i : nat) : state :=
  let '(State a b c d) := st in
  let '(f, g) :=
    match (i / 16)%nat with
    | 0%nat => (Z.lor (Z.land b c) (Z.land (not32 b) d), i)
    | 1%nat => (Z.lor (Z.land d b) (Z.land (not32 d) c), (5 * i + 1) mod 16)%nat
    | 2%nat => (Z.lxor (Z.lxor b c) d, (3 * i + 5) mod 16)%nat
    | _ => (Z.lxor c (Z.lor b (not32 d)), (7 * i) mod 16)%nat
    end in
  let t := add32 (add32 (add32 a f) (nth i K 0)) (nth g X 0) in
  State d (add32 b (rotl32 t (nth i S 0))) b c.

(** The compression function on one 64-byte block. *)
Definition block (st : state) (blk : list Z) : state :=
  let X := le_word <$> chunks 16 4 blk in
  let '(State a b c d) := foldl (round X) st (seq 0 64) in
  State (add32 (sa st) a) (add32 (sb st) b) (add32 (sc st) c) (add32 (sd st) d).

(** [md5.Sum]: the 16-byte digest. *)
Definition Sum (data : list Z) : list Z :=
  let padded := pad data in
  let '(State a b c d) :=
    foldl block init (chunks (length padded / 64) 64 padded) in
  le_bytes 4 a ++ le_bytes 4 b ++ le_bytes 4 c ++ le_bytes 4 d.

End md5.

(** ** encoding/binary *)
Module binary.

(** [BigEndian.Uint32]: reads [b[3]] first, as the bounds-check hint
    of the library does, then assembles the four bytes. *)
Definition BigEndian_Uint32 (b : list Z) : result Z :=
  _ ← index b 3;
  b0 ← index b 0;
  b1 ← index b 1;
  b2 ← index b 2;
  b3 ← index b 3;
  Ret (Z.lor (Z.lor (Z.lor b3 (Z.shiftl b2 8)) (Z.shiftl b1 16)) (Z.shiftl b0 24)).

End binary.

(** ** strings, fmt, sort and the runtime *)

(** [len(s)] of a string. *)
Definition strlen (s : string) : Z := Z.of_nat (String.length s).

(** [strings.IndexByte]: the index of the first [c] in [s], or [-1]. *)
Fixpoint IndexByte (s : string) (c : ascii) : Z :=
  match s with
  | EmptyString => -1
  | String a s' =>
      if Ascii.eqb a c then 0
      else let i := IndexByte s' c in if i <? 0 then -1 else i + 1
  end.

(** The slice expression [s[lo:hi]] with its bounds check. *)
Definition slice (s : string) (lo hi : Z) : result string :=
  if (0 <=? lo) && (lo <=? hi) && (hi <=? strlen s)
  then Ret (String.substring (Z.to_nat lo) (Z.to_nat (hi - lo)) s)
  else Panic "slice bounds out of range".

(** [fmt.Sprintf] for formats made of the verbs [%s] and [%d] and of
    literal bytes.  [%s] takes a string operand and [%d] an integer one;
    a missing, mistyped or left-over operand is reported in the output
    the way the library does it. *)
Inductive operand : Type :=
| OpString (s : string)
| OpInt (d : Z).

Definition describe (a : operand) : string :=
  match a with
  | OpString s => "string=" +:+ s
  | OpInt d => "int=" +:+ pretty d
  end.

Fixpoint describe_all (args : list operand) : string :=
  match args with
  | [] => EmptyString
  | [a] => describe a
  | a :: args' => describe a +:+ ", " +:+ describe_all args'
  end.

Fixpoint Sprintf (format : string) (args : list operand) : string :=
  match format with
  | EmptyString =>
      match args with
      | [] => EmptyString
      | _ => "%!(EXTRA " +:+ describe_all args +:+ ")"
      end
  | String "%" (String "s" rest) =>
      match args with
      | OpString s :: args' => s +:+ Sprintf rest args'
      | a :: args' => "%!s(" +:+ describe a +:+ ")" +:+ Sprintf rest args'
      | [] => "%!s(MISSING)" +:+ Sprintf rest []
      end
  | String "%" (String "d" rest) =>
      match args with
      | OpInt d :: args' => pretty d +:+ Sprintf rest args'
      | a :: args' => "%!d(" +:+ describe a +:+ ")" +:+ Sprintf rest args'
      | [] => "%!d(MISSING)" +:+ Sprintf rest []
      end
  | String c rest => String c (Sprintf rest args)
  end.

(** [sort.Slice] with the comparison [s[i] < s[j]] on [uint32] values.
    The library sort is not stable, but an ascending arrangement of
    integers is unique (see [sort_Slice_unique]), so any sorting
    function gives the slice the program ends up with. *)
Definition sort_Slice (s : list Z) : list Z := merge_sort Z.le s.

(** [sort.Search]: the smallest index in [0, n] at which [f] holds,
    assuming [f] is monotone.  [i, j := 0, n; for i < j { h := (i+j)/2;
    if !f(h) { i = h + 1 } else { j = h } }; return i]. *)
Fixpoint sort_Search_loop (fuel : nat) (f : Z -> result bool) (i j : Z) : result Z :=
  if i <? j then
    match fuel with
    | O => OutOfFuel
    | S fuel' =>
        let h := Z.shiftr (i + j) 1 in
        b ← f h;
        if negb b then sort_Search_loop fuel' f (h + 1) j
        else sort_Search_loop fuel' f i h
    end
  else Ret i.

Definition sort_Search (n : Z) (f : Z -> result bool) : result Z :=
  sort_Search_loop (Z.to_nat n) f 0 n.

(** The runtime refuses a slice capacity that is negative or whose
    storage exceeds the addressable arena ([maxAlloc], 2^48 bytes on
    64-bit Linux): [make] then panics.  A capacity that passes this
    check is handed to the allocator.  An allocation the machine cannot
    serve ends the process with a fatal error, which is no panic and
    depends on the machine, not on the program; it has no counterpart
    here, where [Ret] stands for a run in which the memory was there.
    An allocation of capacity zero takes no memory. *)
Definition maxAlloc : Z := 2 ^ 48.

Definition makeslice {A} (elemsize cap : Z) : result (list A) :=
  if (0 <=? cap) && (elemsize * cap <=? maxAlloc) then Ret []
  else Panic "makeslice: cap out of range".

(** A counted or ranged loop whose body may panic. *)
Fixpoint for_each {S A} (body : S -> A -> result S) (l : list A) (s : S) : result S :=
  match l with
  | [] => Ret s
  | x :: l' => s' ← body s x; for_each body l' s'
  end.

(** ** The hash shared by both programs *)

(** [serverHashFor]: the first four digest bytes, read big-endian. *)
Definition serverHashFor (key : string) : result Z :=
  let sum := md5.Sum (bytes_of_string key) in
  binary.BigEndian_Uint32 (take 4 sum).

(** ** cmd/go-ring-custom *)
Module custom.

Record shardConfig := ShardConfig { Name : string; Addr : string }.

(** [*redis.Client] is an external handle; only the options it was
    created from are recorded. *)
Record redisClient := NewClient { opt_Addr : string }.

Record node := Node { name : string; client : redisClient }.

(** A [*node] is the position of the node in allocation order.
    [newRubyHashRing] appends every node it allocates to [nodes], so
    [nodes] doubles as the store the pointers refer to. *)
Abbreviation ptr := nat (only parsing).

Record rubyHashRing := RubyHashRing {
  replicas : Z;
  sortedKeys : list Z;
  ring : gmap Z ptr;
  nodes : list node
}.

(** The body of the replica loop: [r.ring[hash] = n] and the append. *)
Definition add_replica (cfg : shardConfig) (n : ptr) (r : rubyHashRing) (i : Z)
  : result rubyHashRing :=
  let virtualKey := Sprintf "%s:%d" [OpString (Name cfg); OpInt i] in
  hash ← serverHashFor virtualKey;
  Ret {| replicas := replicas r;
         sortedKeys := sortedKeys r ++ [hash];
         ring := <[hash := n]> (ring r);
         nodes := nodes r |}.

(** The body of the loop over [configs]; [replicas] is the parameter of
    [newRubyHashRing]. *)
Definition add_config (replicas : Z) (r : rubyHashRing) (cfg : shardConfig)
  : result rubyHashRing :=
  let n : ptr := length (nodes r) in
  let r := {| replicas := custom.replicas r;
              sortedKeys := sortedKeys r;
              ring := ring r;
              nodes := nodes r ++ [Node (Name cfg) (NewClient (Addr cfg))] |} in
  for_each (add_replica cfg n) (seqZ 0 replicas) r.

Definition newRubyHashRing (configs : list shardConfig) (replicas : Z)
  : result rubyHashRing :=
  keys ← makeslice 4 (to_int (replicas * len configs));
  let r := {| replicas := replicas; ring := ∅; sortedKeys := keys; nodes := [] |} in
  r ← for_each (add_config replicas) configs r;
  Ret {| replicas := custom.replicas r;
         sortedKeys := sort_Slice (sortedKeys r);
         ring := ring r;
         nodes := nodes r |}.

Fixpoint binarySearch_loop (fuel : nat) (keys : list Z) (value lower upper : Z)
  : result Z :=
  if lower <? upper then
    match fuel with
    | O => OutOfFuel
    | S fuel' =>
        let mid := Z.quot (lower + upper) 2 in
        k ← index keys mid;
        if k >? value then binarySearch_loop fuel' keys value lower mid
        else binarySearch_loop fuel' keys value (mid + 1) upper
    end
  else Ret (upper - 1).

Definition binarySearch (r : rubyHashRing) (value : Z) : result Z :=
  binarySearch_loop (length (sortedKeys r)) (sortedKeys r) value 0 (len (sortedKeys r)).

(** [getNode]: [None] is the [nil] pointer. *)
Definition getNode (r : rubyHashRing) (key : string) : result (option ptr) :=
  if len (sortedKeys r) =? 0 then Ret None
  else
    let hash := crc32.ChecksumIEEE (bytes_of_string key) in
    idx ← binarySearch r hash;
    let idx := if idx <? 0 then len (sortedKeys r) - 1 else idx in
    nodeKey ← index (sortedKeys r) idx;
    Ret (ring r !! nodeKey).

(** What [main] records for a key: the name of the node, or the empty
    string for a [nil] node. *)
Definition shardName (r : rubyHashRing) (n : option ptr) : string :=
  match n with
  | Some p => match nodes r !! p with Some nd => name nd | None => EmptyString end
  | None => EmptyString
  end.

(** The body of the loop of [main] over the keys. *)
Definition assign (r : rubyHashRing) (key : string) : result string :=
  n ← getNode r key; Ret (shardName r n).

End custom.

(** ** cmd/go-ring-consistenthash *)
Module consistent.

Record rubyStyleHash := RubyStyleHash {
  replicas : Z;
  sortedKeys : list Z;
  ring : gmap Z string
}.

Definition add_replica (shard : string) (h : rubyStyleHash) (i : Z)
  : result rubyStyleHash :=
  let virtualKey := Sprintf "%s:%d" [OpString shard; OpInt i] in
  hash ← serverHashFor virtualKey;
  Ret {| replicas := replicas h;
         sortedKeys := sortedKeys h ++ [hash];
         ring := <[hash := shard]> (ring h) |}.

(** The body of the loop over [shards]; [replicas] is the parameter of
    [newRubyStyleHash]. *)
Definition add_shard (replicas : Z) (h : rubyStyleHash) (shard : string)
  : result rubyStyleHash :=
  for_each (add_replica shard) (seqZ 0 replicas) h.

(** The size hint of [make(map...)] is advisory and never panics. *)
Definition newRubyStyleHash (shards : list string) (replicas : Z)
  : result rubyStyleHash :=
  keys ← makeslice 4 (to_int (replicas * len shards));
  let h := {| replicas := replicas; sortedKeys := keys; ring := ∅ |} in
  h ← for_each (add_shard replicas) shards h;
  Ret {| replicas := consistent.replicas h;
         sortedKeys := sort_Slice (sortedKeys h);
         ring := ring h |}.

(** [Get]: a missing map entry reads as the zero value, the empty string. *)
Definition Get (h : rubyStyleHash) (key : string) : result string :=
  if len (sortedKeys h) =? 0 then Ret EmptyString
  else
    let hash := crc32.ChecksumIEEE (bytes_of_string key) in
    idx ← sort_Search (len (sortedKeys h))
            (fun i => k ← index (sortedKeys h) i; Ret (hash <=? k));
    let idx := if idx =? len (sortedKeys h) then 0 else idx in
    k ← index (sortedKeys h) idx;
    Ret (default EmptyString (ring h !! k)).

(** [normalizeForGoRedis]: the hash-tag rule of go-redis, applied by
    [main] before [Get] and by nothing else. *)
Definition normalizeForGoRedis (key : string) : result string :=
  let start := IndexByte key "{" in
  if start =? -1 then Ret key
  else
    rest ← slice key (start + 1) (strlen key);
    let end_ := IndexByte rest "}" in
    if end_ >? 0 then slice key (start + 1) (start + end_ + 1)
    else Ret key.

(** The body of the loop of [main] over the keys. *)
Definition assign (h : rubyStyleHash) (key : string) : result string :=
  normalized ← normalizeForGoRedis key;
  Get h normalized.

End consistent.

Definition demo_configs : list custom.shardConfig :=
  [ custom.ShardConfig "cache-a" "127.0.0.1:6381";
    custom.ShardConfig "cache-b" "127.0.0.1:6382";
    custom.ShardConfig "cache-c" "127.0.0.1:6383" ].

(** * Part II: notions used to state the properties *)

(** ** Points and assignments *)

(** A digest written in hexadecimal, as the usual tools print it. *)
Definition hex_digit (n : Z) : string :=
  String (nth (Z.to_nat n) (list_ascii_of_string "0123456789abcdef") "?"%char) EmptyString.

Definition hex_of_bytes (bs : list Z) : string :=
  foldr (fun b acc => hex_digit (Z.shiftr b 4) +:+ hex_digit (Z.land b 15) +:+ acc) EmptyString bs.

(** The value [serverHashFor] computes, as a number. *)
Definition be32 (b0 b1 b2 b3 : Z) : Z :=
  b0 * 2 ^ 24 + b1 * 2 ^ 16 + b2 * 2 ^ 8 + b3.

Definition serverHash (key : string) : Z :=
  match md5.Sum (bytes_of_string key) with
  | b0 :: b1 :: b2 :: b3 :: _ => be32 b0 b1 b2 b3
  | _ => 0
  end.

(** The point a node name and a replica index are placed at. *)
Definition virtual_point (name : string) (i : Z) : Z :=
  serverHash (name +:+ ":" +:+ pretty i).

Definition replica_points (name : string) (R : Z) : list Z :=
  virtual_point name <$> seqZ 0 R.

(** Assignments [m[h] = v] performed in sequence. *)
Definition insert_all {V} (tr : list (Z * V)) (m : gmap Z V) : gmap Z V :=
  foldl (fun m p => <[p.1 := p.2]> m) m tr.

(** All the points computed for a list of node names, in order and with
    repetitions. *)
Definition all_points (names : list string) (R : Z) : list Z :=
  name ← names; replica_points name R.

(** ** The checksum, bit by bit

    CRC-32 in its ISO-HDLC ("IEEE") form: the register starts with all
    bits set, each byte is added into its low bits and followed by eight
    shift steps with the reflected polynomial, and the result is the
    complement of the register.  This definition follows the words of
    the specification; [crc32.ChecksumIEEE] above is the routine the
    programs call. *)
Definition crc32_shift (crc : Z) : Z :=
  if Z.odd crc then Z.lxor (Z.shiftr crc 1) 0xedb88320 else Z.shiftr crc 1.

Definition crc32_byte (crc b : Z) : Z :=
  Nat.iter 8 crc32_shift (Z.lxor crc b).

Definition crc32_reference (data : list Z) : Z :=
  Z.lxor (foldl crc32_byte 0xFFFFFFFF data) 0xFFFFFFFF.

(** ** The rings the constructors return, as values *)

Module custom_build.
Import custom.

(** The sequence of [(point, node)] assignments of the construction,
    in execution order, when the first node is allocated at [k]. *)
Fixpoint trace (k : ptr) (configs : list shardConfig) (R : Z) : list (Z * ptr) :=
  match configs with
  | [] => []
  | cfg :: rest =>
      ((fun h => (h, k)) <$> replica_points (Name cfg) R) ++ trace (S k) rest R
  end.

Definition node_of (cfg : shardConfig) : node :=
  Node (Name cfg) (NewClient (Addr cfg)).

(** The capacity test of the initial [make] of [sortedKeys]. *)
Definition cap_ok (n : nat) (R : Z) : Prop :=
  0 <= to_int (R * Z.of_nat n) /\ 4 * to_int (R * Z.of_nat n) <= maxAlloc.

(** The ring [newRubyHashRing] returns, as a value. *)
Definition built (configs : list shardConfig) (R : Z) : rubyHashRing :=
  {| replicas := R;
     sortedKeys := sort_Slice (trace 0%nat configs R).*1;
     ring := insert_all (trace 0%nat configs R) ∅;
     nodes := node_of <$> configs |}.

End custom_build.

Module consistent_build.
Import consistent.

(** The [(point, shard)] assignments of the construction, in order. *)
Fixpoint trace (shards : list string) (R : Z) : list (Z * string) :=
  match shards with
  | [] => []
  | shard :: rest =>
      ((fun h => (h, shard)) <$> replica_points shard R) ++ trace rest R
  end.

Definition built (shards : list string) (R : Z) : rubyStyleHash :=
  {| replicas := R;
     sortedKeys := sort_Slice (trace shards R).*1;
     ring := insert_all (trace shards R) ∅ |}.

End consistent_build.

(** ** Ordered slices and the point a lookup selects *)

(** An ascending slice, read through its indices. *)
Definition ascending (keys : list Z) : Prop :=
  forall (i j : nat) (x y : Z),
    (i <= j)%nat -> keys !! i = Some x -> keys !! j = Some y -> x <= y.

(** [p] is the smallest stored point that is [>= h]. *)
Definition smallest_point_ge (keys : list Z) (h p : Z) : Prop :=
  p ∈ keys /\ h <= p /\ forall q, q ∈ keys -> h <= q -> p <= q.

(** [p] is the largest stored point that is [<= h]. *)
Definition largest_point_le (keys : list Z) (h p : Z) : Prop :=
  p ∈ keys /\ p <= h /\ forall q, q ∈ keys -> q <= h -> q <= p.

(** Lower bound with wrap-around to index 0: the first point at or after
    [h] on the circle. *)
Definition successor_point (keys : list Z) (h p : Z) : Prop :=
  smallest_point_ge keys h p \/
  ((forall q, q ∈ keys -> q < h) /\ head keys = Some p).

(** Upper bound minus one with wrap-around to the last index: the last
    point at or before [h] on the circle. *)
Definition predecessor_point (keys : list Z) (h p : Z) : Prop :=
  largest_point_le keys h p \/
  ((forall q, q ∈ keys -> h < q) /\ last keys = Some p).

(** ** The rules under examination and the rings of the experiment *)

(** The ring of the experiment with a single replica per node, and the
    ring the programs build (160 replicas). *)
Definition ring1 : custom.rubyHashRing := custom_build.built demo_configs 1.
Definition ring160 : custom.rubyHashRing := custom_build.built demo_configs 160.
Definition demo_shards : list string := custom.Name <$> demo_configs.
Definition hash1 : consistent.rubyStyleHash := consistent_build.built demo_shards 1.
Definition hash160 : consistent.rubyStyleHash := consistent_build.built demo_shards 160.

(** The rule "first point [>= hash], else wrap to index 0", stated for
    [getNode]. *)
Definition getNode_lower_bound (r : custom.rubyHashRing) (key : string) : Prop :=
  exists p,
    successor_point (custom.sortedKeys r) (crc32.ChecksumIEEE (bytes_of_string key)) p /\
    custom.getNode r key = Ret (custom.ring r !! p).

(** The wrap rule "a hash above every point resolves to the owner of the
    first point", stated for [getNode]. *)
Definition getNode_wraps_to_first (r : custom.rubyHashRing) (key : string) : Prop :=
  (forall q, q ∈ custom.sortedKeys r -> q < crc32.ChecksumIEEE (bytes_of_string key)) ->
  exists p,
    head (custom.sortedKeys r) = Some p /\
    custom.getNode r key = Ret (custom.ring r !! p).

(** Agreement of the two programs on a key, both reading the raw key. *)
Definition implementations_agree (configs : list custom.shardConfig) (R : Z)
           (key : string) : Prop :=
  forall r h,
    custom.newRubyHashRing configs R = Ret r ->
    consistent.newRubyStyleHash (custom.Name <$> configs) R = Ret h ->
    custom.assign r key = consistent.Get h key.

(** A call fails when it does not return a value. *)
Definition fails {A} (m : result A) : Prop := forall a, m <> Ret a.

(** "Construction fails exactly when the replica count is not positive." *)
Definition rejects_nonpositive_replicas (configs : list custom.shardConfig) (R : Z) : Prop :=
  fails (custom.newRubyHashRing configs R) <-> R <= 0.

(** * Part IIb: the rest of the programs and notions for further properties *)

(** ** Strings *)

(** The byte [c] occurs in [s]. *)
Definition contains (c : ascii) (s : string) : Prop :=
  In c (list_ascii_of_string s).

(** ** The [main] functions of the two programs

    From the parsed key list on: reading the key file and writing the
    result file are left out, the slice of assignments that ends up in
    the result is what is modelled. *)

(** [assignment]: both programs declare the same type. *)
Record assignment := Assignment { Key : string; Shard : string }.

Module custom_main.

Definition shardDefs : list custom.shardConfig := demo_configs.

(** The body of the loop over [payload.Keys]. *)
Definition record_key (ring : custom.rubyHashRing) (assignments : list assignment)
           (key : string) : result (list assignment) :=
  shardName ← custom.assign ring key;
  Ret (assignments ++ [Assignment key shardName]).

Definition assignments_of (ring : custom.rubyHashRing) (keys : list string)
  : result (list assignment) :=
  for_each (record_key ring) keys [].

Definition main (keys : list string) : result (list assignment) :=
  ring ← custom.newRubyHashRing shardDefs 160;
  assignments_of ring keys.

End custom_main.

Module consistent_main.

Definition shards : list string := ["cache-a"; "cache-b"; "cache-c"].

(** The body of the loop over [payload.Keys]: the key is recorded as it
    is, the shard is looked up for the normalized key. *)
Definition record_key (hash : consistent.rubyStyleHash) (assignments : list assignment)
           (key : string) : result (list assignment) :=
  shard ← consistent.assign hash key;
  Ret (assignments ++ [Assignment key shard]).

Definition assignments_of (hash : consistent.rubyStyleHash) (keys : list string)
  : result (list assignment) :=
  for_each (record_key hash) keys [].

Definition main (keys : list string) : result (list assignment) :=
  hash ← consistent.newRubyStyleHash shards 160;
  assignments_of hash keys.

End consistent_main.

(** ** Redis::HashRing, the Ruby class the experiment compares against

    The class as the documentation of the repository reproduces it, and
    [scripts/ruby_ring.rb], which drives it.  Ruby integers are unbounded;
    an exception is a [Panic] outcome; [nil] is [None]. *)
Module ruby.

(** [Node = Struct.new(:id)]. *)
Record Node := NodeNew { id : string }.

(** [ary[i]]: a negative index counts from the end, an index out of
    range reads as [nil]. *)
Definition at_index {A} (ary : list A) (i : Z) : option A :=
  let i := if i <? 0 then i + len ary else i in
  if (0 <=? i) && (i <? len ary) then ary !! Z.to_nat i else None.

Record HashRing := Build {
  replicas : Z;
  ring : gmap Z Node;
  nodes : list Node;
  sorted_keys : list Z
}.

(** [hash_for]: [Zlib.crc32(key)]. *)
Definition hash_for (key : string) : Z :=
  crc32.ChecksumIEEE (bytes_of_string key).

(** [String#unpack1("L>")]: the first four bytes as a big-endian
    unsigned number, [nil] when there are fewer. *)
Definition unpack1_L_be (bs : list Z) : option Z :=
  match bs with
  | b0 :: b1 :: b2 :: b3 :: _ => Some (b0 * 2 ^ 24 + b1 * 2 ^ 16 + b2 * 2 ^ 8 + b3)
  | _ => None
  end.

(** [server_hash_for].  A [nil] point is outside this model and shown as
    an error; the digest always has sixteen bytes, so it does not arise. *)
Definition server_hash_for (key : string) : result Z :=
  match unpack1_L_be (md5.Sum (bytes_of_string key)) with
  | Some point => Ret point
  | None => Panic "nil point"
  end.

(** [Array#sort!] on integers. *)
Definition sort_bang (ary : list Z) : list Z := merge_sort Z.le ary.

(** The block of [@replicas.times] in [add_node]. *)
Definition add_point (node : Node) (h : HashRing) (i : Z) : result HashRing :=
  key ← server_hash_for (id node +:+ ":" +:+ pretty i);
  Ret {| replicas := replicas h;
         ring := <[key := node]> (ring h);
         nodes := nodes h;
         sorted_keys := sorted_keys h ++ [key] |}.

Definition add_node (h : HashRing) (node : Node) : result HashRing :=
  let h := {| replicas := replicas h; ring := ring h;
              nodes := nodes h ++ [node]; sorted_keys := sorted_keys h |} in
  h ← for_each (add_point node) (seqZ 0 (replicas h)) h;
  Ret {| replicas := replicas h; ring := ring h; nodes := nodes h;
         sorted_keys := sort_bang (sorted_keys h) |}.

(** [initialize]. *)
Definition new (nodes : list Node) (replicas : Z) : result HashRing :=
  for_each add_node nodes
           {| replicas := replicas; ring := ∅; nodes := []; sorted_keys := [] |}.

(** The block of [@replicas.times] in [remove_node]. *)
Definition remove_point (node : Node) (h : HashRing) (i : Z) : result HashRing :=
  key ← server_hash_for (id node +:+ ":" +:+ pretty i);
  Ret {| replicas := replicas h;
         ring := delete key (ring h);
         nodes := nodes h;
         sorted_keys := filter (fun k => k <> key) (sorted_keys h) |}.

(** [remove_node]: [reject!] keeps the elements the block is false for. *)
Definition remove_node (h : HashRing) (node : Node) : result HashRing :=
  let h := {| replicas := replicas h; ring := ring h;
              nodes := filter (fun n => id n <> id node) (nodes h);
              sorted_keys := sorted_keys h |} in
  for_each (remove_point node) (seqZ 0 (replicas h)) h.


Fixpoint binary_search_loop (fuel : nat) (ary : list Z) (value lower upper : Z)
  : result Z :=
  if lower <? upper then
    match fuel with
    | O => OutOfFuel
    | S fuel' =>
        let mid := (lower + upper) / 2 in
        match at_index ary mid with
        | None => Panic "NoMethodError: undefined method > for nil"
        | Some x =>
            if x >? value then binary_search_loop fuel' ary value lower mid
            else binary_search_loop fuel' ary value (mid + 1) upper
        end
    end
  else Ret (upper - 1).

Definition binary_search (ary : list Z) (value : Z) : result Z :=
  binary_search_loop (length ary) ary value 0 (len ary).

(** [get_node]: [@ring[@sorted_keys[idx]]]; looking up [nil] gives [nil]. *)
Definition get_node (h : HashRing) (key : string) : result (option Node) :=
  let hash := hash_for key in
  idx ← binary_search (sorted_keys h) hash;
  Ret (match at_index (sorted_keys h) idx with
       | Some point => ring h !! point
       | None => None
       end).

(** [iter_nodes]: the nodes the block is called with, in order.  Nothing
    is yielded when the table is empty. *)
Definition iter_nodes (h : HashRing) (key : string) : result (list (option Node)) :=
  if (size (ring h) =? 0)%nat then Ret []
  else
    let crc := hash_for key in
    pos ← binary_search (sorted_keys h) crc;
    let ring_size := Z.of_nat (size (ring h)) in
    Ret ((fun n => match at_index (sorted_keys h) ((pos + n) mod ring_size) with
                   | Some point => ring h !! point
                   | None => None
                   end) <$> seqZ 0 ring_size).

(** An element of the [assignments] array of a result file: the key and
    the shard, a string or [null]. *)
Record entry := Entry { entry_key : string; entry_shard : option string }.

(** [scripts/ruby_ring.rb]: the block of [keys.map]. *)
Definition assign (h : HashRing) (key : string) : result entry :=
  node ← get_node h key;
  Ret (Entry key (id <$> node)).



End ruby.


(** ** scripts/compare_results.rb

    From the two parsed [assignments] arrays on; [match_rate], a rounded
    floating-point quotient of [matches] and [total_keys], is left out. *)
Module compare.





(** [Array#first(n)] raises on a negative count. *)
Definition first {A} (ary : list A) (n : Z) : result (list A) :=
  if n <? 0 then Panic "ArgumentError: negative array size"
  else Ret (take (Z.to_nat n) ary).


End compare.

(** ** The ring [Redis::HashRing.new] returns, as a value *)
Definition ruby_built (names : list string) (R : Z) : ruby.HashRing :=
  {| ruby.replicas := R;
     ruby.ring := ruby.NodeNew <$> consistent.ring (consistent_build.built names R);
     ruby.nodes := ruby.NodeNew <$> names;
     ruby.sorted_keys := consistent.sortedKeys (consistent_build.built names R) |}.

(** ** The mismatches a comparison lists *)


(** ** go-redis' hash-tag rule

    [hashtag.Key] as the documentation quotes it from the library. *)
Module hashtag.

Definition Key (key : string) : result string :=
  let s := IndexByte key "{" in
  if s >? -1 then
    rest ← slice key (s + 1) (strlen key);
    let e := IndexByte rest "}" in
    if e >? 0 then slice key (s + 1) (s + e + 1)
    else Ret key
  else Ret key.

End hashtag.

(** ** Rings of the Ruby class that are in order

    Every listed point has an owner; every owner sits on a point
    computed from its own id and is one of the nodes; every point with an
    owner is listed; and the points are listed in ascending order. *)
Definition ring_consistent (h : ruby.HashRing) : Prop :=
  (forall p, p ∈ ruby.sorted_keys h <-> is_Some (ruby.ring h !! p)) /\
  (forall p nd, ruby.ring h !! p = Some nd ->
     p ∈ replica_points (ruby.id nd) (ruby.replicas h) /\ nd ∈ ruby.nodes h) /\
  StronglySorted Z.le (ruby.sorted_keys h).

(** ** docs/redis-replicas.md: the ring with read replicas

    The extension of [cmd/go-ring-custom] the documentation writes out:
    a node carries a primary client and replica clients, and the client
    for a key is chosen after the node.  [getNode] and [binarySearch]
    are the methods of [cmd/go-ring-custom]; they read [sortedKeys] and
    [ring] only.  A [*redis.Client] may be [nil], which is [None]. *)
Module routing.

Record shardConfig := ShardConfig {
  Name : string;
  PrimaryAddr : string;
  ReplicaAddrs : list string
}.

(** The options a client was created from. *)
Record redisClient := NewClient { opt_Addr : string; opt_ReadOnly : bool }.

(** The field [replicas] of [node] is [replica_clients] here, the field
    [replicas] of the ring keeps its name. *)
Record node := Node {
  name : string;
  primary : option redisClient;
  replica_clients : list (option redisClient)
}.

Record rubyHashRing := RubyHashRing {
  replicas : Z;
  sortedKeys : list Z;
  ring : gmap Z nat;
  nodes : list node
}.

(** [*node] for a pointer that may be [nil]: selecting a field of [nil]
    panics.  A pointer always refers to a node of [nodes]. *)
Definition deref (r : rubyHashRing) (n : option nat) : result node :=
  match n with
  | Some p =>
      match nodes r !! p with
      | Some nd => Ret nd
      | None => Panic "invalid memory address or nil pointer dereference"
      end
  | None => Panic "invalid memory address or nil pointer dereference"
  end.

(** The loop over [cfg.ReplicaAddrs]. *)
Definition connect_replica (n : node) (replicaAddr : string) : node :=
  {| name := name n; primary := primary n;
     replica_clients := replica_clients n ++ [Some (NewClient replicaAddr true)] |}.

Definition add_replica (cfg : shardConfig) (n : nat) (r : rubyHashRing) (i : Z)
  : result rubyHashRing :=
  let virtualKey := Sprintf "%s:%d" [OpString (Name cfg); OpInt i] in
  hash ← serverHashFor virtualKey;
  Ret {| replicas := replicas r;
         sortedKeys := sortedKeys r ++ [hash];
         ring := <[hash := n]> (ring r);
         nodes := nodes r |}.

Definition add_config (replicas : Z) (r : rubyHashRing) (cfg : shardConfig)
  : result rubyHashRing :=
  let n := {| name := Name cfg;
              primary := Some (NewClient (PrimaryAddr cfg) false);
              replica_clients := [] |} in
  let n := foldl connect_replica n (ReplicaAddrs cfg) in
  let p := length (nodes r) in
  let r := {| replicas := routing.replicas r;
              sortedKeys := sortedKeys r;
              ring := ring r;
              nodes := nodes r ++ [n] |} in
  for_each (add_replica cfg p) (seqZ 0 replicas) r.

Definition newRubyHashRingWithReplicas (configs : list shardConfig) (replicas : Z)
  : result rubyHashRing :=
  keys ← makeslice 4 (to_int (replicas * len configs));
  let r := {| replicas := replicas; ring := ∅; sortedKeys := keys; nodes := [] |} in
  r ← for_each (add_config replicas) configs r;
  Ret {| replicas := routing.replicas r;
         sortedKeys := sort_Slice (sortedKeys r);
         ring := ring r;
         nodes := nodes r |}.

Definition binarySearch (r : rubyHashRing) (value : Z) : result Z :=
  custom.binarySearch_loop (length (sortedKeys r)) (sortedKeys r) value 0
                           (len (sortedKeys r)).

Definition getNode (r : rubyHashRing) (key : string) : result (option nat) :=
  if len (sortedKeys r) =? 0 then Ret None
  else
    let hash := crc32.ChecksumIEEE (bytes_of_string key) in
    idx ← binarySearch r hash;
    let idx := if idx <? 0 then len (sortedKeys r) - 1 else idx in
    nodeKey ← index (sortedKeys r) idx;
    Ret (ring r !! nodeKey).

Definition getPrimaryClient (r : rubyHashRing) (key : string)
  : result (option redisClient) :=
  node ← getNode r key;
  match node with
  | None => Ret None
  | Some _ => nd ← deref r node; Ret (primary nd)
  end.

(** [int(hash) % len(node.replicas)], the remainder of Go's division. *)
Definition getReplicaClient (r : rubyHashRing) (key : string)
  : result (option redisClient) :=
  node ← getNode r key;
  match node with
  | None => Ret None
  | Some _ =>
      nd ← deref r node;
      if len (replica_clients nd) =? 0 then Ret (primary nd)
      else
        let hash := crc32.ChecksumIEEE (bytes_of_string key) in
        let idx := Z.rem (to_int hash) (len (replica_clients nd)) in
        index (replica_clients nd) idx
  end.

Definition getClientForRead (r : rubyHashRing) (key : string)
  : result (option redisClient) :=
  getReplicaClient r key.

Definition getClientForWrite (r : rubyHashRing) (key : string)
  : result (option redisClient) :=
  getPrimaryClient r key.

(** [rand.Intn] is the parameter [Intn].  The condition
    [node == nil || len(node.replicas) == 0] stops at its first operand
    when the node is [nil]. *)
Definition getRandomReplicaClient (Intn : Z -> Z) (r : rubyHashRing) (key : string)
  : result (option redisClient) :=
  node ← getNode r key;
  no_replica ← match node with
               | None => Ret true
               | Some _ => nd ← deref r node; Ret (len (replica_clients nd) =? 0)
               end;
  if no_replica : bool then nd ← deref r node; Ret (primary nd)
  else
    nd ← deref r node;
    let idx := Intn (len (replica_clients nd)) in
    index (replica_clients nd) idx.

(** [isHealthy], a network probe, is the parameter [isHealthy]. *)
Definition getHealthyReplicaClient (isHealthy : option redisClient -> bool)
           (r : rubyHashRing) (key : string) : result (option redisClient) :=
  node ← getNode r key;
  match node with
  | None => Ret None
  | Some _ =>
      nd ← deref r node;
      match List.find isHealthy (replica_clients nd) with
      | Some replica => Ret replica
      | None => Ret (primary nd)
      end
  end.

End routing.

(** ** The ring with replicas, as a value, and the ring under it *)
Module routing_build.
Import routing.

(** The node allocated for a configuration. *)
Definition node_of (cfg : shardConfig) : node :=
  {| name := Name cfg;
     primary := Some (NewClient (PrimaryAddr cfg) false);
     replica_clients := (fun addr => Some (NewClient addr true)) <$> ReplicaAddrs cfg |}.

(** The configuration of [cmd/go-ring-custom] with the same name and
    the primary address. *)
Definition plain (cfg : shardConfig) : custom.shardConfig :=
  custom.ShardConfig (Name cfg) (PrimaryAddr cfg).

Definition built (configs : list shardConfig) (R : Z) : rubyHashRing :=
  {| replicas := R;
     sortedKeys := sort_Slice (custom_build.trace 0%nat (plain <$> configs) R).*1;
     ring := insert_all (custom_build.trace 0%nat (plain <$> configs) R) ∅;
     nodes := node_of <$> configs |}.

(** The ring without its replica clients. *)
Definition forget (r : rubyHashRing) : custom.rubyHashRing :=
  {| custom.replicas := replicas r;
     custom.sortedKeys := sortedKeys r;
     custom.ring := ring r;
     custom.nodes :=
       (fun nd => custom.Node (name nd)
                    (custom.NewClient (default EmptyString (opt_Addr <$> primary nd))))
         <$> nodes r |}.

End routing_build.

(** A client that belongs to a shard: its primary, or one of its
    read-only replicas. *)
Definition client_of (cfg : routing.shardConfig) (c : option routing.redisClient) : Prop :=
  c = Some (routing.NewClient (routing.PrimaryAddr cfg) false) \/
  exists addr, addr ∈ routing.ReplicaAddrs cfg /\ c = Some (routing.NewClient addr true).

(** ** scripts/generate_keys.rb

    The block of [Array.new(count)].  The bytes [rng.bytes(8)] returns
    for a key are the parameter [bytes]; [unpack1('H*')] writes them in
    hexadecimal. *)
Module generate_keys.

Definition key (prefix : string) (i : Z) (bytes : list Z) : string :=
  let token := hex_of_bytes bytes in
  if i mod 25 =? 0 then
    let tag := "tag" +:+ pretty i in
    prefix +:+ ":{" +:+ tag +:+ "}:" +:+ token
  else prefix +:+ ":" +:+ pretty i +:+ ":" +:+ token.

Definition keys (prefix : string) (random : list (list Z)) : list string :=
  imap (fun i bytes => key prefix (Z.of_nat i) bytes) random.

End generate_keys.

(** ** The lookup as the documentation prints it

    [getNode] as shown in the walk-through of the repository, on the
    ring of [cmd/go-ring-custom]: a [sort.Search] for the first point
    not below the hash. *)
Module documented.

Definition getNode (r : custom.rubyHashRing) (key : string) : result (option nat) :=
  if len (custom.sortedKeys r) =? 0 then Ret None
  else
    let hash := crc32.ChecksumIEEE (bytes_of_string key) in
    idx ← sort_Search (len (custom.sortedKeys r))
            (fun i => k ← index (custom.sortedKeys r) i; Ret (hash <=? k));
    let idx := if idx =? len (custom.sortedKeys r) then 0 else idx in
    nodeKey ← index (custom.sortedKeys r) idx;
    Ret (custom.ring r !! nodeKey).

End documented.

(** * Part III: properties *)

(** Equalities between bitwise expressions, bit by bit. *)
Ltac bitwise :=
  apply Z.bits_inj'; intros ?n ?Hn;
  repeat rewrite ?Z.lxor_spec, ?Z.land_spec, ?Z.shiftr_spec by lia;
  repeat match goal with
         | |- context [Z.testbit ?x ?k] => destruct (Z.testbit x k)
         end; reflexivity.

(** ** The library routines on known inputs *)

Example crc32_check_value :
  crc32.ChecksumIEEE (bytes_of_string "123456789") = 0xcbf43926.
Proof. vm_compute. reflexivity. Qed.

Example md5_empty :
  hex_of_bytes (md5.Sum (bytes_of_string EmptyString)) = "d41d8cd98f00b204e9800998ecf8427e".
Proof. vm_compute. reflexivity. Qed.

Example md5_abc :
  hex_of_bytes (md5.Sum (bytes_of_string "abc")) = "900150983cd24fb0d6963f7d28e17f72".
Proof. vm_compute. reflexivity. Qed.

Example md5_padding_block :
  hex_of_bytes (md5.Sum (bytes_of_string
    "ABCDEFGHIJKLMNOPQRSTUVWXYZabcdefghijklmnopqrstuvwxyz0123456789"))
  = "d174ab98d277d9f5a5611c2c9f419d9f".
Proof. vm_compute. reflexivity. Qed.

Example md5_two_blocks :
  hex_of_bytes (md5.Sum (bytes_of_string
    "12345678901234567890123456789012345678901234567890123456789012345678901234567890"))
  = "57edf4a22be3c955ac49da2e2107b67a".
Proof. vm_compute. reflexivity. Qed.

(** ** Bytes, words and indexing *)

Lemma index_Ret {A} (s : list A) (i : Z) (x : A) :
  index s i = Ret x <-> 0 <= i < len s /\ s !! Z.to_nat i = Some x.
Proof.
  unfold index, len.
  destruct (Z.leb_spec 0 i), (Z.ltb_spec i (Z.of_nat (length s))); simpl;
    try (split; [discriminate | lia]).
  destruct (s !! Z.to_nat i) eqn:E; split.
  - intros [= ->]. auto with lia.
  - intros [_ [= ->]]. reflexivity.
  - discriminate.
  - intros [_ [=]].
Qed.

Lemma index_in_range {A} (s : list A) (i : Z) :
  0 <= i < len s -> exists x, index s i = Ret x /\ s !! Z.to_nat i = Some x.
Proof.
  intros Hi. unfold len in Hi.
  destruct (lookup_lt_is_Some_2 s (Z.to_nat i)) as [x Hx]; [lia|].
  exists x. split; [|exact Hx]. apply index_Ret. unfold len. auto.
Qed.

Lemma lor_shiftl_add (a b n : Z) :
  0 <= n -> 0 <= a < 2 ^ n -> Z.lor a (Z.shiftl b n) = a + b * 2 ^ n.
Proof.
  intros Hn Ha.
  rewrite <- Z.shiftl_mul_pow2 by assumption.
  rewrite <- Z.lxor_lor, Z.add_nocarry_lxor; try reflexivity.
  all: apply Z.bits_inj'; intros k Hk; rewrite Z.land_spec, Z.bits_0.
  all: destruct (Z.lt_ge_cases k n) as [Hlt | Hge].
  all: try (rewrite (Z.shiftl_spec_low b n k Hlt); apply andb_false_r).
  all: destruct (Z.eq_dec a 0) as [-> | Hne]; [rewrite Z.bits_0; reflexivity|].
  all: rewrite (Z.bits_above_log2 a k); [reflexivity | lia |].
  all: apply Z.lt_le_trans with n; [apply Z.log2_lt_pow2; lia | assumption].
Qed.

Lemma le_bytes_length (n : nat) (x : Z) : length (md5.le_bytes n x) = n.
Proof. revert x. induction n; intros; simpl; auto. Qed.

Lemma le_bytes_range (n : nat) (x : Z) :
  Forall (fun b => 0 <= b < 256) (md5.le_bytes n x).
Proof.
  revert x. induction n; intros x; simpl; constructor; auto.
  change 255 with (Z.ones 8). rewrite Z.land_ones by lia.
  apply Z.mod_pos_bound. lia.
Qed.

(** The digest is an array of sixteen bytes. *)
Lemma md5_Sum_length (data : list Z) : length (md5.Sum data) = 16%nat.
Proof.
  unfold md5.Sum. destruct (foldl _ _ _) as [a b c d].
  rewrite !length_app, !le_bytes_length. reflexivity.
Qed.

Lemma md5_Sum_range (data : list Z) :
  Forall (fun b => 0 <= b < 256) (md5.Sum data).
Proof.
  unfold md5.Sum. destruct (foldl _ _ _) as [a b c d].
  rewrite !Forall_app. auto using le_bytes_range.
Qed.

Lemma BigEndian_Uint32_be32 (b0 b1 b2 b3 : Z) :
  0 <= b0 < 256 -> 0 <= b1 < 256 -> 0 <= b2 < 256 -> 0 <= b3 < 256 ->
  binary.BigEndian_Uint32 [b0; b1; b2; b3] = Ret (be32 b0 b1 b2 b3).
Proof.
  intros H0 H1 H2 H3. unfold binary.BigEndian_Uint32, mbind, result_bind. cbn.
  f_equal. unfold be32.
  rewrite (lor_shiftl_add b3 b2 8) by lia.
  rewrite (lor_shiftl_add _ b1 16) by lia.
  rewrite (lor_shiftl_add _ b0 24) by lia.
  lia.
Qed.

Lemma md5_Sum_first4 (data : list Z) :
  exists b0 b1 b2 b3 rest,
    md5.Sum data = b0 :: b1 :: b2 :: b3 :: rest /\ length rest = 12%nat /\
    0 <= b0 < 256 /\ 0 <= b1 < 256 /\ 0 <= b2 < 256 /\ 0 <= b3 < 256.
Proof.
  pose proof (md5_Sum_length data) as Hl.
  pose proof (md5_Sum_range data) as Hr.
  destruct (md5.Sum data) as [|b0 [|b1 [|b2 [|b3 rest]]]]; try discriminate.
  exists b0, b1, b2, b3, rest.
  repeat (apply Forall_cons in Hr; destruct Hr as [? Hr]).
  simpl in Hl. repeat split; auto with lia.
Qed.

Lemma serverHashFor_total (key : string) :
  serverHashFor key = Ret (serverHash key).
Proof.
  unfold serverHashFor, serverHash.
  destruct (md5_Sum_first4 (bytes_of_string key))
    as (b0 & b1 & b2 & b3 & rest & -> & _ & H0 & H1 & H2 & H3).
  cbn [take]. apply BigEndian_Uint32_be32; assumption.
Qed.

Lemma serverHash_range (key : string) : 0 <= serverHash key <= uint32_max.
Proof.
  unfold serverHash.
  destruct (md5_Sum_first4 (bytes_of_string key))
    as (b0 & b1 & b2 & b3 & rest & -> & _ & H0 & H1 & H2 & H3).
  unfold be32, uint32_max. lia.
Qed.

(** ** The table-driven checksum is CRC-32 *)

Lemma bytes_of_string_range (s : string) :
  Forall (fun b => 0 <= b < 256) (bytes_of_string s).
Proof.
  unfold bytes_of_string. apply Forall_fmap, Forall_forall. intros c _. cbn.
  pose proof (N_ascii_bounded c). lia.
Qed.

Lemma table_step_shift (crc : Z) : crc32.table_step crc32.IEEE crc = crc32_shift crc.
Proof.
  unfold crc32.table_step, crc32_shift, crc32.IEEE.
  change (Z.land crc 1) with (Z.land crc (Z.ones 1)). rewrite Z.land_ones by lia.
  change (2 ^ 1) with 2. rewrite Zmod_odd.
  destruct (Z.odd crc); reflexivity.
Qed.

Lemma IEEETable_entry (i : Z) :
  0 <= i < 256 -> nth (Z.to_nat i) crc32.IEEETable 0 = Nat.iter 8 crc32_shift i.
Proof.
  intros Hi.
  assert (Ht : crc32.IEEETable = crc32.simplePopulateTable crc32.IEEE)
    by (vm_compute; reflexivity).
  rewrite Ht. unfold crc32.simplePopulateTable.
  apply nth_lookup_Some.
  rewrite list_lookup_fmap, lookup_seq_lt by lia. cbn [fmap option_fmap option_map Nat.add].
  rewrite Z2Nat.id by lia. f_equal.
  generalize 8%nat as k. induction k as [|k IH]; [reflexivity|].
  change (crc32.table_step crc32.IEEE (Nat.iter k (crc32.table_step crc32.IEEE) i)
          = crc32_shift (Nat.iter k crc32_shift i)).
  rewrite IH. apply table_step_shift.
Qed.

(** A shift step is linear for exclusive or. *)
Lemma crc32_shift_lxor (a b : Z) :
  crc32_shift (Z.lxor a b) = Z.lxor (crc32_shift a) (crc32_shift b).
Proof.
  unfold crc32_shift. rewrite <- !Z.bit0_odd, Z.lxor_spec, Z.shiftr_lxor.
  destruct (Z.testbit a 0), (Z.testbit b 0); cbn [xorb]; bitwise.
Qed.

Lemma crc32_shifts_lxor (k : nat) (a b : Z) :
  Nat.iter k crc32_shift (Z.lxor a b) =
  Z.lxor (Nat.iter k crc32_shift a) (Nat.iter k crc32_shift b).
Proof.
  induction k as [|k IH]; [reflexivity|].
  change (crc32_shift (Nat.iter k crc32_shift (Z.lxor a b)) =
          Z.lxor (crc32_shift (Nat.iter k crc32_shift a))
                 (crc32_shift (Nat.iter k crc32_shift b))).
  rewrite IH. apply crc32_shift_lxor.
Qed.

Lemma crc32_shift_even (m : Z) : crc32_shift (2 * m) = m.
Proof.
  unfold crc32_shift. rewrite Z.odd_mul. cbn [Z.odd andb].
  rewrite Z.shiftr_div_pow2 by lia. change (2 ^ 1) with 2.
  rewrite Z.mul_comm. apply Z.div_mul. lia.
Qed.

Lemma crc32_shifts_high (q : Z) : Nat.iter 8 crc32_shift (q * 2 ^ 8) = q.
Proof.
  replace (q * 2 ^ 8) with (2 * (2 * (2 * (2 * (2 * (2 * (2 * (2 * q)))))))) by lia.
  unfold Nat.iter. cbn [nat_rect].
  rewrite !crc32_shift_even. reflexivity.
Qed.

Lemma lxor_shiftl_add (a b n : Z) :
  0 <= n -> 0 <= a < 2 ^ n -> Z.lxor a (Z.shiftl b n) = a + b * 2 ^ n.
Proof.
  intros Hn Ha. rewrite <- lor_shiftl_add by assumption. apply Z.lxor_lor.
  apply Z.bits_inj'; intros k Hk. rewrite Z.land_spec, Z.bits_0.
  destruct (Z.lt_ge_cases k n) as [Hlt | Hge].
  - rewrite (Z.shiftl_spec_low b n k Hlt). apply andb_false_r.
  - destruct (Z.eq_dec a 0) as [-> | Hne]; [rewrite Z.bits_0; reflexivity|].
    rewrite (Z.bits_above_log2 a k); [reflexivity | lia |].
    apply Z.lt_le_trans with n; [apply Z.log2_lt_pow2; lia | assumption].
Qed.

(** One table look-up does the work of eight shift steps. *)
Lemma simpleUpdate_byte (crc b : Z) :
  0 <= b < 256 ->
  Z.lxor (nth (Z.to_nat (Z.lxor (Z.land crc 0xFF) b)) crc32.IEEETable 0) (Z.shiftr crc 8)
  = crc32_byte crc b.
Proof.
  intros Hb. unfold crc32_byte.
  set (x := Z.lxor crc b).
  assert (Hb255 : Z.land b 0xFF = b).
  { change 0xFF with (Z.ones 8). rewrite Z.land_ones by lia. apply Z.mod_small. lia. }
  assert (Hlow : Z.lxor (Z.land crc 0xFF) b = Z.land x 0xFF).
  { subst x. rewrite <- Hb255 at 1. bitwise. }
  assert (Hhigh : Z.shiftr crc 8 = Z.shiftr x 8).
  { subst x. rewrite Z.shiftr_lxor.
    replace (Z.shiftr b 8) with 0; [rewrite Z.lxor_0_r; reflexivity|].
    rewrite Z.shiftr_div_pow2 by lia. symmetry. apply Z.div_small. lia. }
  assert (Hrange : 0 <= Z.land x 0xFF < 256).
  { change 0xFF with (Z.ones 8). rewrite Z.land_ones by lia. apply Z.mod_pos_bound. lia. }
  rewrite Hlow, Hhigh, IEEETable_entry by assumption.
  assert (Hsplit : x = Z.lxor (Z.land x 0xFF) (Z.shiftr x 8 * 2 ^ 8)).
  { rewrite <- (Z.shiftl_mul_pow2 (Z.shiftr x 8) 8) by lia.
    rewrite lxor_shiftl_add by (try assumption; lia).
    change 0xFF with (Z.ones 8). rewrite Z.land_ones, Z.shiftr_div_pow2 by lia.
    pose proof (Z.div_mod x (2 ^ 8)). lia. }
  rewrite Hsplit at 3. rewrite crc32_shifts_lxor, crc32_shifts_high. reflexivity.
Qed.

(** [crc32.ChecksumIEEE] computes CRC-32 of a sequence of bytes. *)
Lemma ChecksumIEEE_reference (data : list Z) :
  Forall (fun b => 0 <= b < 256) data ->
  crc32.ChecksumIEEE data = crc32_reference data.
Proof.
  intros Hdata. unfold crc32.ChecksumIEEE, crc32.simpleUpdate, crc32_reference.
  change (Z.lxor 0 uint32_max) with 0xFFFFFFFF. change uint32_max with 0xFFFFFFFF.
  f_equal. generalize 0xFFFFFFFF as crc.
  induction Hdata as [|b data Hb _ IH]; intros crc; [reflexivity|].
  cbn [foldl]. rewrite simpleUpdate_byte by assumption. apply IH.
Qed.

(** ** Construction *)

Lemma append_empty_r (s : string) : s +:+ EmptyString = s.
Proof.
  induction s as [|a s IH]; [reflexivity|].
  change (String a (s +:+ EmptyString) = String a s). rewrite IH. reflexivity.
Qed.

(** The virtual key of a node name and a replica index. *)
Lemma Sprintf_virtualKey (s : string) (i : Z) :
  Sprintf "%s:%d" [OpString s; OpInt i] = s +:+ ":" +:+ pretty i.
Proof.
  change (Sprintf "%s:%d" [OpString s; OpInt i])
    with (s +:+ String ":" (pretty i +:+ EmptyString)).
  rewrite append_empty_r. reflexivity.
Qed.

Lemma insert_all_app {V} (tr1 tr2 : list (Z * V)) (m : gmap Z V) :
  insert_all (tr1 ++ tr2) m = insert_all tr2 (insert_all tr1 m).
Proof. unfold insert_all. apply foldl_app. Qed.

Lemma for_each_pure {S A} (body : S -> A -> result S) (f : S -> A -> S) (l : list A) (s : S) :
  (forall s x, body s x = Ret (f s x)) ->
  for_each body l s = Ret (foldl f s l).
Proof.
  intros Hb. revert s. induction l as [|x l IH]; intros s; simpl; [reflexivity|].
  rewrite Hb. apply IH.
Qed.

Module custom_facts.
Import custom custom_build.

Lemma add_replica_eq (cfg : shardConfig) (n : ptr) (r : rubyHashRing) (i : Z) :
  add_replica cfg n r i =
  Ret {| replicas := replicas r;
         sortedKeys := sortedKeys r ++ [virtual_point (Name cfg) i];
         ring := <[virtual_point (Name cfg) i := n]> (ring r);
         nodes := nodes r |}.
Proof.
  unfold add_replica. rewrite Sprintf_virtualKey, serverHashFor_total. reflexivity.
Qed.

Lemma add_replicas_spec (cfg : shardConfig) (n : ptr) (ixs : list Z) (r : rubyHashRing) :
  for_each (add_replica cfg n) ixs r =
  Ret {| replicas := replicas r;
         sortedKeys := sortedKeys r ++ (virtual_point (Name cfg) <$> ixs);
         ring := insert_all ((fun h => (h, n)) <$> (virtual_point (Name cfg) <$> ixs)) (ring r);
         nodes := nodes r |}.
Proof.
  revert r. induction ixs as [|i ixs IH]; intros r.
  - simpl. rewrite app_nil_r. destruct r; reflexivity.
  - cbn [for_each]. rewrite add_replica_eq.
    change (Ret ?a ≫= ?f) with (f a). cbv beta.
    rewrite IH. cbn [replicas sortedKeys ring nodes fmap list_fmap].
    rewrite <- app_assoc. reflexivity.
Qed.

Lemma add_config_eq (R : Z) (r : rubyHashRing) (cfg : shardConfig) :
  add_config R r cfg =
  Ret {| replicas := replicas r;
         sortedKeys := sortedKeys r ++ replica_points (Name cfg) R;
         ring := insert_all ((fun h => (h, length (nodes r)))
                               <$> replica_points (Name cfg) R) (ring r);
         nodes := nodes r ++ [node_of cfg] |}.
Proof. unfold add_config. rewrite add_replicas_spec. reflexivity. Qed.

Lemma add_configs_spec (R : Z) (configs : list shardConfig) (r : rubyHashRing) :
  for_each (add_config R) configs r =
  Ret {| replicas := replicas r;
         sortedKeys := sortedKeys r ++ (trace (length (nodes r)) configs R).*1;
         ring := insert_all (trace (length (nodes r)) configs R) (ring r);
         nodes := nodes r ++ (node_of <$> configs) |}.
Proof.
  revert r. induction configs as [|cfg configs IH]; intros r.
  - simpl. rewrite !app_nil_r. destruct r; reflexivity.
  - cbn [for_each]. rewrite add_config_eq.
    change (Ret ?a ≫= ?f) with (f a). cbv beta.
    rewrite IH. cbn [replicas sortedKeys ring nodes trace fmap list_fmap].
    rewrite length_app, Nat.add_1_r.
    rewrite fmap_app, insert_all_app, <- !app_assoc.
    rewrite <- list_fmap_compose.
    replace ((fst ∘ (fun h => (h, length (nodes r)))) <$> replica_points (Name cfg) R)
      with (replica_points (Name cfg) R)
      by (symmetry; apply list_fmap_id).
    reflexivity.
Qed.

Lemma newRubyHashRing_spec (configs : list shardConfig) (R : Z) :
  (cap_ok (length configs) R /\ newRubyHashRing configs R = Ret (built configs R)) \/
  (~ cap_ok (length configs) R /\
   newRubyHashRing configs R = Panic "makeslice: cap out of range").
Proof.
  unfold newRubyHashRing, makeslice, cap_ok, len.
  destruct (Z.leb_spec 0 (to_int (R * Z.of_nat (length configs))));
    destruct (Z.leb_spec (4 * to_int (R * Z.of_nat (length configs))) maxAlloc);
    cbn [andb]; try (right; split; [lia | reflexivity]).
  left. split; [lia|].
  change (Ret ?a ≫= ?f) with (f a). cbv beta.
  rewrite add_configs_spec. reflexivity.
Qed.

Lemma newRubyHashRing_Ret (configs : list shardConfig) (R : Z) (r : rubyHashRing) :
  newRubyHashRing configs R = Ret r -> r = built configs R.
Proof.
  destruct (newRubyHashRing_spec configs R) as [[_ ->] | [_ ->]]; congruence.
Qed.

End custom_facts.

Module consistent_facts.
Import consistent consistent_build.

Lemma add_shard_replica_eq (shard : string) (h : rubyStyleHash) (i : Z) :
  add_replica shard h i =
  Ret {| replicas := replicas h;
         sortedKeys := sortedKeys h ++ [virtual_point shard i];
         ring := <[virtual_point shard i := shard]> (ring h) |}.
Proof.
  unfold add_replica. rewrite Sprintf_virtualKey, serverHashFor_total. reflexivity.
Qed.

Lemma add_shard_replicas_spec (shard : string) (ixs : list Z) (h : rubyStyleHash) :
  for_each (add_replica shard) ixs h =
  Ret {| replicas := replicas h;
         sortedKeys := sortedKeys h ++ (virtual_point shard <$> ixs);
         ring := insert_all ((fun p => (p, shard)) <$> (virtual_point shard <$> ixs)) (ring h) |}.
Proof.
  revert h. induction ixs as [|i ixs IH]; intros h.
  - simpl. rewrite app_nil_r. destruct h; reflexivity.
  - cbn [for_each]. rewrite add_shard_replica_eq.
    change (Ret ?a ≫= ?f) with (f a). cbv beta.
    rewrite IH. cbn [replicas sortedKeys ring fmap list_fmap].
    rewrite <- app_assoc. reflexivity.
Qed.

Lemma add_shard_eq (R : Z) (h : rubyStyleHash) (shard : string) :
  add_shard R h shard =
  Ret {| replicas := replicas h;
         sortedKeys := sortedKeys h ++ replica_points shard R;
         ring := insert_all ((fun p => (p, shard))
                               <$> replica_points shard R) (ring h) |}.
Proof. unfold add_shard. rewrite add_shard_replicas_spec. reflexivity. Qed.

Lemma add_shards_spec (R : Z) (shards : list string) (h : rubyStyleHash) :
  for_each (add_shard R) shards h =
  Ret {| replicas := replicas h;
         sortedKeys := sortedKeys h ++ (trace shards R).*1;
         ring := insert_all (trace shards R) (ring h) |}.
Proof.
  revert h. induction shards as [|shard shards IH]; intros h.
  - simpl. rewrite !app_nil_r. destruct h; reflexivity.
  - cbn [for_each]. rewrite add_shard_eq.
    change (Ret ?a ≫= ?f) with (f a). cbv beta.
    rewrite IH. cbn [replicas sortedKeys ring trace fmap list_fmap].
    rewrite fmap_app, insert_all_app, <- !app_assoc.
    rewrite <- list_fmap_compose.
    replace ((fst ∘ (fun p => (p, shard))) <$> replica_points shard R)
      with (replica_points shard R)
      by (symmetry; apply list_fmap_id).
    reflexivity.
Qed.

Lemma newRubyStyleHash_spec (shards : list string) (R : Z) :
  (custom_build.cap_ok (length shards) R /\ newRubyStyleHash shards R = Ret (built shards R)) \/
  (~ custom_build.cap_ok (length shards) R /\
   newRubyStyleHash shards R = Panic "makeslice: cap out of range").
Proof.
  unfold newRubyStyleHash, makeslice, custom_build.cap_ok, len.
  destruct (Z.leb_spec 0 (to_int (R * Z.of_nat (length shards))));
    destruct (Z.leb_spec (4 * to_int (R * Z.of_nat (length shards))) maxAlloc);
    cbn [andb]; try (right; split; [lia | reflexivity]).
  left. split; [lia|].
  change (Ret ?a ≫= ?f) with (f a). cbv beta.
  rewrite add_shards_spec. reflexivity.
Qed.

Lemma newRubyStyleHash_Ret (shards : list string) (R : Z) (h : rubyStyleHash) :
  newRubyStyleHash shards R = Ret h -> h = built shards R.
Proof.
  destruct (newRubyStyleHash_spec shards R) as [[_ ->] | [_ ->]]; congruence.
Qed.

End consistent_facts.

(** ** The two searches *)

Lemma StronglySorted_ascending (keys : list Z) :
  StronglySorted Z.le keys -> ascending keys.
Proof.
  induction 1 as [|a l Hl IH Ha]; intros i j x y Hij Hi Hj.
  - rewrite lookup_nil in Hi. discriminate.
  - destruct i as [|i], j as [|j]; simpl in Hi, Hj; try lia.
    + injection Hi as <-. injection Hj as <-. lia.
    + injection Hi as <-. rewrite Forall_forall in Ha. apply Ha.
      eapply list_elem_of_lookup_2. exact Hj.
    + eapply (IH i j); eauto with lia.
Qed.

Lemma sort_Slice_sorted (s : list Z) : StronglySorted Z.le (sort_Slice s).
Proof. apply StronglySorted_merge_sort; apply _. Qed.

Lemma sort_Slice_perm (s : list Z) : sort_Slice s ≡ₚ s.
Proof. apply merge_sort_Permutation. Qed.

(** Any ascending rearrangement of the slice is the one [sort_Slice] gives. *)
Lemma sort_Slice_unique (s s' : list Z) :
  s' ≡ₚ s -> StronglySorted Z.le s' -> s' = sort_Slice s.
Proof.
  intros Hp Hs. apply (StronglySorted_unique Z.le); auto using sort_Slice_sorted.
  rewrite Hp. symmetry. apply sort_Slice_perm.
Qed.

Lemma sort_Slice_length (s : list Z) : length (sort_Slice s) = length s.
Proof. apply Permutation_length, sort_Slice_perm. Qed.

Section searches.
Variable keys : list Z.

(** The loop of [binarySearch]: it terminates within the budget, never
    indexes out of range, and on an ascending slice splits it at the
    returned index. *)
Lemma binarySearch_loop_spec (fuel : nat) (value lower upper : Z) :
  0 <= lower <= upper -> upper <= len keys ->
  (Z.to_nat (upper - lower) <= fuel)%nat ->
  exists idx,
    custom.binarySearch_loop fuel keys value lower upper = Ret idx /\
    lower - 1 <= idx <= upper - 1 /\
    (ascending keys ->
     (forall (i : nat) x, Z.of_nat i < lower -> keys !! i = Some x -> x <= value) ->
     (forall (i : nat) x, upper <= Z.of_nat i -> keys !! i = Some x -> value < x) ->
     (forall (i : nat) x, Z.of_nat i <= idx -> keys !! i = Some x -> x <= value) /\
     (forall (i : nat) x, idx < Z.of_nat i -> keys !! i = Some x -> value < x)).
Proof.
  revert lower upper.
  induction fuel as [|fuel IH]; intros lower upper Hlo Hup Hfuel; simpl;
    destruct (Z.ltb_spec lower upper) as [Hlt | Hge].
  - lia.
  - exists (upper - 1). split; [reflexivity|]. split; [lia|].
    intros _ Hbelow Habove.
    split; intros i x Hi Hx; [apply (Hbelow i x) | apply (Habove i x)]; auto; lia.
  - assert (Hmid : Z.quot (lower + upper) 2 = (lower + upper) / 2)
      by (apply Z.quot_div_nonneg; lia).
    rewrite Hmid. set (mid := (lower + upper) / 2).
    assert (lower <= mid < upper).
    { subst mid. split.
      - apply Z.div_le_lower_bound; lia.
      - apply Z.div_lt_upper_bound; lia. }
    destruct (index_in_range keys mid) as (k & -> & Hk); [lia|].
    change (Ret k ≫= ?f) with (f k). cbv beta.
    destruct (Z.gtb_spec k value) as [Hgt | Hle].
    + destruct (IH lower mid) as (idx & -> & Hidx & Hsplit); try lia.
      exists idx. split; [reflexivity|]. split; [lia|].
      intros Hasc Hbelow Habove. apply Hsplit; auto.
      intros i x Hi Hx.
      assert (k <= x) by (apply (Hasc (Z.to_nat mid) i); auto; lia). lia.
    + destruct (IH (mid + 1) upper) as (idx & -> & Hidx & Hsplit); try lia.
      exists idx. split; [reflexivity|]. split; [lia|].
      intros Hasc Hbelow Habove. apply Hsplit; auto.
      intros i x Hi Hx.
      assert (x <= k) by (apply (Hasc i (Z.to_nat mid)); auto; lia). lia.
  - exists (upper - 1). split; [reflexivity|]. split; [lia|].
    intros _ Hbelow Habove.
    split; intros i x Hi Hx; [apply (Hbelow i x) | apply (Habove i x)]; auto; lia.
Qed.

(** The loop of [sort.Search] under the predicate [keys[i] >= hash]. *)
Lemma sort_Search_loop_spec (fuel : nat) (hash i j : Z) :
  0 <= i <= j -> j <= len keys ->
  (Z.to_nat (j - i) <= fuel)%nat ->
  exists idx,
    sort_Search_loop fuel (fun i => k ← index keys i; Ret (hash <=? k)) i j = Ret idx /\
    i <= idx <= j /\
    (ascending keys ->
     (forall (n : nat) x, Z.of_nat n < i -> keys !! n = Some x -> x < hash) ->
     (forall (n : nat) x, j <= Z.of_nat n -> keys !! n = Some x -> hash <= x) ->
     (forall (n : nat) x, Z.of_nat n < idx -> keys !! n = Some x -> x < hash) /\
     (forall (n : nat) x, idx <= Z.of_nat n -> keys !! n = Some x -> hash <= x)).
Proof.
  revert i j.
  induction fuel as [|fuel IH]; intros i j Hlo Hup Hfuel; simpl;
    destruct (Z.ltb_spec i j) as [Hlt | Hge].
  - lia.
  - exists i. split; [reflexivity|]. split; [lia|].
    intros _ Hbelow Habove.
    split; intros n x Hn Hx; [apply (Hbelow n x) | apply (Habove n x)]; auto; lia.
  - rewrite Z.shiftr_div_pow2 by lia. change (2 ^ 1) with 2.
    set (h := (i + j) / 2).
    assert (i <= h < j).
    { subst h. split.
      - apply Z.div_le_lower_bound; lia.
      - apply Z.div_lt_upper_bound; lia. }
    destruct (index_in_range keys h) as (k & -> & Hk); [lia|].
    change (Ret k ≫= ?f) with (f k). cbv beta.
    change (Ret ?b ≫= ?f) with (f b). cbv beta.
    destruct (Z.leb_spec hash k) as [Hle | Hgt]; cbn [negb].
    + destruct (IH i h) as (idx & -> & Hidx & Hsplit); try lia.
      exists idx. split; [reflexivity|]. split; [lia|].
      intros Hasc Hbelow Habove. apply Hsplit; auto.
      intros n x Hn Hx.
      assert (k <= x) by (apply (Hasc (Z.to_nat h) n); auto; lia). lia.
    + destruct (IH (h + 1) j) as (idx & -> & Hidx & Hsplit); try lia.
      exists idx. split; [reflexivity|]. split; [lia|].
      intros Hasc Hbelow Habove. apply Hsplit; auto.
      intros n x Hn Hx.
      assert (x <= k) by (apply (Hasc n (Z.to_nat h)); auto; lia). lia.
  - exists i. split; [reflexivity|]. split; [lia|].
    intros _ Hbelow Habove.
    split; intros n x Hn Hx; [apply (Hbelow n x) | apply (Habove n x)]; auto; lia.
Qed.

End searches.

(** ** Which point a lookup selects *)

Lemma len_nonempty {A} (l : list A) : l <> [] -> 0 < len l.
Proof. destruct l; [congruence|]. unfold len. simpl. lia. Qed.

Lemma len_eqb_nonempty {A} (l : list A) : l <> [] -> (len l =? 0) = false.
Proof. intros H. apply Z.eqb_neq. pose proof (len_nonempty l H). lia. Qed.

Lemma binarySearch_spec (r : custom.rubyHashRing) (value : Z) :
  exists idx,
    custom.binarySearch r value = Ret idx /\
    -1 <= idx <= len (custom.sortedKeys r) - 1 /\
    (ascending (custom.sortedKeys r) ->
     (forall (i : nat) x, Z.of_nat i <= idx ->
                          custom.sortedKeys r !! i = Some x -> x <= value) /\
     (forall (i : nat) x, idx < Z.of_nat i ->
                          custom.sortedKeys r !! i = Some x -> value < x)).
Proof.
  unfold custom.binarySearch.
  destruct (binarySearch_loop_spec (custom.sortedKeys r)
              (length (custom.sortedKeys r)) value 0 (len (custom.sortedKeys r)))
    as (idx & Hrun & Hidx & Hsplit); unfold len in *; try lia.
  exists idx. split; [exact Hrun|]. split; [lia|].
  intros Hasc. apply Hsplit; auto.
  - intros i x Hi _. lia.
  - intros i x Hi Hx. apply lookup_lt_Some in Hx. lia.
Qed.

Lemma sort_Search_spec (keys : list Z) (hash : Z) :
  exists idx,
    sort_Search (len keys) (fun i => k ← index keys i; Ret (hash <=? k)) = Ret idx /\
    0 <= idx <= len keys /\
    (ascending keys ->
     (forall (n : nat) x, Z.of_nat n < idx -> keys !! n = Some x -> x < hash) /\
     (forall (n : nat) x, idx <= Z.of_nat n -> keys !! n = Some x -> hash <= x)).
Proof.
  unfold sort_Search.
  destruct (sort_Search_loop_spec keys (Z.to_nat (len keys)) hash 0 (len keys))
    as (idx & Hrun & Hidx & Hsplit); unfold len in *; try lia.
  exists idx. split; [exact Hrun|]. split; [lia|].
  intros Hasc. apply Hsplit; auto.
  - intros n x Hn _. lia.
  - intros n x Hn Hx. apply lookup_lt_Some in Hx. lia.
Qed.

(** [getNode] reads the table at the predecessor point of the key hash. *)
Lemma getNode_selects (r : custom.rubyHashRing) (key : string) :
  ascending (custom.sortedKeys r) -> custom.sortedKeys r <> [] ->
  exists p,
    predecessor_point (custom.sortedKeys r) (crc32.ChecksumIEEE (bytes_of_string key)) p /\
    custom.getNode r key = Ret (custom.ring r !! p).
Proof.
  intros Hasc Hne. unfold custom.getNode.
  rewrite (len_eqb_nonempty _ Hne).
  set (hash := crc32.ChecksumIEEE (bytes_of_string key)).
  destruct (binarySearch_spec r hash) as (idx & -> & Hidx & Hsplit).
  destruct (Hsplit Hasc) as [Hle Hgt]. clear Hsplit.
  pose proof (len_nonempty _ Hne) as Hlen.
  change (Ret idx ≫= ?f) with (f idx). cbv beta.
  destruct (Z.ltb_spec idx 0) as [Hneg | Hpos].
  - destruct (index_in_range (custom.sortedKeys r) (len (custom.sortedKeys r) - 1))
      as (p & -> & Hp); [lia|].
    exists p. split; [|reflexivity]. right. split.
    + intros q Hq. apply list_elem_of_lookup in Hq as [i Hi].
      apply (Hgt i q); [lia | exact Hi].
    + rewrite last_lookup. rewrite <- Hp. f_equal. unfold len. lia.
  - destruct (index_in_range (custom.sortedKeys r) idx) as (p & -> & Hp); [lia|].
    exists p. split; [|reflexivity]. left. repeat split.
    + eapply list_elem_of_lookup_2. exact Hp.
    + apply (Hle (Z.to_nat idx) p); [lia | exact Hp].
    + intros q Hq Hqh. apply list_elem_of_lookup in Hq as [i Hi].
      destruct (Z.lt_ge_cases idx (Z.of_nat i)) as [Hlt | Hge].
      * pose proof (Hgt i q Hlt Hi). lia.
      * apply (Hasc i (Z.to_nat idx)); auto. lia.
Qed.

(** [Get] reads the table at the successor point of the key hash. *)
Lemma Get_selects (h : consistent.rubyStyleHash) (key : string) :
  ascending (consistent.sortedKeys h) -> consistent.sortedKeys h <> [] ->
  exists p,
    successor_point (consistent.sortedKeys h) (crc32.ChecksumIEEE (bytes_of_string key)) p /\
    consistent.Get h key = Ret (default EmptyString (consistent.ring h !! p)).
Proof.
  intros Hasc Hne. unfold consistent.Get.
  rewrite (len_eqb_nonempty _ Hne).
  set (hash := crc32.ChecksumIEEE (bytes_of_string key)).
  destruct (sort_Search_spec (consistent.sortedKeys h) hash) as (idx & -> & Hidx & Hsplit).
  destruct (Hsplit Hasc) as [Hlt Hge]. clear Hsplit.
  pose proof (len_nonempty _ Hne) as Hlen.
  change (Ret idx ≫= ?f) with (f idx). cbv beta.
  destruct (Z.eqb_spec idx (len (consistent.sortedKeys h))) as [Hend | Hin].
  - destruct (index_in_range (consistent.sortedKeys h) 0) as (p & -> & Hp); [lia|].
    exists p. split; [|reflexivity]. right. split.
    + intros q Hq. apply list_elem_of_lookup in Hq as [i Hi].
      apply (Hlt i q); [|exact Hi]. apply lookup_lt_Some in Hi. unfold len in Hend. lia.
    + rewrite head_lookup. exact Hp.
  - destruct (index_in_range (consistent.sortedKeys h) idx) as (p & -> & Hp); [lia|].
    exists p. split; [|reflexivity]. left. repeat split.
    + eapply list_elem_of_lookup_2. exact Hp.
    + apply (Hge (Z.to_nat idx) p); [lia | exact Hp].
    + intros q Hq Hqh. apply list_elem_of_lookup in Hq as [i Hi].
      destruct (Z.lt_ge_cases (Z.of_nat i) idx) as [Hl | Hg].
      * pose proof (Hlt i q Hl Hi). lia.
      * apply (Hasc (Z.to_nat idx) i); auto. lia.
Qed.

(** ** The lookup table after construction *)

Lemma insert_all_notin {V} (tr : list (Z * V)) (m : gmap Z V) (p : Z) :
  p ∉ tr.*1 -> insert_all tr m !! p = m !! p.
Proof.
  revert m. induction tr as [|[q v] tr IH]; intros m Hp; [reflexivity|].
  cbn in Hp. apply not_elem_of_cons in Hp as [Hne Hp].
  change (insert_all ((q, v) :: tr) m) with (insert_all tr (<[q := v]> m)).
  rewrite IH by assumption. apply lookup_insert_ne. congruence.
Qed.

(** The assignment executed last for a point decides its owner. *)
Lemma insert_all_last {V} (tr1 tr2 : list (Z * V)) (m : gmap Z V) (p : Z) (v : V) :
  p ∉ tr2.*1 -> insert_all (tr1 ++ (p, v) :: tr2) m !! p = Some v.
Proof.
  intros Hp. rewrite insert_all_app.
  change (insert_all ((p, v) :: tr2) ?m') with (insert_all tr2 (<[p := v]> m')).
  rewrite insert_all_notin by assumption. apply lookup_insert_eq.
Qed.

Lemma insert_all_elem {V} (tr : list (Z * V)) (m : gmap Z V) (p : Z) :
  p ∈ tr.*1 -> exists v, insert_all tr m !! p = Some v /\ (p, v) ∈ tr.
Proof.
  revert m. induction tr as [|[q v] tr IH]; intros m Hp; cbn in Hp.
  - apply elem_of_nil in Hp as [].
  - change (insert_all ((q, v) :: tr) m) with (insert_all tr (<[q := v]> m)).
    destruct (decide (p ∈ tr.*1)) as [Hin | Hnin].
    + destruct (IH (<[q := v]> m) Hin) as (w & Hw & Hmem).
      exists w. split; [exact Hw | right; exact Hmem].
    + apply elem_of_cons in Hp as [-> | Hp]; [|contradiction].
      exists v. split; [|left].
      rewrite insert_all_notin by assumption. apply lookup_insert_eq.
Qed.

Lemma insert_all_fmap {V W} (f : V -> W) (tr : list (Z * V)) (m : gmap Z V) :
  insert_all (prod_map id f <$> tr) (f <$> m) = f <$> insert_all tr m.
Proof.
  revert m. induction tr as [|[q v] tr IH]; intros m; [reflexivity|].
  change (insert_all (prod_map id f <$> (q, v) :: tr) (f <$> m))
    with (insert_all (prod_map id f <$> tr) (<[q := f v]> (f <$> m))).
  rewrite <- fmap_insert. apply IH.
Qed.

Lemma replica_points_length (name : string) (R : Z) :
  length (replica_points name R) = Z.to_nat R.
Proof. unfold replica_points. rewrite length_fmap. apply length_seqZ. Qed.

Lemma custom_trace_length (k : nat) (configs : list custom.shardConfig) (R : Z) :
  length (custom_build.trace k configs R) = (length configs * Z.to_nat R)%nat.
Proof.
  revert k. induction configs as [|cfg configs IH]; intros k; [reflexivity|].
  cbn [custom_build.trace]. rewrite length_app, length_fmap, replica_points_length, IH.
  simpl. lia.
Qed.

Lemma consistent_trace_length (shards : list string) (R : Z) :
  length (consistent_build.trace shards R) = (length shards * Z.to_nat R)%nat.
Proof.
  induction shards as [|s shards IH]; [reflexivity|].
  cbn [consistent_build.trace]. rewrite length_app, length_fmap, replica_points_length, IH.
  simpl. lia.
Qed.

(** Every assignment of the construction stores a pointer to a node that
    was allocated, for a virtual key of that node. *)
Lemma custom_trace_elem (k : nat) (configs : list custom.shardConfig) (R p : Z) (n : nat) :
  (p, n) ∈ custom_build.trace k configs R ->
  exists cfg i, (k <= n)%nat /\ configs !! (n - k)%nat = Some cfg /\
                0 <= i < R /\ p = virtual_point (custom.Name cfg) i.
Proof.
  revert k. induction configs as [|cfg configs IH]; intros k Hin; cbn in Hin.
  - apply elem_of_nil in Hin as [].
  - apply elem_of_app in Hin as [Hin | Hin].
    + apply list_elem_of_fmap in Hin as (q & [= -> ->] & Hq).
      unfold replica_points in Hq.
      apply list_elem_of_fmap in Hq as (i & -> & Hi).
      apply elem_of_seqZ in Hi.
      exists cfg, i. rewrite Nat.sub_diag. repeat split; auto; lia.
    + destruct (IH (S k) Hin) as (cfg' & i & Hk & Hcfg & Hi & Hp).
      exists cfg', i. repeat split; auto; try lia.
      replace (n - k)%nat with (S (n - S k)) by lia. exact Hcfg.
Qed.

(** The two constructions perform the same assignments, one storing the
    node pointer and the other the node name. *)
Lemma traces_agree (pre configs : list custom.shardConfig) (R : Z) :
  consistent_build.trace (custom.Name <$> configs) R =
  prod_map id (fun n : nat => default EmptyString (custom.Name <$> (pre ++ configs) !! n))
    <$> custom_build.trace (length pre) configs R.
Proof.
  revert pre. induction configs as [|cfg configs IH]; intros pre; [reflexivity|].
  cbn [fmap list_fmap consistent_build.trace custom_build.trace].
  rewrite fmap_app, <- list_fmap_compose. f_equal.
  - apply list_fmap_ext. intros _ q _. cbn.
    rewrite list_lookup_middle by reflexivity. reflexivity.
  - specialize (IH (pre ++ [cfg])).
    rewrite length_app, Nat.add_1_r, <- app_assoc in IH. exact IH.
Qed.

Lemma built_rings_agree (configs : list custom.shardConfig) (R p : Z) :
  default EmptyString (consistent.ring (consistent_build.built (custom.Name <$> configs) R) !! p) =
  custom.shardName (custom_build.built configs R)
    (custom.ring (custom_build.built configs R) !! p).
Proof.
  unfold consistent_build.built, custom_build.built, custom.shardName.
  cbn [consistent.ring custom.ring custom.nodes].
  rewrite (traces_agree [] configs R).
  rewrite <- (fmap_empty (M := gmap Z)
                (fun n : nat => default EmptyString (custom.Name <$> ([] ++ configs) !! n))).
  rewrite insert_all_fmap, lookup_fmap. cbn [app length].
  destruct (insert_all (custom_build.trace 0%nat configs R) ∅ !! p) as [n|]; cbn; [|reflexivity].
  rewrite list_lookup_fmap. destruct (configs !! n); reflexivity.
Qed.

Lemma built_keys_agree (configs : list custom.shardConfig) (R : Z) :
  consistent.sortedKeys (consistent_build.built (custom.Name <$> configs) R) =
  custom.sortedKeys (custom_build.built configs R).
Proof.
  unfold consistent_build.built, custom_build.built.
  cbn [consistent.sortedKeys custom.sortedKeys].
  rewrite (traces_agree [] configs R). f_equal.
  rewrite <- list_fmap_compose. apply list_fmap_ext. intros _ [q n] _. reflexivity.
Qed.

(** Every point of the sorted list is a key of the table, and the table
    holds a pointer to an allocated node for it. *)
Lemma built_ring_owner (configs : list custom.shardConfig) (R p : Z) :
  p ∈ custom.sortedKeys (custom_build.built configs R) ->
  exists n nd,
    custom.ring (custom_build.built configs R) !! p = Some n /\
    custom.nodes (custom_build.built configs R) !! n = Some nd /\
    (p, n) ∈ custom_build.trace 0%nat configs R.
Proof.
  unfold custom_build.built. cbn [custom.sortedKeys custom.ring custom.nodes].
  rewrite sort_Slice_perm. intros Hp.
  destruct (insert_all_elem _ ∅ p Hp) as (n & Hn & Hmem).
  destruct (custom_trace_elem 0%nat configs R p n Hmem) as (cfg & i & _ & Hcfg & _).
  rewrite Nat.sub_0_r in Hcfg.
  exists n, (custom_build.node_of cfg). repeat split; auto.
  rewrite list_lookup_fmap, Hcfg. reflexivity.
Qed.

Lemma built_ascending (configs : list custom.shardConfig) (R : Z) :
  ascending (custom.sortedKeys (custom_build.built configs R)).
Proof. apply StronglySorted_ascending, sort_Slice_sorted. Qed.

(** The owner a point ends up with is the one of its last assignment. *)
Lemma insert_all_lookup_last {V} (tr : list (Z * V)) (m : gmap Z V) (p : Z) :
  p ∈ tr.*1 ->
  exists tr1 v tr2,
    tr = tr1 ++ (p, v) :: tr2 /\ (p ∉ tr2.*1) /\ insert_all tr m !! p = Some v.
Proof.
  revert m. induction tr as [|[q w] tr IH]; intros m Hp; cbn in Hp.
  - apply elem_of_nil in Hp as [].
  - destruct (decide (p ∈ tr.*1)) as [Hin | Hnin].
    + destruct (IH (<[q := w]> m) Hin) as (tr1 & v & tr2 & -> & Hlast & Hv).
      exists ((q, w) :: tr1), v, tr2. repeat split; auto.
    + apply elem_of_cons in Hp as [-> | Hp]; [|contradiction].
      exists [], w, tr. repeat split; auto.
      apply (insert_all_last [] tr m q w Hnin).
Qed.

(** Node pointers appear in allocation order along the assignments. *)
Lemma custom_trace_owners_sorted (k : nat) (configs : list custom.shardConfig) (R : Z) :
  StronglySorted le (custom_build.trace k configs R).*2 /\
  Forall (le k) (custom_build.trace k configs R).*2.
Proof.
  revert k. induction configs as [|cfg configs IH]; intros k; cbn [custom_build.trace].
  - split; constructor.
  - destruct (IH (S k)) as [Hs Hk]. rewrite fmap_app, <- list_fmap_compose.
    assert (Hrep : Forall (eq k) ((snd ∘ (fun h : Z => (h, k))) <$> replica_points (custom.Name cfg) R)).
    { apply Forall_fmap, Forall_true. reflexivity. }
    split.
    + apply StronglySorted_app_2; auto.
      * intros x1 x2 H1 H2. rewrite Forall_forall in Hrep, Hk.
        specialize (Hrep x1 H1). specialize (Hk x2 H2). lia.
      * induction Hrep as [|x l Hx Hl IHl]; constructor; auto.
        eapply Forall_impl; [exact Hl|]. intros y <-. lia.
    + apply Forall_app. split.
      * eapply Forall_impl; [exact Hrep|]. intros y <-. lia.
      * eapply Forall_impl; [exact Hk|]. intros y Hy. lia.
Qed.

Lemma custom_trace_intro (k j : nat) (configs : list custom.shardConfig)
      (R i : Z) (cfg : custom.shardConfig) :
  configs !! j = Some cfg -> 0 <= i < R ->
  (virtual_point (custom.Name cfg) i, (k + j)%nat) ∈ custom_build.trace k configs R.
Proof.
  revert k j. induction configs as [|c configs IH]; intros k j Hj Hi.
  - rewrite lookup_nil in Hj. discriminate.
  - cbn [custom_build.trace]. apply elem_of_app. destruct j as [|j]; cbn in Hj.
    + injection Hj as ->. left. rewrite Nat.add_0_r.
      apply list_elem_of_fmap. exists (virtual_point (custom.Name cfg) i). split; [reflexivity|].
      unfold replica_points. apply list_elem_of_fmap. exists i. split; [reflexivity|].
      apply elem_of_seqZ. lia.
    + right. replace (k + S j)%nat with (S k + j)%nat by lia. apply IH; assumption.
Qed.

Lemma custom_trace_points (k : nat) (configs : list custom.shardConfig) (R : Z) :
  (custom_build.trace k configs R).*1 = all_points (custom.Name <$> configs) R.
Proof.
  revert k. induction configs as [|cfg configs IH]; intros k; [reflexivity|].
  cbn [custom_build.trace]. rewrite fmap_app, <- list_fmap_compose, IH.
  unfold all_points. cbn. f_equal. apply list_fmap_id.
Qed.

Lemma consistent_trace_points (shards : list string) (R : Z) :
  (consistent_build.trace shards R).*1 = all_points shards R.
Proof.
  induction shards as [|s shards IH]; [reflexivity|].
  cbn [consistent_build.trace]. rewrite fmap_app, <- list_fmap_compose, IH.
  unfold all_points. cbn. f_equal. apply list_fmap_id.
Qed.

Lemma all_points_length (names : list string) (R : Z) :
  0 <= R -> len (all_points names R) = R * len names.
Proof.
  intros HR. unfold all_points, len.
  induction names as [|n names IH]; cbn; [lia|].
  rewrite length_app, replica_points_length. cbn in IH. lia.
Qed.

Lemma consistent_built_ring_owner (shards : list string) (R p : Z) :
  p ∈ consistent.sortedKeys (consistent_build.built shards R) ->
  exists s, consistent.ring (consistent_build.built shards R) !! p = Some s /\ s ∈ shards.
Proof.
  unfold consistent_build.built. cbn [consistent.sortedKeys consistent.ring].
  rewrite sort_Slice_perm. intros Hp.
  destruct (insert_all_elem _ ∅ p Hp) as (s & Hs & Hmem).
  exists s. split; [exact Hs|]. clear Hs Hp.
  induction shards as [|s0 shards IH]; cbn in Hmem.
  - apply elem_of_nil in Hmem as [].
  - apply elem_of_app in Hmem as [Hmem | Hmem].
    + apply list_elem_of_fmap in Hmem as (q & [= -> ->] & _). left.
    + right. auto.
Qed.

Lemma predecessor_point_elem (keys : list Z) (h p : Z) :
  predecessor_point keys h p -> p ∈ keys.
Proof. intros [(Hin & _) | (_ & Hl)]; [exact Hin | eapply last_Some_elem_of, Hl]. Qed.

Lemma successor_point_elem (keys : list Z) (h p : Z) :
  successor_point keys h p -> p ∈ keys.
Proof. intros [(Hin & _) | (_ & Hl)]; [exact Hin | eapply head_Some_elem_of, Hl]. Qed.

(** On an ascending slice the last element is the largest and the first
    the smallest. *)
Lemma ascending_last_max (keys : list Z) (l q : Z) :
  ascending keys -> last keys = Some l -> q ∈ keys -> q <= l.
Proof.
  intros Hasc Hl Hq. rewrite last_lookup in Hl.
  apply list_elem_of_lookup in Hq as [i Hi].
  apply (Hasc i (pred (length keys))); auto.
  apply lookup_lt_Some in Hi. lia.
Qed.

Lemma ascending_head_min (keys : list Z) (f q : Z) :
  ascending keys -> head keys = Some f -> q ∈ keys -> f <= q.
Proof.
  intros Hasc Hf Hq. rewrite head_lookup in Hf.
  apply list_elem_of_lookup in Hq as [i Hi].
  apply (Hasc 0%nat i); auto. lia.
Qed.

(** On a constructed ring [getNode] returns a pointer to an allocated
    node, the owner of the predecessor point of the key hash. *)
Lemma getNode_built (configs : list custom.shardConfig) (R : Z) (key : string) :
  let r := custom_build.built configs R in
  custom.sortedKeys r <> [] ->
  exists p n nd,
    predecessor_point (custom.sortedKeys r) (crc32.ChecksumIEEE (bytes_of_string key)) p /\
    custom.ring r !! p = Some n /\ custom.nodes r !! n = Some nd /\
    custom.getNode r key = Ret (Some n).
Proof.
  intros r Hne.
  destruct (getNode_selects r key (built_ascending configs R) Hne) as (p & Hp & Hget).
  destruct (built_ring_owner configs R p (predecessor_point_elem _ _ _ Hp))
    as (n & nd & Hn & Hnd & _).
  exists p, n, nd. fold r in Hn, Hnd. rewrite Hget, Hn. auto.
Qed.

(** On a constructed ring [Get] returns the name stored for the
    successor point of the key hash. *)
Lemma Get_built (shards : list string) (R : Z) (key : string) :
  let h := consistent_build.built shards R in
  consistent.sortedKeys h <> [] ->
  exists p s,
    successor_point (consistent.sortedKeys h) (crc32.ChecksumIEEE (bytes_of_string key)) p /\
    consistent.ring h !! p = Some s /\ s ∈ shards /\
    consistent.Get h key = Ret s.
Proof.
  intros h Hne.
  assert (Hasc : ascending (consistent.sortedKeys h))
    by apply StronglySorted_ascending, sort_Slice_sorted.
  destruct (Get_selects h key Hasc Hne) as (p & Hp & Hget).
  destruct (consistent_built_ring_owner shards R p (successor_point_elem _ _ _ Hp))
    as (s & Hs & Hin).
  exists p, s. fold h in Hs. rewrite Hget, Hs. auto.
Qed.

(** ** Outcome of the constructors *)

Lemma to_int_small (x : Z) : - 2 ^ 63 <= x < 2 ^ 63 -> to_int x = x.
Proof. intros H. unfold to_int. rewrite Z.mod_small; lia. Qed.

(** Construction succeeds whenever the capacity is one the runtime accepts. *)
Lemma newRubyHashRing_ok (configs : list custom.shardConfig) (R : Z) :
  0 <= R -> R * len configs <= 2 ^ 46 ->
  custom.newRubyHashRing configs R = Ret (custom_build.built configs R).
Proof.
  intros HR Hcap. unfold len in Hcap.
  destruct (custom_facts.newRubyHashRing_spec configs R) as [[_ H] | [Hn _]]; [exact H|].
  exfalso. apply Hn. unfold custom_build.cap_ok, maxAlloc.
  rewrite to_int_small; lia.
Qed.

Lemma newRubyStyleHash_ok (shards : list string) (R : Z) :
  0 <= R -> R * len shards <= 2 ^ 46 ->
  consistent.newRubyStyleHash shards R = Ret (consistent_build.built shards R).
Proof.
  intros HR Hcap. unfold len in Hcap.
  destruct (consistent_facts.newRubyStyleHash_spec shards R) as [[_ H] | [Hn _]]; [exact H|].
  exfalso. apply Hn. unfold custom_build.cap_ok, maxAlloc.
  rewrite to_int_small; lia.
Qed.

(** An empty node list is accepted for every replica count and gives a
    ring without points. *)
Lemma newRubyHashRing_nil (R : Z) :
  custom.newRubyHashRing [] R = Ret (custom_build.built [] R) /\
  custom.sortedKeys (custom_build.built [] R) = [].
Proof.
  split; [|reflexivity].
  destruct (custom_facts.newRubyHashRing_spec [] R) as [[_ H] | [Hn _]]; [exact H|].
  exfalso. apply Hn. unfold custom_build.cap_ok. cbn [length Z.of_nat].
  rewrite Z.mul_0_r. vm_compute. split; discriminate.
Qed.

Lemma newRubyStyleHash_nil (R : Z) :
  consistent.newRubyStyleHash [] R = Ret (consistent_build.built [] R) /\
  consistent.sortedKeys (consistent_build.built [] R) = [].
Proof.
  split; [|reflexivity].
  destruct (consistent_facts.newRubyStyleHash_spec [] R) as [[_ H] | [Hn _]]; [exact H|].
  exfalso. apply Hn. unfold custom_build.cap_ok. cbn [length Z.of_nat].
  rewrite Z.mul_0_r. vm_compute. split; discriminate.
Qed.

Lemma ring1_built : custom.newRubyHashRing demo_configs 1 = Ret ring1.
Proof. apply newRubyHashRing_ok; vm_compute; discriminate. Qed.

Lemma hash1_built : consistent.newRubyStyleHash demo_shards 1 = Ret hash1.
Proof. apply newRubyStyleHash_ok; vm_compute; discriminate. Qed.

Lemma ring160_built : custom.newRubyHashRing demo_configs 160 = Ret ring160.
Proof. apply newRubyHashRing_ok; vm_compute; discriminate. Qed.

Lemma hash160_built : consistent.newRubyStyleHash demo_shards 160 = Ret hash160.
Proof. apply newRubyStyleHash_ok; vm_compute; discriminate. Qed.

Lemma ring1_points :
  custom.sortedKeys ring1 = [129872537; 540484991; 1056567121] /\
  custom.ring ring1 !! 129872537 = Some 0%nat /\
  custom.ring ring1 !! 540484991 = Some 2%nat /\
  custom.ring ring1 !! 1056567121 = Some 1%nat.
Proof. vm_compute. auto. Qed.

Lemma hash1_points :
  consistent.sortedKeys hash1 = [129872537; 540484991; 1056567121] /\
  consistent.ring hash1 !! 129872537 = Some "cache-a" /\
  consistent.ring hash1 !! 540484991 = Some "cache-c" /\
  consistent.ring hash1 !! 1056567121 = Some "cache-b".
Proof. vm_compute. auto. Qed.

(** * Main results *)

(** ** Lookup on an empty ring *)

(** C3: on a ring that holds no points, in particular one built from an
    empty node list, the lookup returns the nil node ([getNode]) or the
    empty name ([Get]) for every key; it neither panics nor runs out of
    budget. *)
Theorem lookup_empty_ring (r : custom.rubyHashRing) (h : consistent.rubyStyleHash)
        (key : string) :
  (custom.sortedKeys r = [] \/ exists R, custom.newRubyHashRing [] R = Ret r) ->
  (consistent.sortedKeys h = [] \/ exists R, consistent.newRubyStyleHash [] R = Ret h) ->
  custom.getNode r key = Ret None /\ consistent.Get h key = Ret EmptyString.
Proof.
  intros Hr Hh.
  assert (Er : custom.sortedKeys r = []).
  { destruct Hr as [E | [R HR]]; [exact E|].
    destruct (newRubyHashRing_nil R) as [Hb He]. rewrite Hb in HR.
    injection HR as <-. exact He. }
  assert (Eh : consistent.sortedKeys h = []).
  { destruct Hh as [E | [R HR]]; [exact E|].
    destruct (newRubyStyleHash_nil R) as [Hb He]. rewrite Hb in HR.
    injection HR as <-. exact He. }
  unfold custom.getNode, consistent.Get. rewrite Er, Eh. split; reflexivity.
Qed.

Lemma lookup_empty_ring_witness :
  exists r h,
    custom.newRubyHashRing [] 160 = Ret r /\
    consistent.newRubyStyleHash [] 160 = Ret h /\
    custom.getNode r "user:42:abcdef1234567890" = Ret None /\
    consistent.Get h "user:42:abcdef1234567890" = Ret EmptyString.
Proof.
  exists (custom_build.built [] 160), (consistent_build.built [] 160).
  split; [reflexivity|]. split; [reflexivity|].
  apply (lookup_empty_ring (custom_build.built [] 160) (consistent_build.built [] 160)).
  - right. exists 160. reflexivity.
  - right. exists 160. reflexivity.
Defined.

(** ** Index safety of [getNode] *)

(** C10: on a constructed ring with at least one point, [binarySearch]
    returns an index in [-1, len - 1] for every value, the wrap
    adjustment gives an index in [0, len - 1], every element of
    [sortedKeys] is a key of the table and holds a pointer to an
    allocated node, and [getNode] returns such a pointer: it never
    panics on an index and never returns nil. *)
Theorem getNode_in_bounds (configs : list custom.shardConfig) (R : Z)
        (r : custom.rubyHashRing) :
  custom.newRubyHashRing configs R = Ret r ->
  custom.sortedKeys r <> [] ->
  (forall value, exists idx,
      custom.binarySearch r value = Ret idx /\
      -1 <= idx <= len (custom.sortedKeys r) - 1 /\
      0 <= (if idx <? 0 then len (custom.sortedKeys r) - 1 else idx)
        <= len (custom.sortedKeys r) - 1) /\
  (forall p, p ∈ custom.sortedKeys r ->
             exists n nd, custom.ring r !! p = Some n /\ custom.nodes r !! n = Some nd) /\
  (forall key, exists n nd,
      custom.getNode r key = Ret (Some n) /\ custom.nodes r !! n = Some nd).
Proof.
  intros Hb Hne. apply custom_facts.newRubyHashRing_Ret in Hb. subst r.
  pose proof (len_nonempty _ Hne) as Hlen.
  split; [|split].
  - intros value.
    destruct (binarySearch_spec (custom_build.built configs R) value) as (idx & Hrun & Hidx & _).
    exists idx. split; [exact Hrun|]. split; [exact Hidx|].
    destruct (Z.ltb_spec idx 0); lia.
  - intros p Hp.
    destruct (built_ring_owner configs R p Hp) as (n & nd & Hn & Hnd & _).
    exists n, nd. auto.
  - intros key.
    destruct (getNode_built configs R key Hne) as (p & n & nd & _ & _ & Hnd & Hget).
    exists n, nd. auto.
Qed.

Lemma getNode_in_bounds_witness :
  custom.binarySearch ring1 907060870 = Ret 1 /\
  custom.binarySearch ring1 112844655 = Ret (-1) /\
  custom.getNode ring1 "c" = Ret (Some 1%nat) /\
  exists idx n nd,
    custom.binarySearch ring1 3680783928 = Ret idx /\ -1 <= idx <= 2 /\
    custom.getNode ring1 "hello" = Ret (Some n) /\ custom.nodes ring1 !! n = Some nd.
Proof.
  split; [vm_compute; reflexivity|]. split; [vm_compute; reflexivity|].
  split; [vm_compute; reflexivity|].
  assert (Hne : custom.sortedKeys ring1 <> []) by (vm_compute; discriminate).
  destruct (getNode_in_bounds demo_configs 1 ring1 ring1_built Hne) as (Hs & _ & Hg).
  destruct (Hs 3680783928) as (idx & Hrun & Hidx & _).
  destruct (Hg "hello") as (n & nd & Hget & Hnd).
  exists idx, n, nd. repeat split; auto; change (len (custom.sortedKeys ring1) - 1) with 2 in Hidx; lia.
Defined.

(** ** Which point is selected *)

(** With one replica per node the points are 129872537 (cache-a),
    540484991 (cache-c) and 1056567121 (cache-b).  The key "hello"
    hashes to 907060870: the first point at or after it belongs to
    cache-b (node 1), but [getNode] answers cache-c (node 2), the owner
    of the last point at or before it. *)
Lemma getNode_not_lower_bound :
  custom.newRubyHashRing demo_configs 1 = Ret ring1 /\
  custom.sortedKeys ring1 <> [] /\
  custom.getNode ring1 "hello" = Ret (Some 2%nat) /\
  ~ getNode_lower_bound ring1 "hello".
Proof.
  split; [exact ring1_built|].
  destruct ring1_points as (Hk & _ & _ & Hb).
  split; [rewrite Hk; discriminate|].
  assert (Hg : custom.getNode ring1 "hello" = Ret (Some 2%nat)) by (vm_compute; reflexivity).
  split; [exact Hg|].
  intros (p & Hs & He). rewrite Hg in He.
  replace (crc32.ChecksumIEEE (bytes_of_string "hello")) with 907060870 in Hs
    by (vm_compute; reflexivity).
  rewrite Hk in Hs.
  assert (Hp : p = 1056567121).
  { destruct Hs as [(Hin & Hle & _) | (Hall & _)].
    - repeat (apply elem_of_cons in Hin as [-> | Hin]); try lia.
      apply elem_of_nil in Hin as [].
    - specialize (Hall 1056567121). assert (1056567121 < 907060870); [|lia].
      apply Hall. do 2 right. left. }
  subst p. rewrite Hb in He. discriminate.
Qed.

(** C1 (amended): on a constructed ring with at least one point,
    [getNode] selects the largest stored point that is <= the CRC-32 of
    the key, falling back to the last point of the list when every point
    is larger, and returns the node owning it; [Get] selects the smallest
    stored point that is >= the hash, falling back to index 0, and
    returns the name owning it. *)
Theorem lookup_selects_point (configs : list custom.shardConfig) (R : Z)
        (r : custom.rubyHashRing) (h : consistent.rubyStyleHash) (key : string) :
  custom.newRubyHashRing configs R = Ret r ->
  consistent.newRubyStyleHash (custom.Name <$> configs) R = Ret h ->
  custom.sortedKeys r <> [] ->
  (exists p n,
      predecessor_point (custom.sortedKeys r) (crc32.ChecksumIEEE (bytes_of_string key)) p /\
      custom.ring r !! p = Some n /\
      custom.getNode r key = Ret (Some n)) /\
  (exists p s,
      successor_point (consistent.sortedKeys h) (crc32.ChecksumIEEE (bytes_of_string key)) p /\
      consistent.ring h !! p = Some s /\
      consistent.Get h key = Ret s).
Proof.
  intros Hr Hh Hne.
  apply custom_facts.newRubyHashRing_Ret in Hr.
  apply consistent_facts.newRubyStyleHash_Ret in Hh. subst r h. split.
  - destruct (getNode_built configs R key Hne) as (p & n & nd & Hp & Hn & _ & Hget).
    exists p, n. auto.
  - rewrite <- built_keys_agree in Hne.
    destruct (Get_built (custom.Name <$> configs) R key Hne) as (p & s & Hp & Hs & _ & Hget).
    exists p, s. auto.
Qed.

Lemma lookup_selects_point_witness :
  (exists p n,
      predecessor_point (custom.sortedKeys ring1) (crc32.ChecksumIEEE (bytes_of_string "hello")) p /\
      custom.ring ring1 !! p = Some n /\
      custom.getNode ring1 "hello" = Ret (Some n)) /\
  (exists p s,
      successor_point (consistent.sortedKeys hash1) (crc32.ChecksumIEEE (bytes_of_string "hello")) p /\
      consistent.ring hash1 !! p = Some s /\
      consistent.Get hash1 "hello" = Ret s).
Proof.
  apply (lookup_selects_point demo_configs 1 ring1 hash1 "hello").
  - vm_compute. reflexivity.
  - vm_compute. reflexivity.
  - vm_compute. discriminate.
Defined.

(** ** Hashes past the last point *)

(** The key "user:42:abcdef1234567890" hashes to 3680783928, above the
    three points of the one-replica ring.  The first point, 129872537,
    belongs to cache-a (node 0); [getNode] answers cache-b (node 1), the
    owner of the last point 1056567121. *)
Lemma getNode_no_wrap_to_first :
  custom.newRubyHashRing demo_configs 1 = Ret ring1 /\
  custom.getNode ring1 "user:42:abcdef1234567890" = Ret (Some 1%nat) /\
  ~ getNode_wraps_to_first ring1 "user:42:abcdef1234567890".
Proof.
  split; [exact ring1_built|].
  destruct ring1_points as (Hk & Ha & _ & _).
  assert (Hg : custom.getNode ring1 "user:42:abcdef1234567890" = Ret (Some 1%nat))
    by (vm_compute; reflexivity).
  split; [exact Hg|].
  intros Hclaim. destruct Hclaim as (p & Hhead & He).
  - replace (crc32.ChecksumIEEE (bytes_of_string "user:42:abcdef1234567890"))
      with 3680783928 by (vm_compute; reflexivity).
    rewrite Hk. intros q Hq.
    repeat (apply elem_of_cons in Hq as [-> | Hq]); try lia.
    apply elem_of_nil in Hq as [].
  - rewrite Hk in Hhead. injection Hhead as <-.
    rewrite Hg, Ha in He. discriminate.
Qed.

(** C2 (amended): for a key whose CRC-32 is strictly greater than every
    point of a constructed non-empty ring, [Get] wraps around and returns
    the name owning the first point of the sorted list, whereas [getNode]
    returns the node owning the last (largest) point; [getNode] never
    returns nil there. *)
Theorem lookup_past_last_point (configs : list custom.shardConfig) (R : Z)
        (r : custom.rubyHashRing) (h : consistent.rubyStyleHash) (key : string) :
  custom.newRubyHashRing configs R = Ret r ->
  consistent.newRubyStyleHash (custom.Name <$> configs) R = Ret h ->
  custom.sortedKeys r <> [] ->
  (forall q, q ∈ custom.sortedKeys r -> q < crc32.ChecksumIEEE (bytes_of_string key)) ->
  (exists p n,
      last (custom.sortedKeys r) = Some p /\
      custom.ring r !! p = Some n /\
      custom.getNode r key = Ret (Some n)) /\
  (exists p s,
      head (consistent.sortedKeys h) = Some p /\
      consistent.ring h !! p = Some s /\
      consistent.Get h key = Ret s).
Proof.
  intros Hr Hh Hne Habove.
  apply custom_facts.newRubyHashRing_Ret in Hr.
  apply consistent_facts.newRubyStyleHash_Ret in Hh. subst r h. split.
  - destruct (getNode_built configs R key Hne) as (p & n & nd & Hp & Hn & _ & Hget).
    exists p, n. repeat split; auto.
    destruct Hp as [(Hin & Hle & Hmax) | (Hall & Hlast)]; [|exact Hlast].
    destruct (last (custom.sortedKeys (custom_build.built configs R))) as [l|] eqn:Hl.
    + f_equal. assert (Hlin : l ∈ custom.sortedKeys (custom_build.built configs R))
        by (eapply last_Some_elem_of, Hl).
      pose proof (Habove l Hlin).
      pose proof (Hmax l Hlin ltac:(lia)).
      pose proof (ascending_last_max _ l p (built_ascending configs R) Hl Hin). lia.
    + apply last_None in Hl. contradiction.
  - rewrite <- built_keys_agree in Hne, Habove.
    destruct (Get_built (custom.Name <$> configs) R key Hne) as (p & s & Hp & Hs & _ & Hget).
    exists p, s. repeat split; auto.
    destruct Hp as [(Hin & Hle & _) | (_ & Hhead)]; [|exact Hhead].
    pose proof (Habove p Hin). lia.
Qed.

Lemma lookup_past_last_point_witness :
  (exists p n,
      last (custom.sortedKeys ring1) = Some p /\
      custom.ring ring1 !! p = Some n /\
      custom.getNode ring1 "user:42:abcdef1234567890" = Ret (Some n)) /\
  (exists p s,
      head (consistent.sortedKeys hash1) = Some p /\
      consistent.ring hash1 !! p = Some s /\
      consistent.Get hash1 "user:42:abcdef1234567890" = Ret s).
Proof.
  apply (lookup_past_last_point demo_configs 1 ring1 hash1 "user:42:abcdef1234567890").
  - vm_compute. reflexivity.
  - vm_compute. reflexivity.
  - vm_compute. discriminate.
  - intros q Hq.
    replace (crc32.ChecksumIEEE (bytes_of_string "user:42:abcdef1234567890"))
      with 3680783928 by (vm_compute; reflexivity).
    replace (custom.sortedKeys ring1) with [129872537; 540484991; 1056567121] in Hq
      by (vm_compute; reflexivity).
    repeat (apply elem_of_cons in Hq as [-> | Hq]); try lia.
    apply elem_of_nil in Hq as [].
Defined.

(** ** The two implementations side by side *)

(** C9: the two lookups, built from the same node names and replica
    count and given the same raw key, are to resolve it to the same
    node; [Get] does not.  With the node list and the replica count of
    the programs (cache-a, cache-b, cache-c; 160 replicas) the key "a",
    which has no brace, hashes to 3904355907, which falls strictly
    between a point of cache-a and the next point, owned by cache-b:
    [getNode] answers cache-a, [Get] answers cache-b. *)
Lemma implementations_disagree :
  custom.newRubyHashRing demo_configs 160 = Ret ring160 /\
  consistent.newRubyStyleHash (custom.Name <$> demo_configs) 160 = Ret hash160 /\
  custom.assign ring160 "a" = Ret "cache-a" /\
  consistent.Get hash160 "a" = Ret "cache-b" /\
  ~ implementations_agree demo_configs 160 "a".
Proof.
  assert (Hc : custom.assign ring160 "a" = Ret "cache-a") by (vm_compute; reflexivity).
  assert (Hg : consistent.Get hash160 "a" = Ret "cache-b") by (vm_compute; reflexivity).
  split; [exact ring160_built|]. split; [exact hash160_built|].
  split; [exact Hc|]. split; [exact Hg|].
  intros Hagree. specialize (Hagree ring160 hash160 ring160_built hash160_built).
  rewrite Hc, Hg in Hagree. discriminate.
Qed.

(** How far the two lookups are apart: built from the same node names
    and replica count and given the raw key, [getNode] resolves a key to
    the owner of the predecessor point of its CRC-32 (largest point <=
    hash, else the last point) and [Get] to the owner of the successor
    point (smallest point >= hash, else the first point).  The two
    answers are the same node exactly when these two points have the
    same owner; in particular they are the same whenever the hash equals
    a stored point, which both searches then select. *)
Theorem implementations_related (configs : list custom.shardConfig) (R : Z)
        (r : custom.rubyHashRing) (h : consistent.rubyStyleHash) (key : string) :
  custom.newRubyHashRing configs R = Ret r ->
  consistent.newRubyStyleHash (custom.Name <$> configs) R = Ret h ->
  custom.sortedKeys r <> [] ->
  exists p q sp sq,
    predecessor_point (custom.sortedKeys r) (crc32.ChecksumIEEE (bytes_of_string key)) p /\
    successor_point (custom.sortedKeys r) (crc32.ChecksumIEEE (bytes_of_string key)) q /\
    consistent.ring h !! p = Some sp /\
    consistent.ring h !! q = Some sq /\
    custom.assign r key = Ret sp /\
    consistent.Get h key = Ret sq /\
    (custom.assign r key = consistent.Get h key <-> sp = sq) /\
    (crc32.ChecksumIEEE (bytes_of_string key) ∈ custom.sortedKeys r ->
     p = crc32.ChecksumIEEE (bytes_of_string key) /\
     q = crc32.ChecksumIEEE (bytes_of_string key) /\
     custom.assign r key = consistent.Get h key).
Proof.
  intros Hr Hh Hne.
  apply custom_facts.newRubyHashRing_Ret in Hr.
  apply consistent_facts.newRubyStyleHash_Ret in Hh. subst r h.
  set (hash := crc32.ChecksumIEEE (bytes_of_string key)) in *.
  destruct (getNode_built configs R key Hne) as (p & n & nd & Hp & Hn & Hnd & Hget).
  fold hash in Hp.
  pose proof Hne as Hne'. rewrite <- built_keys_agree in Hne'.
  destruct (Get_built (custom.Name <$> configs) R key Hne') as (q & sq & Hq & Hsq & _ & HGet).
  fold hash in Hq. rewrite built_keys_agree in Hq.
  destruct (consistent_built_ring_owner (custom.Name <$> configs) R p) as (sp & Hsp & _).
  { rewrite built_keys_agree. eapply predecessor_point_elem, Hp. }
  assert (Hassign : custom.assign (custom_build.built configs R) key = Ret sp).
  { unfold custom.assign. rewrite Hget.
    change (Ret (Some n) ≫= ?f) with (f (Some n)). cbv beta. f_equal.
    pose proof (built_rings_agree configs R p) as Hag.
    rewrite Hsp, Hn in Hag. symmetry. exact Hag. }
  exists p, q, sp, sq. repeat split; auto.
  - rewrite Hassign, HGet. congruence.
  - rewrite Hassign, HGet. congruence.
  - destruct Hp as [(_ & Hle & Hmax) | (Hall & _)].
    + pose proof (Hmax hash H ltac:(lia)). lia.
    + pose proof (Hall hash H). lia.
  - destruct Hq as [(_ & Hle & Hmin) | (Hall & _)].
    + pose proof (Hmin hash H ltac:(lia)). lia.
    + pose proof (Hall hash H). lia.
  - assert (Ep : p = hash).
    { destruct Hp as [(_ & Hle & Hmax) | (Hall & _)].
      - pose proof (Hmax hash H ltac:(lia)). lia.
      - pose proof (Hall hash H). lia. }
    assert (Eq : q = hash).
    { destruct Hq as [(_ & Hle & Hmin) | (Hall & _)].
      - pose proof (Hmin hash H ltac:(lia)). lia.
      - pose proof (Hall hash H). lia. }
    rewrite Hassign, HGet. f_equal. subst p q. congruence.
Qed.

(** The key "user:75:PJgm" hashes to 540484991, the point of the virtual
    key "cache-c:0": both programs answer cache-c.  The key "hello"
    hashes between the points of cache-c and cache-b: the answers are
    cache-c and cache-b. *)
Lemma implementations_related_witness :
  crc32.ChecksumIEEE (bytes_of_string "user:75:PJgm") = 540484991 /\
  custom.assign ring1 "user:75:PJgm" = Ret "cache-c" /\
  consistent.Get hash1 "user:75:PJgm" = Ret "cache-c" /\
  custom.assign ring1 "hello" = Ret "cache-c" /\
  consistent.Get hash1 "hello" = Ret "cache-b" /\
  exists p q sp sq,
    predecessor_point (custom.sortedKeys ring1) (crc32.ChecksumIEEE (bytes_of_string "user:75:PJgm")) p /\
    successor_point (custom.sortedKeys ring1) (crc32.ChecksumIEEE (bytes_of_string "user:75:PJgm")) q /\
    consistent.ring hash1 !! p = Some sp /\
    consistent.ring hash1 !! q = Some sq /\
    custom.assign ring1 "user:75:PJgm" = Ret sp /\
    consistent.Get hash1 "user:75:PJgm" = Ret sq /\
    (custom.assign ring1 "user:75:PJgm" = consistent.Get hash1 "user:75:PJgm" <-> sp = sq) /\
    (crc32.ChecksumIEEE (bytes_of_string "user:75:PJgm") ∈ custom.sortedKeys ring1 ->
     p = crc32.ChecksumIEEE (bytes_of_string "user:75:PJgm") /\
     q = crc32.ChecksumIEEE (bytes_of_string "user:75:PJgm") /\
     custom.assign ring1 "user:75:PJgm" = consistent.Get hash1 "user:75:PJgm").
Proof.
  split; [vm_compute; reflexivity|]. split; [vm_compute; reflexivity|].
  split; [vm_compute; reflexivity|]. split; [vm_compute; reflexivity|].
  split; [vm_compute; reflexivity|].
  apply (implementations_related demo_configs 1 ring1 hash1 "user:75:PJgm").
  - vm_compute. reflexivity.
  - vm_compute. reflexivity.
  - vm_compute. discriminate.
Defined.

(** ** The key hash *)

Lemma predecessor_point_unique (keys : list Z) (h p p' : Z) :
  predecessor_point keys h p -> predecessor_point keys h p' -> p = p'.
Proof.
  intros [(Hin & Hle & Hmax) | (Hall & Hlast)] [(Hin' & Hle' & Hmax') | (Hall' & Hlast')].
  - pose proof (Hmax p' Hin' Hle'). pose proof (Hmax' p Hin Hle). lia.
  - pose proof (Hall' p Hin). lia.
  - pose proof (Hall p' Hin'). lia.
  - congruence.
Qed.

Lemma predecessor_point_stored (keys : list Z) (h p : Z) :
  h ∈ keys -> predecessor_point keys h p -> p = h.
Proof.
  intros Hh [(Hin & Hle & Hmax) | (Hall & _)].
  - pose proof (Hmax h Hh ltac:(lia)). lia.
  - pose proof (Hall h Hh). lia.
Qed.

(** [getNode] on an ascending, non-empty point list, in terms of the
    bit-serial CRC-32 of the bytes of the key. *)
Lemma getNode_reference (r : custom.rubyHashRing) (key : string) :
  ascending (custom.sortedKeys r) -> custom.sortedKeys r <> [] ->
  exists p,
    predecessor_point (custom.sortedKeys r) (crc32_reference (bytes_of_string key)) p /\
    custom.getNode r key = Ret (custom.ring r !! p).
Proof.
  intros Hasc Hne. destruct (getNode_selects r key Hasc Hne) as (p & Hp & Hget).
  rewrite ChecksumIEEE_reference in Hp by apply bytes_of_string_range. eauto.
Qed.

(** A ring of two nodes with one point each, the points being two
    given hashes: each hash is resolved to the node placed on it. *)
Lemma two_point_ring (a b : Z) (key key' : string) :
  a < b ->
  crc32_reference (bytes_of_string key) = a ->
  crc32_reference (bytes_of_string key') = b ->
  let r := custom.RubyHashRing 1 [a; b] (<[a := 0%nat]> (<[b := 1%nat]> ∅))
             [custom.Node "node-0" (custom.NewClient EmptyString);
              custom.Node "node-1" (custom.NewClient EmptyString)] in
  ascending (custom.sortedKeys r) /\
  (forall p, p ∈ custom.sortedKeys r ->
     exists n nd, custom.ring r !! p = Some n /\ custom.nodes r !! n = Some nd) /\
  custom.getNode r key = Ret (Some 0%nat) /\ custom.getNode r key' = Ret (Some 1%nat).
Proof.
  intros Hab Ha Hb r.
  assert (Hasc : ascending (custom.sortedKeys r)).
  { apply StronglySorted_ascending. cbn [custom.sortedKeys r].
    repeat constructor; lia. }
  assert (Hne : custom.sortedKeys r <> []) by discriminate.
  split; [exact Hasc|]. split.
  { intros p Hp. cbn [custom.sortedKeys custom.ring custom.nodes r] in *.
    apply elem_of_cons in Hp as [-> | Hp].
    - exists 0%nat. eexists. rewrite lookup_insert_eq. split; reflexivity.
    - apply elem_of_cons in Hp as [-> | Hp]; [|apply elem_of_nil in Hp as []].
      exists 1%nat. eexists. rewrite lookup_insert_ne by lia. rewrite lookup_insert_eq.
      split; reflexivity. }
  destruct (getNode_reference r key Hasc Hne) as (p & Hp & Hget).
  destruct (getNode_reference r key' Hasc Hne) as (p' & Hp' & Hget').
  rewrite Ha in Hp. rewrite Hb in Hp'.
  apply predecessor_point_stored in Hp; [|left].
  apply predecessor_point_stored in Hp'; [|right; left].
  subst p p'. rewrite Hget, Hget'. cbn [custom.ring r]. split.
  - rewrite lookup_insert_eq. reflexivity.
  - rewrite lookup_insert_ne by lia. rewrite lookup_insert_eq. reflexivity.
Qed.

(** C5: the hash [getNode] uses is CRC-32 (IEEE polynomial) of all the
    bytes of the key, taken as they are.  On every ring with an
    ascending, non-empty point list [getNode] returns the owner of the
    one point that precedes the CRC-32 of the whole key, whatever
    brace-delimited substrings the key contains.  The routing decision
    depends on that checksum and on nothing else: two keys with the same
    CRC-32 are resolved alike on every ring, and two keys with different
    CRC-32 are resolved to different nodes on some well-formed ring. *)
Theorem getNode_hashes_raw_key (key key' : string) :
  (forall r,
      ascending (custom.sortedKeys r) -> custom.sortedKeys r <> [] ->
      exists p,
        predecessor_point (custom.sortedKeys r)
                          (crc32_reference (bytes_of_string key)) p /\
        (forall p', predecessor_point (custom.sortedKeys r)
                                      (crc32_reference (bytes_of_string key)) p' ->
                    p' = p) /\
        custom.getNode r key = Ret (custom.ring r !! p)) /\
  (crc32_reference (bytes_of_string key) = crc32_reference (bytes_of_string key') ->
   forall r, custom.getNode r key = custom.getNode r key') /\
  (crc32_reference (bytes_of_string key) <> crc32_reference (bytes_of_string key') ->
   exists r n n',
     ascending (custom.sortedKeys r) /\
     (forall p, p ∈ custom.sortedKeys r ->
        exists m nd, custom.ring r !! p = Some m /\ custom.nodes r !! m = Some nd) /\
     custom.getNode r key = Ret (Some n) /\
     custom.getNode r key' = Ret (Some n') /\ n <> n').
Proof.
  split; [|split].
  - intros r Hasc Hne. destruct (getNode_reference r key Hasc Hne) as (p & Hp & Hget).
    exists p. split; [exact Hp|]. split; [|exact Hget].
    intros p' Hp'. apply (predecessor_point_unique _ _ _ _ Hp' Hp).
  - intros H r. unfold custom.getNode.
    rewrite !ChecksumIEEE_reference by apply bytes_of_string_range.
    rewrite H. reflexivity.
  - intros Hdiff.
    set (h := crc32_reference (bytes_of_string key)) in *.
    set (h' := crc32_reference (bytes_of_string key')) in *.
    destruct (Z.lt_trichotomy h h') as [Hlt | [Heq | Hgt]]; [|contradiction|].
    + destruct (two_point_ring h h' key key' Hlt eq_refl eq_refl) as (Ha & Ho & H1 & H2).
      eexists _, 0%nat, 1%nat. split; [exact Ha|]. split; [exact Ho|].
      split; [exact H1|]. split; [exact H2 | discriminate].
    + destruct (two_point_ring h' h key' key Hgt eq_refl eq_refl) as (Ha & Ho & H1 & H2).
      eexists _, 1%nat, 0%nat. split; [exact Ha|]. split; [exact Ho|].
      split; [exact H2|]. split; [exact H1 | discriminate].
Qed.

(** A key with a hash tag and a key without one that share the checksum
    2089425334: they are resolved alike on every ring, and on the ring
    of the three nodes by the point that precedes 2089425334.  The tag
    alone has another checksum, and some ring tells it from the key. *)
Lemma getNode_hashes_raw_key_witness :
  crc32_reference (bytes_of_string "user:{tag0}:fa3c52555beb0a66") = 2089425334 /\
  (forall r, custom.getNode r "user:{tag0}:fa3c52555beb0a66" =
             custom.getNode r "user:43:4d53a73c4e8817ea") /\
  (exists p,
     predecessor_point (custom.sortedKeys ring1) 2089425334 p /\
     custom.getNode ring1 "user:{tag0}:fa3c52555beb0a66" = Ret (custom.ring ring1 !! p)) /\
  (exists r n n',
     custom.getNode r "user:{tag0}:fa3c52555beb0a66" = Ret (Some n) /\
     custom.getNode r "tag0" = Ret (Some n') /\ n <> n').
Proof.
  destruct (getNode_hashes_raw_key "user:{tag0}:fa3c52555beb0a66" "user:43:4d53a73c4e8817ea")
    as (Hsel & Hsame & _).
  destruct (getNode_hashes_raw_key "user:{tag0}:fa3c52555beb0a66" "tag0")
    as (_ & _ & Hdiff).
  assert (Hcrc : crc32_reference (bytes_of_string "user:{tag0}:fa3c52555beb0a66") = 2089425334)
    by (vm_compute; reflexivity).
  split; [exact Hcrc|]. split; [|split].
  - apply Hsame. vm_compute. reflexivity.
  - destruct (Hsel ring1 (built_ascending demo_configs 1) ltac:(vm_compute; discriminate))
      as (p & Hp & _ & Hget).
    rewrite Hcrc in Hp. exists p. split; [exact Hp | exact Hget].
  - destruct (Hdiff ltac:(vm_compute; discriminate)) as (r & n & n' & _ & _ & H1 & H2 & Hn).
    exists r, n, n'. auto.
Defined.

(** The hash tag is not extracted by [getNode]: the key
    "user:{tag25}:deadbeef" (checksum 636518692) goes to cache-c, while
    its tag "tag25" (checksum 3216075907) would go to cache-b.  The
    other program does extract it before calling [Get]. *)
Example getNode_keeps_hash_tag :
  consistent.normalizeForGoRedis "user:{tag25}:deadbeef" = Ret "tag25" /\
  custom.assign ring1 "user:{tag25}:deadbeef" = Ret "cache-c" /\
  custom.assign ring1 "tag25" = Ret "cache-b" /\
  consistent.assign hash1 "user:{tag25}:deadbeef" = consistent.Get hash1 "tag25".
Proof. vm_compute. auto. Qed.

(** ** The point list *)

(** C6: after construction from a non-empty node list with R >= 1 the
    point list has exactly R * len(nodes) entries, is in ascending
    order, and holds every computed point with its multiplicity: equal
    points are all kept.  Both programs build the same list. *)
Theorem point_list_invariant (configs : list custom.shardConfig) (R : Z)
        (r : custom.rubyHashRing) (h : consistent.rubyStyleHash) :
  configs <> [] -> 1 <= R ->
  custom.newRubyHashRing configs R = Ret r ->
  consistent.newRubyStyleHash (custom.Name <$> configs) R = Ret h ->
  len (custom.sortedKeys r) = R * len configs /\
  StronglySorted Z.le (custom.sortedKeys r) /\
  custom.sortedKeys r ≡ₚ all_points (custom.Name <$> configs) R /\
  consistent.sortedKeys h = custom.sortedKeys r.
Proof.
  intros _ HR Hr Hh.
  apply custom_facts.newRubyHashRing_Ret in Hr.
  apply consistent_facts.newRubyStyleHash_Ret in Hh. subst r h.
  rewrite built_keys_agree.
  assert (Hperm : custom.sortedKeys (custom_build.built configs R)
                    ≡ₚ all_points (custom.Name <$> configs) R).
  { unfold custom_build.built. cbn [custom.sortedKeys].
    rewrite sort_Slice_perm. rewrite custom_trace_points. reflexivity. }
  repeat split; auto.
  - unfold len at 1. rewrite Hperm. fold (len (all_points (custom.Name <$> configs) R)).
    rewrite all_points_length by lia. unfold len. rewrite length_fmap. reflexivity.
  - apply sort_Slice_sorted.
Qed.

(** Two nodes with the same name: every point occurs twice in the list. *)
Lemma point_list_invariant_witness :
  let configs := [custom.ShardConfig "cache-a" "127.0.0.1:6381";
                  custom.ShardConfig "cache-a" "127.0.0.1:6382"] in
  exists r h,
    custom.newRubyHashRing configs 2 = Ret r /\
    custom.sortedKeys r = [129872537; 129872537; 4256444242; 4256444242] /\
    len (custom.sortedKeys r) = 2 * len configs /\
    StronglySorted Z.le (custom.sortedKeys r) /\
    custom.sortedKeys r ≡ₚ all_points (custom.Name <$> configs) 2 /\
    consistent.sortedKeys h = custom.sortedKeys r.
Proof.
  intros configs.
  exists (custom_build.built configs 2), (consistent_build.built (custom.Name <$> configs) 2).
  split; [vm_compute; reflexivity|]. split; [vm_compute; reflexivity|].
  apply (point_list_invariant configs 2).
  - discriminate.
  - lia.
  - vm_compute. reflexivity.
  - vm_compute. reflexivity.
Defined.

(** ** Colliding points *)

(** C8: when several virtual keys hash to the same point, the table maps
    the point to the node that was inserted last in construction order,
    that is the last node of the list that has a replica at the point;
    the point stays in the sorted list and sorting leaves the table
    untouched. *)
Theorem later_insertion_wins (configs : list custom.shardConfig) (R : Z)
        (r : custom.rubyHashRing) (p : Z) (j : nat) (cfg : custom.shardConfig) (i : Z) :
  custom.newRubyHashRing configs R = Ret r ->
  configs !! j = Some cfg -> 0 <= i < R ->
  serverHashFor (Sprintf "%s:%d" [OpString (custom.Name cfg); OpInt i]) = Ret p ->
  (forall j' cfg' i',
      configs !! j' = Some cfg' -> 0 <= i' < R ->
      serverHashFor (Sprintf "%s:%d" [OpString (custom.Name cfg'); OpInt i']) = Ret p ->
      (j' <= j)%nat) ->
  custom.ring r !! p = Some j /\ p ∈ custom.sortedKeys r.
Proof.
  intros Hr Hj Hi Hp Hlast.
  apply custom_facts.newRubyHashRing_Ret in Hr. subst r.
  rewrite Sprintf_virtualKey, serverHashFor_total in Hp. injection Hp as Hp.
  fold (virtual_point (custom.Name cfg) i) in Hp.
  pose proof (custom_trace_intro 0 j configs R i cfg Hj Hi) as Hmem.
  rewrite Hp in Hmem. cbn [Nat.add] in Hmem.
  assert (Hin : p ∈ (custom_build.trace 0%nat configs R).*1).
  { apply list_elem_of_fmap. exists (p, j). auto. }
  unfold custom_build.built. cbn [custom.ring custom.sortedKeys].
  split; [|rewrite sort_Slice_perm; exact Hin].
  destruct (insert_all_lookup_last _ ∅ p Hin) as (tr1 & v & tr2 & Htr & Hnot & Hv).
  rewrite Hv. f_equal.
  assert (Hle : (v <= j)%nat).
  { assert (Hvm : (p, v) ∈ custom_build.trace 0%nat configs R)
      by (rewrite Htr; apply elem_of_app; right; left).
    destruct (custom_trace_elem 0 configs R p v Hvm) as (cfg' & i' & _ & Hcfg' & Hi' & Hp').
    rewrite Nat.sub_0_r in Hcfg'.
    apply (Hlast v cfg' i' Hcfg' Hi').
    rewrite Sprintf_virtualKey, serverHashFor_total. f_equal. symmetry. exact Hp'. }
  assert (Hge : (j <= v)%nat).
  { destruct (custom_trace_owners_sorted 0 configs R) as [Hsorted _].
    rewrite Htr in Hsorted, Hmem. rewrite fmap_app, fmap_cons in Hsorted.
    apply elem_of_app in Hmem as [Hmem | Hmem].
    - apply (StronglySorted_app_1_elem_of le _ _ j v Hsorted).
      + apply list_elem_of_fmap. exists (p, j). auto.
      + left.
    - apply elem_of_cons in Hmem as [[= ->] | Hmem]; [lia|].
      exfalso. apply Hnot. apply list_elem_of_fmap. exists (p, j). auto. }
  lia.
Qed.

(** Two nodes named "cache-a": both place their replica 0 at 129872537,
    and the table keeps the second node. *)
Lemma later_insertion_wins_witness :
  let configs := [custom.ShardConfig "cache-a" "127.0.0.1:6381";
                  custom.ShardConfig "cache-a" "127.0.0.1:6382"] in
  exists r,
    custom.newRubyHashRing configs 1 = Ret r /\
    custom.sortedKeys r = [129872537; 129872537] /\
    custom.nodes r !! 1%nat = Some (custom.Node "cache-a" (custom.NewClient "127.0.0.1:6382")) /\
    custom.ring r !! 129872537 = Some 1%nat /\ 129872537 ∈ custom.sortedKeys r.
Proof.
  intros configs. exists (custom_build.built configs 1).
  split; [vm_compute; reflexivity|]. split; [vm_compute; reflexivity|].
  split; [vm_compute; reflexivity|].
  apply (later_insertion_wins configs 1 _ 129872537 1%nat
           (custom.ShardConfig "cache-a" "127.0.0.1:6382") 0).
  - vm_compute. reflexivity.
  - reflexivity.
  - lia.
  - vm_compute. reflexivity.
  - intros j' cfg' i' Hj' _ _. apply lookup_lt_Some in Hj'. simpl in Hj'. lia.
Defined.

(** ** The server hash and the virtual keys *)

Lemma insert_all_lookup_Some {V} (tr : list (Z * V)) (p : Z) (v : V) :
  insert_all tr ∅ !! p = Some v -> (p, v) ∈ tr.
Proof.
  intros Hv. destruct (decide (p ∈ tr.*1)) as [Hin | Hnin].
  - destruct (insert_all_elem tr ∅ p Hin) as (w & Hw & Hmem). congruence.
  - rewrite insert_all_notin in Hv by assumption. rewrite lookup_empty in Hv. discriminate.
Qed.

(** C4: [serverHashFor] is the big-endian unsigned 32-bit number made of
    the first four bytes of the MD5 digest of the bytes of its argument;
    and the strings hashed during construction are exactly the node name,
    a colon and the decimal replica index, for the indices 0 <= i < R:
    these hashes are the points of the list and the keys of the table. *)
Theorem virtual_key_points (configs : list custom.shardConfig) (R : Z)
        (r : custom.rubyHashRing) (key : string) :
  custom.newRubyHashRing configs R = Ret r ->
  (exists b0 b1 b2 b3 rest,
      md5.Sum (bytes_of_string key) = b0 :: b1 :: b2 :: b3 :: rest /\
      serverHashFor key = Ret (b0 * 2 ^ 24 + b1 * 2 ^ 16 + b2 * 2 ^ 8 + b3) /\
      0 <= b0 * 2 ^ 24 + b1 * 2 ^ 16 + b2 * 2 ^ 8 + b3 <= uint32_max) /\
  (forall name i,
      Sprintf "%s:%d" [OpString name; OpInt i] = name +:+ ":" +:+ pretty i) /\
  (forall p,
      p ∈ custom.sortedKeys r <->
      exists j cfg i,
        configs !! j = Some cfg /\ 0 <= i < R /\
        serverHashFor (custom.Name cfg +:+ ":" +:+ pretty i) = Ret p) /\
  (forall p n,
      custom.ring r !! p = Some n ->
      exists cfg i,
        configs !! n = Some cfg /\ 0 <= i < R /\
        serverHashFor (custom.Name cfg +:+ ":" +:+ pretty i) = Ret p).
Proof.
  intros Hr. apply custom_facts.newRubyHashRing_Ret in Hr. subst r.
  split; [|split; [|split]].
  - destruct (md5_Sum_first4 (bytes_of_string key))
      as (b0 & b1 & b2 & b3 & rest & Hsum & _ & H0 & H1 & H2 & H3).
    exists b0, b1, b2, b3, rest. split; [exact Hsum|].
    pose proof (serverHashFor_total key) as Ht.
    pose proof (serverHash_range key) as Hrange.
    unfold serverHash in Ht, Hrange. rewrite Hsum in Ht, Hrange.
    unfold be32 in Ht, Hrange. auto.
  - exact Sprintf_virtualKey.
  - intros p. unfold custom_build.built. cbn [custom.sortedKeys].
    rewrite sort_Slice_perm. split.
    + intros Hin. apply list_elem_of_fmap in Hin as ([q n] & -> & Hmem).
      destruct (custom_trace_elem 0 configs R q n Hmem) as (cfg & i & _ & Hcfg & Hi & ->).
      exists (n - 0)%nat, cfg, i. repeat split; auto; try lia.
      apply serverHashFor_total.
    + intros (j & cfg & i & Hcfg & Hi & Hp).
      rewrite serverHashFor_total in Hp. injection Hp as <-.
      apply list_elem_of_fmap. exists (virtual_point (custom.Name cfg) i, j).
      split; [reflexivity|]. apply (custom_trace_intro 0 j configs R i cfg Hcfg Hi).
  - intros p n Hn. unfold custom_build.built in Hn. cbn [custom.ring] in Hn.
    apply insert_all_lookup_Some in Hn.
    destruct (custom_trace_elem 0 configs R p n Hn) as (cfg & i & _ & Hcfg & Hi & ->).
    rewrite Nat.sub_0_r in Hcfg. exists cfg, i. repeat split; auto; try lia.
    apply serverHashFor_total.
Qed.

(** The digest of "cache-a:0" starts with the bytes 07 bd b2 99. *)
Lemma virtual_key_points_witness :
  hex_of_bytes (md5.Sum (bytes_of_string "cache-a:0")) = "07bdb2998a896123866d26ac4eb625f2" /\
  Sprintf "%s:%d" [OpString "cache-a"; OpInt 0] = "cache-a:0" /\
  Sprintf "%s:%d" [OpString "cache-c"; OpInt 159] = "cache-c:159" /\
  serverHashFor "cache-a:0" = Ret 129872537 /\
  exists b0 b1 b2 b3 rest,
      md5.Sum (bytes_of_string "cache-a:0") = b0 :: b1 :: b2 :: b3 :: rest /\
      serverHashFor "cache-a:0" = Ret (b0 * 2 ^ 24 + b1 * 2 ^ 16 + b2 * 2 ^ 8 + b3) /\
      0 <= b0 * 2 ^ 24 + b1 * 2 ^ 16 + b2 * 2 ^ 8 + b3 <= uint32_max.
Proof.
  split; [vm_compute; reflexivity|]. split; [vm_compute; reflexivity|].
  split; [vm_compute; reflexivity|]. split; [vm_compute; reflexivity|].
  apply (virtual_key_points demo_configs 1 ring1 "cache-a:0").
  vm_compute. reflexivity.
Defined.

(** ** Failure of the construction *)

(** With zero replicas the three nodes are allocated and a ring without
    points is returned; nothing fails. *)
Lemma zero_replicas_accepted :
  custom.newRubyHashRing demo_configs 0 = Ret (custom_build.built demo_configs 0) /\
  custom.sortedKeys (custom_build.built demo_configs 0) = [] /\
  ~ rejects_nonpositive_replicas demo_configs 0.
Proof.
  split; [vm_compute; reflexivity|]. split; [vm_compute; reflexivity|].
  intros [_ Hfail]. apply (Hfail ltac:(lia) (custom_build.built demo_configs 0)).
  vm_compute. reflexivity.
Qed.

Lemma custom_trace_no_replicas (k : nat) (configs : list custom.shardConfig) (R : Z) :
  configs = [] \/ R <= 0 -> custom_build.trace k configs R = [].
Proof.
  intros [-> | HR]; [reflexivity|].
  revert k. induction configs as [|cfg configs IH]; intros k; [reflexivity|].
  cbn [custom_build.trace]. rewrite IH. unfold replica_points.
  rewrite seqZ_nil by assumption. reflexivity.
Qed.

(** Four nodes and the replica count -2^62: the product -2^64 wraps to
    the capacity 0, the allocation passes, no replica loop runs, and a
    ring without points is returned. *)
Example negative_replicas_wrap_around :
  let configs := demo_configs ++ [custom.ShardConfig "cache-d" "127.0.0.1:6384"] in
  to_int (- 2 ^ 62 * len configs) = 0 /\
  exists r, custom.newRubyHashRing configs (- 2 ^ 62) = Ret r /\ custom.sortedKeys r = [].
Proof.
  split; [vm_compute; reflexivity|].
  eexists. split; vm_compute; reflexivity.
Qed.

(** C7 (amended): construction has no error result and does not validate
    the replica count.  The one panic it can raise is that of the slice
    allocation, raised exactly when the capacity replicas * len(nodes),
    taken as a wrapping 64-bit int, is negative or needs more than 2^48
    bytes.  So it panics for a negative replica count with a non-empty
    node list whenever the product does not wrap around (it is at least
    -2^63); it raises no panic for a replica count >= 0 whose capacity
    is at most 2^46; and with a replica count of zero, or with an empty
    node list and any replica count, it returns a ring without points.
    Whenever it returns with an empty node list or a replica count <= 0,
    the lookup returns the nil node for every key. *)
Theorem construction_outcome (configs : list custom.shardConfig) (R : Z) :
  (custom.newRubyHashRing configs R = Panic "makeslice: cap out of range" <->
   ~ (0 <= to_int (R * len configs) /\ 4 * to_int (R * len configs) <= maxAlloc)) /\
  (forall msg, custom.newRubyHashRing configs R = Panic msg ->
               msg = "makeslice: cap out of range") /\
  custom.newRubyHashRing configs R <> OutOfFuel /\
  (0 <= R -> R * len configs <= 2 ^ 46 ->
   forall msg, custom.newRubyHashRing configs R <> Panic msg) /\
  (R = 0 \/ configs = [] ->
   exists r, custom.newRubyHashRing configs R = Ret r /\ custom.sortedKeys r = []) /\
  (R < 0 -> configs <> [] -> - 2 ^ 63 <= R * len configs ->
   custom.newRubyHashRing configs R = Panic "makeslice: cap out of range") /\
  (forall r key,
      custom.newRubyHashRing configs R = Ret r -> configs = [] \/ R <= 0 ->
      custom.getNode r key = Ret None).
Proof.
  pose proof (custom_facts.newRubyHashRing_spec configs R) as Hspec.
  unfold custom_build.cap_ok in Hspec. fold (len configs) in Hspec.
  split; [|split; [|split; [|split; [|split; [|split]]]]].
  - destruct Hspec as [[Hok Hrun] | [Hbad Hrun]]; rewrite Hrun; split.
    + discriminate.
    + intros Hn. contradiction.
    + intros _. exact Hbad.
    + reflexivity.
  - intros msg Hmsg. destruct Hspec as [[_ Hrun] | [_ Hrun]]; rewrite Hrun in Hmsg.
    + discriminate.
    + injection Hmsg as <-. reflexivity.
  - destruct Hspec as [[_ Hrun] | [_ Hrun]]; rewrite Hrun; discriminate.
  - intros HR Hcap msg. rewrite (newRubyHashRing_ok configs R HR Hcap). discriminate.
  - intros Hzero. exists (custom_build.built configs R). split.
    + destruct Hzero as [-> | ->]; [|apply newRubyHashRing_nil].
      apply newRubyHashRing_ok; lia.
    + unfold custom_build.built. cbn [custom.sortedKeys].
      rewrite (custom_trace_no_replicas 0 configs R); [reflexivity|].
      destruct Hzero as [-> | ->]; [right; lia | left; reflexivity].
  - intros HR Hne Hlow. destruct Hspec as [[[Hok _] _] | [_ Hrun]]; [|exact Hrun].
    pose proof (len_nonempty configs Hne).
    rewrite to_int_small in Hok by nia. nia.
  - intros r key Hr Hempty. apply custom_facts.newRubyHashRing_Ret in Hr. subst r.
    unfold custom.getNode, custom_build.built. cbn [custom.sortedKeys].
    rewrite (custom_trace_no_replicas 0 configs R Hempty). reflexivity.
Qed.

Lemma construction_outcome_witness :
  (exists r, custom.newRubyHashRing demo_configs 0 = Ret r /\ custom.sortedKeys r = [] /\
             custom.getNode r "user:42:abcdef1234567890" = Ret None) /\
  (exists r, custom.newRubyHashRing [] (-1) = Ret r /\ custom.sortedKeys r = [] /\
             custom.getNode r "user:42:abcdef1234567890" = Ret None) /\
  custom.newRubyHashRing demo_configs (-1) = Panic "makeslice: cap out of range" /\
  (forall msg, custom.newRubyHashRing demo_configs 160 <> Panic msg).
Proof.
  destruct (construction_outcome demo_configs 0) as (_ & _ & _ & _ & Hzero & _ & Hnil).
  destruct (construction_outcome [] (-1)) as (_ & _ & _ & _ & Hzero' & _ & Hnil').
  destruct (construction_outcome demo_configs (-1)) as (_ & _ & _ & _ & _ & Hpanic & _).
  destruct (construction_outcome demo_configs 160) as (_ & _ & _ & Hquiet & _).
  split; [|split; [|split]].
  - destruct (Hzero ltac:(left; reflexivity)) as (r & Hr & Hk).
    exists r. split; [exact Hr|]. split; [exact Hk|]. apply (Hnil r _ Hr). right. lia.
  - destruct (Hzero' ltac:(right; reflexivity)) as (r & Hr & Hk).
    exists r. split; [exact Hr|]. split; [exact Hk|]. apply (Hnil' r _ Hr). left. reflexivity.
  - apply Hpanic; [lia | discriminate | vm_compute; discriminate].
  - apply Hquiet; [lia | vm_compute; discriminate].
Defined.

(** * Further properties *)

(** ** Strings and slices *)

Lemma strlen_nonneg (s : string) : 0 <= strlen s.
Proof. unfold strlen. lia. Qed.

Lemma append_nil_l (b : string) : EmptyString +:+ b = b.
Proof. reflexivity. Qed.

Lemma append_cons (c : ascii) (a b : string) : String c a +:+ b = String c (a +:+ b).
Proof. reflexivity. Qed.

Lemma strlen_app (a b : string) : strlen (a +:+ b) = strlen a + strlen b.
Proof.
  unfold strlen. induction a as [|c a IH].
  - rewrite append_nil_l. cbn [String.length]. lia.
  - rewrite append_cons. cbn [String.length]. lia.
Qed.

Lemma contains_app (c : ascii) (a b : string) :
  contains c (a +:+ b) <-> contains c a \/ contains c b.
Proof.
  unfold contains. induction a as [|x a IH].
  - rewrite append_nil_l. cbn. tauto.
  - rewrite append_cons. cbn [list_ascii_of_string In].
    rewrite IH. tauto.
Qed.

Lemma IndexByte_range (s : string) (c : ascii) :
  -1 <= IndexByte s c <= strlen s - 1.
Proof.
  unfold strlen. induction s as [|a s IH]; [cbn; lia|].
  cbn [IndexByte String.length].
  destruct (Ascii.eqb a c); [lia|].
  destruct (Z.ltb_spec (IndexByte s c) 0); lia.
Qed.

(** [IndexByte] answers [-1] exactly when the byte does not occur. *)
Lemma IndexByte_absent (s : string) (c : ascii) :
  IndexByte s c = -1 <-> ~ contains c s.
Proof.
  unfold contains. induction s as [|a s IH]; [cbn; tauto|].
  cbn [IndexByte list_ascii_of_string In].
  destruct (Ascii.eqb_spec a c) as [-> | Hne].
  - split; [discriminate | tauto].
  - destruct (Z.ltb_spec (IndexByte s c) 0) as [Hlt | Hge].
    + pose proof (IndexByte_range s c). assert (IndexByte s c = -1) as E by lia.
      apply IH in E. split; [tauto | reflexivity].
    + split; [lia|]. intros Hn. exfalso.
      assert (IndexByte s c = -1) by (apply IH; tauto). lia.
Qed.

(** Otherwise it is the position of the first occurrence. *)
Lemma IndexByte_first (s : string) (c : ascii) :
  0 <= IndexByte s c ->
  exists pre post,
    s = pre +:+ String c post /\ strlen pre = IndexByte s c /\ ~ contains c pre.
Proof.
  induction s as [|a s IH]; cbn [IndexByte]; [lia|].
  destruct (Ascii.eqb_spec a c) as [-> | Hne].
  - intros _. exists EmptyString, s. repeat split; auto.
  - destruct (Z.ltb_spec (IndexByte s c) 0) as [Hlt | Hge]; [lia|]. intros _.
    destruct (IH Hge) as (pre & post & -> & Hlen & Hnot).
    exists (String a pre), post. repeat split.
    + unfold strlen in *. cbn [String.length]. lia.
    + unfold contains in *. cbn [list_ascii_of_string In]. tauto.
Qed.

Lemma IndexByte_app (pre post : string) (c : ascii) :
  ~ contains c pre -> IndexByte (pre +:+ String c post) c = strlen pre.
Proof.
  unfold contains. induction pre as [|a pre IH]; intros Hnot.
  - rewrite append_nil_l. cbn [IndexByte]. rewrite Ascii.eqb_refl. reflexivity.
  - rewrite append_cons.
    cbn [IndexByte list_ascii_of_string In] in *.
    destruct (Ascii.eqb_spec a c) as [-> | Hne]; [tauto|].
    rewrite IH by tauto. pose proof (strlen_nonneg pre).
    destruct (Z.ltb_spec (strlen pre) 0); [lia|].
    unfold strlen. cbn [String.length]. lia.
Qed.

Lemma substring_skip (pre s : string) (n m : nat) :
  substring (String.length pre + n) m (pre +:+ s) = substring n m s.
Proof.
  induction pre as [|a pre IH]; [reflexivity|].
  rewrite append_cons. cbn [String.length Nat.add substring]. exact IH.
Qed.

Lemma substring_prefix (a b : string) :
  substring 0 (String.length a) (a +:+ b) = a.
Proof.
  induction a as [|x a IH]; [destruct b; reflexivity|].
  rewrite append_cons. cbn [String.length substring]. rewrite IH. reflexivity.
Qed.

(** Slicing out the middle of a concatenation. *)
Lemma slice_middle (a b c : string) :
  slice (a +:+ b +:+ c) (strlen a) (strlen a + strlen b) = Ret b.
Proof.
  unfold slice. rewrite !strlen_app.
  pose proof (strlen_nonneg a). pose proof (strlen_nonneg b). pose proof (strlen_nonneg c).
  destruct (Z.leb_spec 0 (strlen a)); [|lia].
  destruct (Z.leb_spec (strlen a) (strlen a + strlen b)); [|lia].
  destruct (Z.leb_spec (strlen a + strlen b) (strlen a + (strlen b + strlen c))); [|lia].
  cbn [andb]. f_equal.
  replace (Z.to_nat (strlen a)) with (String.length a + 0)%nat by (unfold strlen; lia).
  replace (Z.to_nat (strlen a + strlen b - strlen a)) with (String.length b)
    by (unfold strlen; lia).
  rewrite substring_skip. apply substring_prefix.
Qed.

Lemma slice_suffix (a b : string) :
  slice (a +:+ b) (strlen a) (strlen (a +:+ b)) = Ret b.
Proof.
  pose proof (slice_middle a b EmptyString) as H.
  rewrite append_empty_r in H. rewrite strlen_app. exact H.
Qed.

(** ** The hash-tag rule *)

Lemma strlen_cons (c : ascii) (s : string) : strlen (String c s) = 1 + strlen s.
Proof. unfold strlen. cbn [String.length]. lia. Qed.

Lemma append_snoc (pre : string) (c : ascii) (x : string) :
  (pre +:+ String c EmptyString) +:+ x = pre +:+ String c x.
Proof.
  induction pre as [|a pre IH]; [reflexivity|].
  rewrite !append_cons, IH. reflexivity.
Qed.

(** What [normalizeForGoRedis] does on a key that holds an opening
    brace, in terms of what follows the first one. *)
Lemma normalize_after_brace (pre rest : string) :
  ~ contains "{" pre ->
  consistent.normalizeForGoRedis (pre +:+ String "{" rest) =
  if IndexByte rest "}" >? 0
  then slice (pre +:+ String "{" rest) (strlen pre + 1) (strlen pre + IndexByte rest "}" + 1)
  else Ret (pre +:+ String "{" rest).
Proof.
  intros Hpre. unfold consistent.normalizeForGoRedis.
  rewrite (IndexByte_app pre rest "{" Hpre).
  pose proof (strlen_nonneg pre).
  destruct (Z.eqb_spec (strlen pre) (-1)); [lia|].
  assert (Hrest : slice (pre +:+ String "{" rest) (strlen pre + 1)
                    (strlen (pre +:+ String "{" rest)) = Ret rest).
  { pose proof (slice_suffix (pre +:+ String "{" EmptyString) rest) as H1.
    rewrite append_snoc in H1.
    rewrite strlen_app, strlen_cons in H1. change (strlen EmptyString) with 0 in H1.
    rewrite Z.add_0_r in H1. exact H1. }
  rewrite Hrest. reflexivity.
Qed.

Lemma normalize_cases (key : string) :
  exists out,
    consistent.normalizeForGoRedis key = Ret out /\
    (out = key \/
     exists pre post,
       key = pre +:+ String "{" (out +:+ String "}" post) /\
       ~ contains "{" pre /\ ~ contains "}" out /\ out <> EmptyString).
Proof.
  pose proof (IndexByte_range key "{") as Hrange.
  destruct (Z.eq_dec (IndexByte key "{") (-1)) as [Hnone | Hsome].
  - exists key. split; [|left; reflexivity].
    unfold consistent.normalizeForGoRedis. rewrite Hnone. reflexivity.
  - destruct (IndexByte_first key "{") as (pre & rest & -> & _ & Hpre); [lia|].
    rewrite (normalize_after_brace pre rest Hpre).
    destruct (Z.gtb_spec (IndexByte rest "}") 0) as [Hpos | Hnot].
    + destruct (IndexByte_first rest "}") as (tag & post & -> & Hlen & Htag); [lia|].
      exists tag. split.
      * pose proof (slice_middle (pre +:+ String "{" EmptyString) tag (String "}" post)) as H1.
        rewrite append_snoc in H1.
        rewrite strlen_app, strlen_cons in H1. change (strlen EmptyString) with 0 in H1.
        rewrite Z.add_0_r in H1. rewrite <- Hlen.
        replace (strlen pre + strlen tag + 1) with (strlen pre + 1 + strlen tag) by lia.
        exact H1.
      * right. exists pre, post. repeat split; auto.
        intros ->. change (strlen EmptyString) with 0 in Hlen. lia.
    + exists (pre +:+ String "{" rest). split; [reflexivity | left; reflexivity].
Qed.

(** X1: [normalizeForGoRedis] never panics on a slice bound, and its
    result is either the key itself or a non-empty tag that stands in the
    key between the first opening brace and the first closing brace after
    it. *)
Theorem normalize_outcome (key : string) :
  exists out,
    consistent.normalizeForGoRedis key = Ret out /\
    (out = key \/
     exists pre post,
       key = pre +:+ String "{" (out +:+ String "}" post) /\
       ~ contains "{" pre /\ ~ contains "}" out /\ out <> EmptyString).
Proof. apply normalize_cases. Qed.

Lemma normalize_tag (pre tag post : string) :
  ~ contains "{" pre -> ~ contains "}" tag -> tag <> EmptyString ->
  consistent.normalizeForGoRedis (pre +:+ String "{" (tag +:+ String "}" post)) = Ret tag.
Proof.
  intros Hpre Htag Hne.
  rewrite (normalize_after_brace pre _ Hpre).
  rewrite (IndexByte_app tag post "}" Htag).
  assert (0 < strlen tag).
  { destruct tag; [congruence|]. rewrite strlen_cons. pose proof (strlen_nonneg tag). lia. }
  destruct (Z.gtb_spec (strlen tag) 0); [|lia].
  pose proof (slice_middle (pre +:+ String "{" EmptyString) tag (String "}" post)) as H1.
  rewrite append_snoc in H1.
  rewrite strlen_app, strlen_cons in H1. change (strlen EmptyString) with 0 in H1.
  rewrite Z.add_0_r in H1.
  replace (strlen pre + strlen tag + 1) with (strlen pre + 1 + strlen tag) by lia.
  exact H1.
Qed.

(** X2: a key with a non-empty tag between its first opening brace and
    the next closing brace is replaced by the tag. *)
Theorem normalize_extracts_tag (pre tag post : string) :
  ~ contains "{" pre -> ~ contains "}" tag -> tag <> EmptyString ->
  consistent.normalizeForGoRedis (pre +:+ String "{" (tag +:+ String "}" post)) = Ret tag.
Proof. apply normalize_tag. Qed.

Lemma normalize_extracts_tag_witness :
  consistent.normalizeForGoRedis "user:{tag25}:deadbeef" = Ret "tag25".
Proof.
  apply (normalize_extracts_tag "user:" "tag25" ":deadbeef").
  - unfold contains. cbn. intuition discriminate.
  - unfold contains. cbn. intuition discriminate.
  - discriminate.
Defined.

Lemma normalize_identity (key : string) :
  (~ contains "{" key \/
   exists pre rest,
     key = pre +:+ String "{" rest /\ ~ contains "{" pre /\
     (~ contains "}" rest \/ exists rest', rest = String "}" rest')) ->
  consistent.normalizeForGoRedis key = Ret key.
Proof.
  intros [Hno | (pre & rest & -> & Hpre & Hrest)].
  - unfold consistent.normalizeForGoRedis.
    apply IndexByte_absent in Hno. rewrite Hno. reflexivity.
  - rewrite (normalize_after_brace pre rest Hpre).
    destruct Hrest as [Hno | [rest' ->]].
    + apply IndexByte_absent in Hno. rewrite Hno. reflexivity.
    + cbn [IndexByte]. rewrite Ascii.eqb_refl. reflexivity.
Qed.

(** X3: the key is passed on unchanged when it has no opening brace,
    when no closing brace follows the first opening brace, or when the
    closing brace follows it immediately (an empty tag). *)
Theorem normalize_keeps_key (key : string) :
  (~ contains "{" key \/
   exists pre rest,
     key = pre +:+ String "{" rest /\ ~ contains "{" pre /\
     (~ contains "}" rest \/ exists rest', rest = String "}" rest')) ->
  consistent.normalizeForGoRedis key = Ret key.
Proof. apply normalize_identity. Qed.

Lemma normalize_keeps_key_witness :
  consistent.normalizeForGoRedis "user:7:abc" = Ret "user:7:abc" /\
  consistent.normalizeForGoRedis "user:{abc" = Ret "user:{abc" /\
  consistent.normalizeForGoRedis "user:{}:abc" = Ret "user:{}:abc".
Proof.
  split; [|split].
  - apply normalize_keeps_key. left. unfold contains. cbn. intuition discriminate.
  - apply normalize_keeps_key. right. exists "user:", "abc".
    split; [reflexivity|]. split; [|left]; unfold contains; cbn; intuition discriminate.
  - apply normalize_keeps_key. right. exists "user:", "}:abc".
    split; [reflexivity|]. split; [|right; exists ":abc"; reflexivity].
    unfold contains. cbn. intuition discriminate.
Defined.

(** X4: the rule is idempotent: a normalized key is left as it is by a
    second pass. *)
Theorem normalize_idempotent (key out : string) :
  consistent.normalizeForGoRedis key = Ret out ->
  consistent.normalizeForGoRedis out = Ret out.
Proof.
  intros Hout.
  destruct (normalize_cases key) as (out' & Hrun & Hcase).
  rewrite Hrun in Hout. injection Hout as ->.
  destruct Hcase as [-> | (pre & post & _ & _ & Htag & _)]; [exact Hrun|].
  pose proof (IndexByte_range out "{") as Hrange.
  destruct (Z.eq_dec (IndexByte out "{") (-1)) as [Hnone | Hsome].
  - apply normalize_identity. left. apply IndexByte_absent. exact Hnone.
  - destruct (IndexByte_first out "{") as (p & rest & E & _ & Hp); [lia|].
    apply normalize_identity. right. exists p, rest.
    split; [exact E|]. split; [exact Hp|]. left.
    intros Hin. apply Htag. rewrite E. apply contains_app. right.
    unfold contains in *. cbn [list_ascii_of_string In]. right. exact Hin.
Qed.

Lemma normalize_idempotent_witness :
  consistent.normalizeForGoRedis "a{b{c}d" = Ret "b{c" /\
  consistent.normalizeForGoRedis "b{c" = Ret "b{c".
Proof.
  split; [vm_compute; reflexivity|].
  apply (normalize_idempotent "a{b{c}d"). vm_compute. reflexivity.
Defined.

(** ** The loops of [main] *)

Lemma for_each_collect {A B} (f : A -> result B) (g : A -> B -> assignment)
      (keys : list A) (acc : list assignment) :
  (forall k, exists b, f k = Ret b) ->
  exists l,
    for_each (fun acc k => b ← f k; Ret (acc ++ [g k b])) keys acc = Ret (acc ++ l) /\
    Forall2 (fun k a => exists b, f k = Ret b /\ a = g k b) keys l.
Proof.
  intros Hf. revert acc. induction keys as [|k keys IH]; intros acc.
  - exists []. rewrite app_nil_r. split; [reflexivity | constructor].
  - destruct (Hf k) as [b Hb]. cbn [for_each]. rewrite Hb.
    change (Ret b ≫= ?h) with (h b). cbv beta.
    change (Ret ?x ≫= ?h) with (h x). cbv beta.
    destruct (IH (acc ++ [g k b])) as (l & Hrun & Hl).
    exists (g k b :: l). rewrite Hrun, <- app_assoc. split; [reflexivity|].
    constructor; eauto.
Qed.

(** The names of the nodes are those of the configurations. *)
Lemma built_node_name (configs : list custom.shardConfig) (R : Z) (n : nat) (nd : custom.node) :
  custom.nodes (custom_build.built configs R) !! n = Some nd ->
  custom.name nd ∈ custom.Name <$> configs.
Proof.
  unfold custom_build.built. cbn [custom.nodes]. intros Hn.
  apply list_lookup_fmap_Some in Hn as (cfg & -> & Hcfg).
  apply list_elem_of_fmap. exists cfg. split; [reflexivity|].
  eapply list_elem_of_lookup_2, Hcfg.
Qed.

(** [assign] of the custom program on a constructed ring: a node name of
    the list when the ring has points, the empty string when it has none. *)
Lemma custom_assign_built (configs : list custom.shardConfig) (R : Z) (key : string) :
  exists s,
    custom.assign (custom_build.built configs R) key = Ret s /\
    (custom.sortedKeys (custom_build.built configs R) <> [] -> s ∈ custom.Name <$> configs) /\
    (custom.sortedKeys (custom_build.built configs R) = [] -> s = EmptyString).
Proof.
  destruct (custom.sortedKeys (custom_build.built configs R)) as [|k0 ks] eqn:Hk.
  - exists EmptyString. unfold custom.assign, custom.getNode. rewrite Hk.
    repeat split; auto. congruence.
  - assert (Hne : custom.sortedKeys (custom_build.built configs R) <> []) by congruence.
    destruct (getNode_built configs R key Hne) as (p & n & nd & _ & _ & Hnd & Hget).
    exists (custom.name nd). unfold custom.assign. rewrite Hget.
    change (Ret (Some n) ≫= ?h) with (h (Some n)). cbv beta.
    unfold custom.shardName. rewrite Hnd. repeat split; auto.
    + intros _. eapply built_node_name, Hnd.
    + discriminate.
Qed.

(** X5: the loop of [main] in the custom program, run on a constructed
    ring, never panics and records one assignment per key, in the order
    of the keys and under the key itself; every recorded shard is the
    name of a configured node when the ring has points, and the empty
    string when it has none. *)
Theorem custom_assignments (configs : list custom.shardConfig) (R : Z)
        (r : custom.rubyHashRing) (keys : list string) :
  custom.newRubyHashRing configs R = Ret r ->
  exists l,
    custom_main.assignments_of r keys = Ret l /\
    Key <$> l = keys /\
    (custom.sortedKeys r <> [] -> Forall (fun a => Shard a ∈ custom.Name <$> configs) l) /\
    (custom.sortedKeys r = [] -> Forall (fun a => Shard a = EmptyString) l).
Proof.
  intros Hr. apply custom_facts.newRubyHashRing_Ret in Hr. subst r.
  destruct (for_each_collect (custom.assign (custom_build.built configs R)) Assignment keys [])
    as (l & Hrun & Hl).
  { intros k. destruct (custom_assign_built configs R k) as (s & Hs & _). eauto. }
  exists l. split; [exact Hrun|].
  split; [|split].
  - clear Hrun. induction Hl as [|k a keys l (b & _ & ->) _ IH]; [reflexivity|].
    cbn. f_equal. exact IH.
  - intros Hne. clear Hrun. induction Hl as [|k a keys l (b & Hb & ->) _ IH]; constructor; auto.
    destruct (custom_assign_built configs R k) as (s & Hs & Hin & _).
    rewrite Hs in Hb. injection Hb as <-. cbn. auto.
  - intros He. clear Hrun. induction Hl as [|k a keys l (b & Hb & ->) _ IH]; constructor; auto.
    destruct (custom_assign_built configs R k) as (s & Hs & _ & Hemp).
    rewrite Hs in Hb. injection Hb as <-. cbn. auto.
Qed.

Lemma custom_assignments_witness :
  custom_main.assignments_of ring1 ["hello"; "user:{tag25}:deadbeef"] =
    Ret [Assignment "hello" "cache-c"; Assignment "user:{tag25}:deadbeef" "cache-c"] /\
  exists l,
    custom_main.assignments_of ring1 ["hello"; "user:{tag25}:deadbeef"] = Ret l /\
    Key <$> l = ["hello"; "user:{tag25}:deadbeef"] /\
    (custom.sortedKeys ring1 <> [] -> Forall (fun a => Shard a ∈ custom.Name <$> demo_configs) l) /\
    (custom.sortedKeys ring1 = [] -> Forall (fun a => Shard a = EmptyString) l).
Proof.
  split; [vm_compute; reflexivity|].
  apply (custom_assignments demo_configs 1 ring1). vm_compute. reflexivity.
Defined.

(** [assign] of the other program on a constructed ring. *)
Lemma consistent_assign_built (shards : list string) (R : Z) (key : string) :
  exists nk s,
    consistent.normalizeForGoRedis key = Ret nk /\
    consistent.Get (consistent_build.built shards R) nk = Ret s /\
    consistent.assign (consistent_build.built shards R) key = Ret s /\
    (consistent.sortedKeys (consistent_build.built shards R) <> [] -> s ∈ shards) /\
    (consistent.sortedKeys (consistent_build.built shards R) = [] -> s = EmptyString).
Proof.
  destruct (normalize_cases key) as (nk & Hnk & _).
  unfold consistent.assign. rewrite Hnk.
  change (Ret nk ≫= ?h) with (h nk). cbv beta.
  destruct (consistent.sortedKeys (consistent_build.built shards R)) as [|k0 ks] eqn:Hk.
  - exists nk, EmptyString. unfold consistent.Get. rewrite Hk.
    repeat split; auto. congruence.
  - assert (Hne : consistent.sortedKeys (consistent_build.built shards R) <> []) by congruence.
    destruct (Get_built shards R nk Hne) as (p & s & _ & _ & Hin & Hget).
    exists nk, s. repeat split; auto. discriminate.
Qed.

(** X6: the loop of [main] in the go-redis style program, run on a
    constructed ring, never panics and records one assignment per key, in
    order and under the raw key; the shard recorded for a key is the one
    [Get] gives for the normalized key, a configured shard name when the
    ring has points and the empty string when it has none. *)
Theorem consistent_assignments (shards : list string) (R : Z)
        (h : consistent.rubyStyleHash) (keys : list string) :
  consistent.newRubyStyleHash shards R = Ret h ->
  exists l,
    consistent_main.assignments_of h keys = Ret l /\
    Key <$> l = keys /\
    Forall2 (fun k a => exists nk, consistent.normalizeForGoRedis k = Ret nk /\
                                   consistent.Get h nk = Ret (Shard a)) keys l /\
    (consistent.sortedKeys h <> [] -> Forall (fun a => Shard a ∈ shards) l) /\
    (consistent.sortedKeys h = [] -> Forall (fun a => Shard a = EmptyString) l).
Proof.
  intros Hh. apply consistent_facts.newRubyStyleHash_Ret in Hh. subst h.
  destruct (for_each_collect (consistent.assign (consistent_build.built shards R))
              Assignment keys []) as (l & Hrun & Hl).
  { intros k. destruct (consistent_assign_built shards R k) as (nk & s & _ & _ & Hs & _). eauto. }
  exists l. split; [exact Hrun|]. clear Hrun.
  split; [|split; [|split]].
  - induction Hl as [|k a keys l (b & _ & ->) _ IH]; [reflexivity|].
    cbn. f_equal. exact IH.
  - induction Hl as [|k a keys l (b & Hb & ->) _ IH]; constructor; auto.
    destruct (consistent_assign_built shards R k) as (nk & s & Hnk & Hget & Hs & _).
    rewrite Hs in Hb. injection Hb as <-. exists nk. auto.
  - intros Hne. induction Hl as [|k a keys l (b & Hb & ->) _ IH]; constructor; auto.
    destruct (consistent_assign_built shards R k) as (nk & s & _ & _ & Hs & Hin & _).
    rewrite Hs in Hb. injection Hb as <-. cbn. auto.
  - intros He. induction Hl as [|k a keys l (b & Hb & ->) _ IH]; constructor; auto.
    destruct (consistent_assign_built shards R k) as (nk & s & _ & _ & Hs & _ & Hemp).
    rewrite Hs in Hb. injection Hb as <-. cbn. auto.
Qed.

Lemma consistent_assignments_witness :
  consistent_main.assignments_of hash1 ["hello"; "user:{tag25}:deadbeef"] =
    Ret [Assignment "hello" "cache-b"; Assignment "user:{tag25}:deadbeef" "cache-a"] /\
  exists l,
    consistent_main.assignments_of hash1 ["hello"; "user:{tag25}:deadbeef"] = Ret l /\
    Key <$> l = ["hello"; "user:{tag25}:deadbeef"] /\
    Forall2 (fun k a => exists nk, consistent.normalizeForGoRedis k = Ret nk /\
                                   consistent.Get hash1 nk = Ret (Shard a))
            ["hello"; "user:{tag25}:deadbeef"] l /\
    (consistent.sortedKeys hash1 <> [] -> Forall (fun a => Shard a ∈ demo_shards) l) /\
    (consistent.sortedKeys hash1 = [] -> Forall (fun a => Shard a = EmptyString) l).
Proof.
  split; [vm_compute; reflexivity|].
  apply (consistent_assignments demo_shards 1 hash1). vm_compute. reflexivity.
Defined.

(** X7: in the go-redis style program two keys that carry the same
    non-empty hash tag are assigned alike on every ring, namely as the
    tag itself is. *)
Theorem same_tag_same_shard (h : consistent.rubyStyleHash)
        (pre1 post1 pre2 post2 tag : string) :
  ~ contains "{" pre1 -> ~ contains "{" pre2 ->
  ~ contains "}" tag -> tag <> EmptyString ->
  consistent.assign h (pre1 +:+ String "{" (tag +:+ String "}" post1)) = consistent.Get h tag /\
  consistent.assign h (pre1 +:+ String "{" (tag +:+ String "}" post1)) =
  consistent.assign h (pre2 +:+ String "{" (tag +:+ String "}" post2)).
Proof.
  intros H1 H2 Htag Hne. unfold consistent.assign.
  rewrite (normalize_tag pre1 tag post1), (normalize_tag pre2 tag post2)
    by assumption.
  split; reflexivity.
Qed.

Lemma same_tag_same_shard_witness :
  consistent.assign hash1 "user:{tag25}:deadbeef" = consistent.Get hash1 "tag25" /\
  consistent.assign hash1 "user:{tag25}:deadbeef" = consistent.assign hash1 "order:{tag25}:7".
Proof.
  apply (same_tag_same_shard hash1 "user:" ":deadbeef" "order:" ":7" "tag25").
  - unfold contains. cbn. intuition discriminate.
  - unfold contains. cbn. intuition discriminate.
  - unfold contains. cbn. intuition discriminate.
  - discriminate.
Defined.

(** ** Redis::HashRing *)

Lemma ruby_server_hash_for (key : string) :
  ruby.server_hash_for key = Ret (serverHash key).
Proof.
  unfold ruby.server_hash_for, serverHash, ruby.unpack1_L_be.
  destruct (md5_Sum_first4 (bytes_of_string key))
    as (b0 & b1 & b2 & b3 & rest & -> & _). reflexivity.
Qed.

Lemma ruby_add_point_eq (node : ruby.Node) (h : ruby.HashRing) (i : Z) :
  ruby.add_point node h i =
  Ret {| ruby.replicas := ruby.replicas h;
         ruby.ring := <[virtual_point (ruby.id node) i := node]> (ruby.ring h);
         ruby.nodes := ruby.nodes h;
         ruby.sorted_keys := ruby.sorted_keys h ++ [virtual_point (ruby.id node) i] |}.
Proof. unfold ruby.add_point. rewrite ruby_server_hash_for. reflexivity. Qed.

Lemma ruby_add_points_spec (node : ruby.Node) (ixs : list Z) (h : ruby.HashRing) :
  for_each (ruby.add_point node) ixs h =
  Ret {| ruby.replicas := ruby.replicas h;
         ruby.ring := insert_all ((fun p => (p, node)) <$> (virtual_point (ruby.id node) <$> ixs))
                                 (ruby.ring h);
         ruby.nodes := ruby.nodes h;
         ruby.sorted_keys := ruby.sorted_keys h ++ (virtual_point (ruby.id node) <$> ixs) |}.
Proof.
  revert h. induction ixs as [|i ixs IH]; intros h.
  - simpl. rewrite app_nil_r. destruct h; reflexivity.
  - cbn [for_each]. rewrite ruby_add_point_eq.
    change (Ret ?a ≫= ?f) with (f a). cbv beta.
    rewrite IH. cbn [ruby.replicas ruby.sorted_keys ruby.ring ruby.nodes fmap list_fmap].
    rewrite <- app_assoc. reflexivity.
Qed.

Lemma ruby_add_node_eq (h : ruby.HashRing) (node : ruby.Node) :
  ruby.add_node h node =
  Ret {| ruby.replicas := ruby.replicas h;
         ruby.ring := insert_all ((fun p => (p, node))
                                    <$> replica_points (ruby.id node) (ruby.replicas h))
                                 (ruby.ring h);
         ruby.nodes := ruby.nodes h ++ [node];
         ruby.sorted_keys :=
           ruby.sort_bang (ruby.sorted_keys h
                           ++ replica_points (ruby.id node) (ruby.replicas h)) |}.
Proof. unfold ruby.add_node. rewrite ruby_add_points_spec. reflexivity. Qed.

(** Sorting after every node gives what one final sort gives. *)
Lemma sort_sorted_prefix (a b : list Z) :
  sort_Slice (sort_Slice a ++ b) = sort_Slice (a ++ b).
Proof.
  apply sort_Slice_unique; [|apply sort_Slice_sorted].
  rewrite !sort_Slice_perm. reflexivity.
Qed.

Lemma sort_sorted (a : list Z) : StronglySorted Z.le a -> sort_Slice a = a.
Proof. intros Ha. symmetry. apply sort_Slice_unique; auto. Qed.

Lemma ruby_add_nodes_spec (names : list string) (h : ruby.HashRing) :
  StronglySorted Z.le (ruby.sorted_keys h) ->
  for_each ruby.add_node (ruby.NodeNew <$> names) h =
  Ret {| ruby.replicas := ruby.replicas h;
         ruby.ring := insert_all (prod_map id ruby.NodeNew
                                    <$> consistent_build.trace names (ruby.replicas h))
                                 (ruby.ring h);
         ruby.nodes := ruby.nodes h ++ (ruby.NodeNew <$> names);
         ruby.sorted_keys :=
           sort_Slice (ruby.sorted_keys h
                       ++ (consistent_build.trace names (ruby.replicas h)).*1) |}.
Proof.
  revert h. induction names as [|name names IH]; intros h Hs.
  - cbn. rewrite !app_nil_r, sort_sorted by assumption. destruct h; reflexivity.
  - cbn [fmap list_fmap for_each]. rewrite ruby_add_node_eq.
    change (Ret ?a ≫= ?f) with (f a). cbv beta.
    rewrite IH by apply sort_Slice_sorted.
    cbn [ruby.replicas ruby.sorted_keys ruby.ring ruby.nodes ruby.id
         consistent_build.trace].
    unfold ruby.sort_bang. fold (sort_Slice (ruby.sorted_keys h ++ replica_points name (ruby.replicas h))).
    rewrite sort_sorted_prefix.
    rewrite !fmap_app, insert_all_app, <- !app_assoc, <- !list_fmap_compose.
    replace ((fst ∘ (fun p : Z => (p, name))) <$> replica_points name (ruby.replicas h))
      with (replica_points name (ruby.replicas h)) by (symmetry; apply list_fmap_id).
    reflexivity.
Qed.

(** [Redis::HashRing.new] never raises, whatever the replica count. *)
Lemma ruby_new_built (names : list string) (R : Z) :
  ruby.new (ruby.NodeNew <$> names) R = Ret (ruby_built names R).
Proof.
  unfold ruby.new. rewrite ruby_add_nodes_spec by constructor.
  unfold ruby_built, consistent_build.built.
  cbn [ruby.replicas ruby.sorted_keys ruby.ring ruby.nodes consistent.ring
       consistent.sortedKeys app].
  rewrite <- insert_all_fmap, fmap_empty. reflexivity.
Qed.

Lemma at_index_in_range {A} (ary : list A) (i : Z) :
  0 <= i < len ary -> ruby.at_index ary i = ary !! Z.to_nat i.
Proof.
  intros Hi. unfold ruby.at_index.
  destruct (Z.ltb_spec i 0); [lia|].
  destruct (Z.leb_spec 0 i); [|lia]. destruct (Z.ltb_spec i (len ary)); [|lia].
  reflexivity.
Qed.

(** The Ruby search and its Go port run the same loop. *)
Lemma ruby_binary_search_loop_eq (fuel : nat) (keys : list Z) (value lower upper : Z) :
  0 <= lower <= upper -> upper <= len keys ->
  ruby.binary_search_loop fuel keys value lower upper =
  custom.binarySearch_loop fuel keys value lower upper.
Proof.
  revert lower upper. induction fuel as [|fuel IH]; intros lower upper Hlo Hup; cbn;
    destruct (Z.ltb_spec lower upper) as [Hlt | Hge]; try reflexivity.
  rewrite (Z.quot_div_nonneg (lower + upper) 2) by lia.
  set (mid := (lower + upper) / 2).
  assert (lower <= mid < upper).
  { subst mid. split.
    - apply Z.div_le_lower_bound; lia.
    - apply Z.div_lt_upper_bound; lia. }
  destruct (index_in_range keys mid) as (k & Hidx & Hk); [lia|].
  rewrite Hidx, at_index_in_range, Hk by lia.
  change (Ret k ≫= ?f) with (f k). cbv beta.
  destruct (k >? value); apply IH; lia.
Qed.

Lemma ruby_binary_search_eq (r : custom.rubyHashRing) (value : Z) :
  ruby.binary_search (custom.sortedKeys r) value = custom.binarySearch r value.
Proof.
  unfold ruby.binary_search, custom.binarySearch.
  apply ruby_binary_search_loop_eq; unfold len; lia.
Qed.

(** The table of the Go ring holds, for every point, a pointer to the
    node whose name the other two tables hold. *)
Lemma built_rings_fmap (configs : list custom.shardConfig) (R : Z) :
  consistent.ring (consistent_build.built (custom.Name <$> configs) R) =
  (fun n : nat => default EmptyString (custom.Name <$> configs !! n))
    <$> custom.ring (custom_build.built configs R).
Proof.
  unfold consistent_build.built, custom_build.built.
  cbn [consistent.ring custom.ring].
  rewrite (traces_agree [] configs R).
  rewrite <- (fmap_empty (M := gmap Z)
                (fun n : nat => default EmptyString (custom.Name <$> ([] ++ configs) !! n))).
  rewrite insert_all_fmap. reflexivity.
Qed.

(** X8: [Redis::HashRing.new] and [newRubyHashRing], given the same node
    names and a replica count the Go constructor accepts, build the same
    sorted point list and tables that give every point to the same node
    name. *)
Theorem ruby_go_same_ring (configs : list custom.shardConfig) (R : Z)
        (r : custom.rubyHashRing) :
  custom.newRubyHashRing configs R = Ret r ->
  exists rb,
    ruby.new (ruby.NodeNew <$> (custom.Name <$> configs)) R = Ret rb /\
    ruby.sorted_keys rb = custom.sortedKeys r /\
    ruby.id <$> ruby.nodes rb = custom.name <$> custom.nodes r /\
    forall p,
      ruby.id <$> (ruby.ring rb !! p)
      = (fun n => custom.shardName r (Some n)) <$> (custom.ring r !! p).
Proof.
  intros Hr. apply custom_facts.newRubyHashRing_Ret in Hr. subst r.
  exists (ruby_built (custom.Name <$> configs) R).
  split; [apply ruby_new_built|]. split; [apply built_keys_agree|]. split.
  - unfold ruby_built, custom_build.built. cbn [ruby.nodes custom.nodes].
    rewrite <- !list_fmap_compose. apply list_fmap_ext. intros _ cfg _. reflexivity.
  - intros p. unfold ruby_built. cbn [ruby.ring].
    rewrite built_rings_fmap, !lookup_fmap.
    destruct (custom.ring (custom_build.built configs R) !! p) as [n|]; [|reflexivity].
    cbn. f_equal. unfold custom_build.built. cbn [custom.nodes].
    rewrite list_lookup_fmap. destruct (configs !! n); reflexivity.
Qed.

Lemma ruby_go_same_ring_witness :
  exists rb,
    ruby.new (ruby.NodeNew <$> (custom.Name <$> demo_configs)) 1 = Ret rb /\
    ruby.sorted_keys rb = custom.sortedKeys ring1 /\
    ruby.id <$> ruby.nodes rb = custom.name <$> custom.nodes ring1 /\
    forall p,
      ruby.id <$> (ruby.ring rb !! p)
      = (fun n => custom.shardName ring1 (Some n)) <$> (custom.ring ring1 !! p).
Proof.
  apply (ruby_go_same_ring demo_configs 1 ring1). vm_compute. reflexivity.
Defined.

(** [get_node] on the Ruby ring and [getNode] on the Go ring. *)
Lemma ruby_get_node_built (configs : list custom.shardConfig) (R : Z) (key : string) :
  exists node gn,
    ruby.get_node (ruby_built (custom.Name <$> configs) R) key = Ret node /\
    custom.getNode (custom_build.built configs R) key = Ret gn /\
    ruby.id <$> node = (fun n => custom.shardName (custom_build.built configs R) (Some n)) <$> gn /\
    (node = None <-> custom.sortedKeys (custom_build.built configs R) = []) /\
    (forall nd, node = Some nd -> ruby.id nd ∈ custom.Name <$> configs).
Proof.
  set (r := custom_build.built configs R).
  unfold ruby.get_node, ruby.hash_for.
  assert (Hk : ruby.sorted_keys (ruby_built (custom.Name <$> configs) R) = custom.sortedKeys r)
    by apply built_keys_agree.
  rewrite Hk, ruby_binary_search_eq.
  set (hash := crc32.ChecksumIEEE (bytes_of_string key)).
  destruct (binarySearch_spec r hash) as (idx & Hrun & Hidx & _).
  rewrite Hrun. change (Ret idx ≫= ?f) with (f idx). cbv beta.
  destruct (decide (custom.sortedKeys r = [])) as [He | Hne].
  - exists None, None. unfold custom.getNode.
    assert (idx = -1) as -> by (rewrite He in Hidx; unfold len in Hidx; cbn in Hidx; lia).
    rewrite He. repeat split; auto; discriminate.
  - pose proof (len_nonempty _ Hne) as Hlen.
    destruct (getNode_built configs R key Hne) as (p & n & nd & _ & Hn & Hnd & Hget).
    fold r in Hn, Hnd, Hget.
    assert (Hname : default EmptyString (custom.Name <$> configs !! n) = custom.name nd).
    { unfold r, custom_build.built in Hnd. cbn [custom.nodes] in Hnd.
      rewrite list_lookup_fmap in Hnd. destruct (configs !! n); [|discriminate].
      injection Hnd as <-. reflexivity. }
    pose proof Hget as Hget'.
    unfold custom.getNode in Hget. rewrite (len_eqb_nonempty _ Hne) in Hget.
    fold hash in Hget. rewrite Hrun in Hget.
    change (Ret idx ≫= ?f) with (f idx) in Hget. cbv beta in Hget.
    set (idx' := if idx <? 0 then len (custom.sortedKeys r) - 1 else idx) in *.
    assert (Hidx' : 0 <= idx' < len (custom.sortedKeys r))
      by (subst idx'; destruct (Z.ltb_spec idx 0); lia).
    destruct (index_in_range (custom.sortedKeys r) idx' Hidx') as (q & Hq & Hlook).
    rewrite Hq in Hget. change (Ret q ≫= ?f) with (f q) in Hget. cbv beta in Hget.
    injection Hget as Hq'.
    assert (Hq'' : custom.ring r !! q = Some n) by (first [exact Hq' | symmetry; exact Hq']).
    assert (Hat : ruby.at_index (custom.sortedKeys r) idx = Some q).
    { unfold ruby.at_index. subst idx'.
      destruct (Z.ltb_spec idx 0).
      - assert (idx = -1) as -> by lia.
        replace (-1 + len (custom.sortedKeys r)) with (len (custom.sortedKeys r) - 1) by lia.
        destruct (Z.leb_spec 0 (len (custom.sortedKeys r) - 1)); [|lia].
        destruct (Z.ltb_spec (len (custom.sortedKeys r) - 1) (len (custom.sortedKeys r))); [|lia].
        exact Hlook.
      - destruct (Z.leb_spec 0 idx); [|lia].
        destruct (Z.ltb_spec idx (len (custom.sortedKeys r))); [|lia]. exact Hlook. }
    rewrite Hat.
    exists (ruby.ring (ruby_built (custom.Name <$> configs) R) !! q), (Some n).
    split; [reflexivity|]. split; [exact Hget'|].
    unfold ruby_built. cbn [ruby.ring].
    rewrite (built_rings_fmap configs R), !lookup_fmap. fold r. rewrite Hq''. cbn.
    split; [|split].
    + rewrite Hname. change ((custom_build.node_of <$> configs) !! n) with (custom.nodes r !! n).
      rewrite Hnd. reflexivity.
    + split; [discriminate | contradiction].
    + intros nd' [= <-]. cbn. rewrite Hname. eapply built_node_name, Hnd.
Qed.

(** X9: for every node list, every replica count the Go constructor
    accepts and every key, [getNode] returns the node that has the name
    of the node [get_node] returns in Ruby, and both return nil exactly
    when the ring has no points: the Go port reproduces the Ruby routing. *)
Theorem ruby_go_same_node (configs : list custom.shardConfig) (R : Z)
        (r : custom.rubyHashRing) (key : string) :
  custom.newRubyHashRing configs R = Ret r ->
  exists rb node gn,
    ruby.new (ruby.NodeNew <$> (custom.Name <$> configs)) R = Ret rb /\
    ruby.get_node rb key = Ret node /\
    custom.getNode r key = Ret gn /\
    ruby.id <$> node = (fun n => custom.shardName r (Some n)) <$> gn /\
    (node = None <-> custom.sortedKeys r = []).
Proof.
  intros Hr. apply custom_facts.newRubyHashRing_Ret in Hr. subst r.
  destruct (ruby_get_node_built configs R key) as (node & gn & Hrb & Hgo & Hsame & Hnil & _).
  exists (ruby_built (custom.Name <$> configs) R), node, gn.
  split; [apply ruby_new_built|]. auto.
Qed.

Lemma ruby_go_same_node_witness :
  ruby.get_node (ruby_built demo_shards 1) "hello" = Ret (Some (ruby.NodeNew "cache-c")) /\
  exists rb node gn,
    ruby.new (ruby.NodeNew <$> (custom.Name <$> demo_configs)) 1 = Ret rb /\
    ruby.get_node rb "hello" = Ret node /\
    custom.getNode ring1 "hello" = Ret gn /\
    ruby.id <$> node = (fun n => custom.shardName ring1 (Some n)) <$> gn /\
    (node = None <-> custom.sortedKeys ring1 = []).
Proof.
  split; [vm_compute; reflexivity|].
  apply (ruby_go_same_node demo_configs 1 ring1 "hello"). vm_compute. reflexivity.
Defined.

(** ** The comparison script *)










(** ** The Ruby baseline against the custom program *)
















(** ** The hash-tag rule of the library and its copy *)

(** X15: [normalizeForGoRedis] returns, for every key, what the
    library's [hashtag.Key] returns. *)
Theorem normalize_mirrors_hashtag (key : string) :
  consistent.normalizeForGoRedis key = hashtag.Key key.
Proof.
  unfold consistent.normalizeForGoRedis, hashtag.Key.
  pose proof (IndexByte_range key "{") as Hr.
  destruct (Z.eqb_spec (IndexByte key "{") (-1)) as [He | Hne];
    destruct (Z.gtb_spec (IndexByte key "{") (-1)); try lia; reflexivity.
Qed.


(** ** Adding and removing nodes of the Ruby ring *)

Lemma insert_all_lookup_cases {V} (tr : list (Z * V)) (m : gmap Z V) (p : Z) (v : V) :
  insert_all tr m !! p = Some v ->
  (p, v) ∈ tr \/ ((p ∉ tr.*1) /\ m !! p = Some v).
Proof.
  intros Hv. destruct (decide (p ∈ tr.*1)) as [Hin | Hnin].
  - destruct (insert_all_elem tr m p Hin) as (w & Hw & Hmem). left. congruence.
  - right. rewrite insert_all_notin in Hv by assumption. auto.
Qed.

Lemma insert_all_is_Some {V} (tr : list (Z * V)) (m : gmap Z V) (p : Z) :
  is_Some (insert_all tr m !! p) <-> p ∈ tr.*1 \/ is_Some (m !! p).
Proof.
  split.
  - intros [v Hv]. destruct (insert_all_lookup_cases tr m p v Hv) as [Hin | [_ Hm]].
    + left. apply list_elem_of_fmap. exists (p, v). auto.
    + right. eauto.
  - intros [Hin | Hm].
    + destruct (insert_all_elem tr m p Hin) as (w & Hw & _). eauto.
    + destruct (decide (p ∈ tr.*1)) as [Hin | Hnin].
      * destruct (insert_all_elem tr m p Hin) as (w & Hw & _). eauto.
      * rewrite insert_all_notin by assumption. exact Hm.
Qed.

Lemma owned_points_fst {V} (pts : list Z) (v : V) :
  ((fun p => (p, v)) <$> pts).*1 = pts.
Proof. rewrite <- list_fmap_compose. apply list_fmap_id. Qed.

Lemma filter_all {A} (P : A -> Prop) `{!forall x, Decision (P x)} (l : list A) :
  (forall x, P x) -> filter P l = l.
Proof.
  intros HP. induction l as [|x l IH]; [reflexivity|].
  rewrite filter_cons, decide_True by apply HP. f_equal. exact IH.
Qed.

Lemma ruby_remove_point_eq (node : ruby.Node) (h : ruby.HashRing) (i : Z) :
  ruby.remove_point node h i =
  Ret {| ruby.replicas := ruby.replicas h;
         ruby.ring := delete (virtual_point (ruby.id node) i) (ruby.ring h);
         ruby.nodes := ruby.nodes h;
         ruby.sorted_keys :=
           filter (fun k => k <> virtual_point (ruby.id node) i) (ruby.sorted_keys h) |}.
Proof. unfold ruby.remove_point. rewrite ruby_server_hash_for. reflexivity. Qed.

Lemma ruby_remove_points_spec (node : ruby.Node) (ixs : list Z) (h : ruby.HashRing) :
  exists h',
    for_each (ruby.remove_point node) ixs h = Ret h' /\
    ruby.replicas h' = ruby.replicas h /\
    ruby.nodes h' = ruby.nodes h /\
    (forall p, ruby.ring h' !! p =
               if decide (p ∈ virtual_point (ruby.id node) <$> ixs) then None
               else ruby.ring h !! p) /\
    ruby.sorted_keys h' =
      filter (fun k => k ∉ virtual_point (ruby.id node) <$> ixs) (ruby.sorted_keys h).
Proof.
  revert h. induction ixs as [|i ixs IH]; intros h.
  - exists h. cbn [for_each fmap list_fmap].
    split; [reflexivity|]. split; [reflexivity|]. split; [reflexivity|]. split.
    + intros p. destruct (decide (p ∈ [])) as [Hin | _]; [|reflexivity].
      apply elem_of_nil in Hin as [].
    + symmetry. apply filter_all. intros k Hin. apply elem_of_nil in Hin as [].
  - cbn [for_each]. rewrite ruby_remove_point_eq.
    change (Ret ?a ≫= ?f) with (f a). cbv beta.
    destruct (IH {| ruby.replicas := ruby.replicas h;
                    ruby.ring := delete (virtual_point (ruby.id node) i) (ruby.ring h);
                    ruby.nodes := ruby.nodes h;
                    ruby.sorted_keys :=
                      filter (fun k => k <> virtual_point (ruby.id node) i)
                             (ruby.sorted_keys h) |})
      as (h' & Hrun & Hrep & Hnodes & Hring & Hkeys).
    cbn [ruby.replicas ruby.ring ruby.nodes ruby.sorted_keys] in Hrep, Hnodes, Hring, Hkeys.
    exists h'. split; [exact Hrun|]. split; [exact Hrep|]. split; [exact Hnodes|]. split.
    + intros p. rewrite Hring, fmap_cons.
      destruct (decide (p ∈ virtual_point (ruby.id node) <$> ixs)) as [Hin | Hnin].
      * rewrite decide_True by (right; exact Hin). reflexivity.
      * destruct (decide (p = virtual_point (ruby.id node) i)) as [-> | Hne].
        -- rewrite decide_True by left. apply lookup_delete_eq.
        -- rewrite decide_False by (intros [?|?]%elem_of_cons; contradiction).
           apply lookup_delete_ne. congruence.
    + rewrite Hkeys, list_filter_filter, fmap_cons. apply list_filter_iff.
      intros k. rewrite not_elem_of_cons. tauto.
Qed.

Lemma ruby_remove_node_spec (h : ruby.HashRing) (node : ruby.Node) :
  exists h',
    ruby.remove_node h node = Ret h' /\
    ruby.replicas h' = ruby.replicas h /\
    ruby.nodes h' = filter (fun n => ruby.id n <> ruby.id node) (ruby.nodes h) /\
    (forall p, ruby.ring h' !! p =
               if decide (p ∈ replica_points (ruby.id node) (ruby.replicas h)) then None
               else ruby.ring h !! p) /\
    ruby.sorted_keys h' =
      filter (fun k => k ∉ replica_points (ruby.id node) (ruby.replicas h))
             (ruby.sorted_keys h).
Proof.
  unfold ruby.remove_node. cbn [ruby.replicas].
  destruct (ruby_remove_points_spec node (seqZ 0 (ruby.replicas h))
              {| ruby.replicas := ruby.replicas h; ruby.ring := ruby.ring h;
                 ruby.nodes := filter (fun n => ruby.id n <> ruby.id node) (ruby.nodes h);
                 ruby.sorted_keys := ruby.sorted_keys h |})
    as (h' & Hrun & Hrep & Hnodes & Hring & Hkeys).
  exists h'. repeat split; assumption.
Qed.

Lemma StronglySorted_filter_le (P : Z -> Prop) `{!forall x, Decision (P x)} (l : list Z) :
  StronglySorted Z.le l -> StronglySorted Z.le (filter P l).
Proof.
  induction 1 as [|x l Hs IH Hall]; [constructor|].
  rewrite filter_cons. destruct (decide (P x)); [|exact IH].
  constructor; [exact IH|].
  apply Forall_forall. intros y Hy. apply list_elem_of_filter in Hy as [_ Hy].
  rewrite Forall_forall in Hall. auto.
Qed.

Lemma ring_consistent_empty (R : Z) :
  ring_consistent {| ruby.replicas := R; ruby.ring := ∅;
                     ruby.nodes := []; ruby.sorted_keys := [] |}.
Proof.
  split; [|split]; cbn [ruby.sorted_keys ruby.ring ruby.nodes ruby.replicas].
  - intros p. rewrite lookup_empty. split.
    + intros Hin. apply elem_of_nil in Hin as [].
    + intros [x Hx]. discriminate.
  - intros p nd Hp. rewrite lookup_empty in Hp. discriminate.
  - constructor.
Qed.

Lemma ring_consistent_add (h : ruby.HashRing) (node : ruby.Node) :
  ring_consistent h ->
  exists h',
    ruby.add_node h node = Ret h' /\ ring_consistent h' /\
    ruby.replicas h' = ruby.replicas h /\
    ruby.nodes h' = ruby.nodes h ++ [node] /\
    ruby.sorted_keys h' ≡ₚ
      ruby.sorted_keys h ++ replica_points (ruby.id node) (ruby.replicas h).
Proof.
  intros (Hdom & Hown & Hsorted). rewrite ruby_add_node_eq. eexists. split; [reflexivity|].
  cbn [ruby.replicas ruby.ring ruby.nodes ruby.sorted_keys].
  split; [|split; [reflexivity | split; [reflexivity | apply merge_sort_Permutation]]].
  split; [|split]; cbn [ruby.replicas ruby.ring ruby.nodes ruby.sorted_keys].
  - intros p. unfold ruby.sort_bang. rewrite merge_sort_Permutation.
    rewrite insert_all_is_Some, owned_points_fst, elem_of_app, Hdom. tauto.
  - intros p nd Hp. apply insert_all_lookup_cases in Hp as [Hin | [_ Hold]].
    + apply list_elem_of_fmap in Hin as (q & [= -> ->] & Hq).
      split; [exact Hq|]. apply elem_of_app. right. left.
    + destruct (Hown p nd Hold) as [Hpt Hnd]. split; [exact Hpt|].
      apply elem_of_app. left. exact Hnd.
  - apply sort_Slice_sorted.
Qed.

Lemma ring_consistent_remove (h : ruby.HashRing) (node : ruby.Node) :
  ring_consistent h ->
  exists h',
    ruby.remove_node h node = Ret h' /\ ring_consistent h' /\
    ruby.replicas h' = ruby.replicas h /\
    ruby.nodes h' = filter (fun n => ruby.id n <> ruby.id node) (ruby.nodes h) /\
    ruby.sorted_keys h' =
      filter (fun k => k ∉ replica_points (ruby.id node) (ruby.replicas h))
             (ruby.sorted_keys h) /\
    (forall p nd, ruby.ring h' !! p = Some nd ->
                  ruby.ring h !! p = Some nd /\ ruby.id nd <> ruby.id node).
Proof.
  intros (Hdom & Hown & Hsorted).
  destruct (ruby_remove_node_spec h node) as (h' & Hrun & Hrep & Hnodes & Hring & Hkeys).
  assert (Hkeep : forall p nd, ruby.ring h' !! p = Some nd ->
                    ruby.ring h !! p = Some nd /\ ruby.id nd <> ruby.id node).
  { intros p nd Hp. rewrite Hring in Hp.
    destruct (decide (p ∈ replica_points (ruby.id node) (ruby.replicas h))) as [|Hnin];
      [discriminate|].
    split; [exact Hp|]. intros Hid. apply Hnin. rewrite <- Hid.
    apply (Hown p nd Hp). }
  exists h'. split; [exact Hrun|].
  split; [|split; [exact Hrep | split; [exact Hnodes | split; [exact Hkeys | exact Hkeep]]]].
  split; [|split].
  - intros p. rewrite Hkeys, list_elem_of_filter, Hring, Hdom.
    destruct (decide (p ∈ replica_points (ruby.id node) (ruby.replicas h))) as [Hin | Hnin].
    + split; [tauto | intros [x Hx]; discriminate].
    + tauto.
  - intros p nd Hp. destruct (Hkeep p nd Hp) as [Hold Hid].
    destruct (Hown p nd Hold) as [Hpt Hnd]. rewrite Hrep, Hnodes. split; [exact Hpt|].
    apply list_elem_of_filter. auto.
  - rewrite Hkeys. apply StronglySorted_filter_le. exact Hsorted.
Qed.

Lemma ring_consistent_new (nodes : list ruby.Node) (h : ruby.HashRing) :
  ring_consistent h ->
  exists h',
    for_each ruby.add_node nodes h = Ret h' /\ ring_consistent h' /\
    ruby.replicas h' = ruby.replicas h /\
    ruby.nodes h' = ruby.nodes h ++ nodes.
Proof.
  revert h. induction nodes as [|node nodes IH]; intros h Hh.
  - exists h. rewrite app_nil_r. auto.
  - destruct (ring_consistent_add h node Hh) as (h1 & Hadd & Hh1 & Hrep1 & Hnodes1 & _).
    destruct (IH h1 Hh1) as (h' & Hrun & Hh' & Hrep & Hnodes).
    exists h'. cbn [for_each]. rewrite Hadd.
    change (Ret ?a ≫= ?f) with (f a). cbv beta.
    split; [exact Hrun|]. split; [exact Hh'|]. split; [congruence|].
    rewrite Hnodes, Hnodes1, <- app_assoc. reflexivity.
Qed.

Lemma at_index_wraps {A} (ary : list A) (i : Z) :
  ary <> [] -> -1 <= i <= len ary - 1 ->
  exists x, ruby.at_index ary i = Some x /\ x ∈ ary.
Proof.
  intros Hne Hi. pose proof (len_nonempty ary Hne) as Hlen.
  unfold ruby.at_index.
  set (j := if i <? 0 then i + len ary else i).
  assert (Hj : 0 <= j < len ary) by (subst j; destruct (Z.ltb_spec i 0); lia).
  destruct (Z.leb_spec 0 j); [|lia]. destruct (Z.ltb_spec j (len ary)); [|lia].
  cbn [andb].
  destruct (lookup_lt_is_Some_2 ary (Z.to_nat j)) as [x Hx]; [unfold len in Hj; lia|].
  exists x. split; [exact Hx|]. apply (list_elem_of_lookup_2 _ _ _ Hx).
Qed.

Lemma ruby_get_node_wf (h : ruby.HashRing) (key : string) :
  ring_consistent h ->
  exists res,
    ruby.get_node h key = Ret res /\
    (res = None <-> ruby.sorted_keys h = []) /\
    (forall nd, res = Some nd ->
       nd ∈ ruby.nodes h /\
       exists p, p ∈ ruby.sorted_keys h /\ ruby.ring h !! p = Some nd /\
                 p ∈ replica_points (ruby.id nd) (ruby.replicas h)).
Proof.
  intros (Hdom & Hown & _). unfold ruby.get_node.
  pose proof (ruby_binary_search_eq (custom.RubyHashRing 0 (ruby.sorted_keys h) ∅ [])
                (ruby.hash_for key)) as Hbs.
  destruct (binarySearch_spec (custom.RubyHashRing 0 (ruby.sorted_keys h) ∅ [])
              (ruby.hash_for key)) as (idx & Hrun & Hidx & _).
  cbn [custom.sortedKeys] in Hbs, Hidx. rewrite Hbs, Hrun.
  change (Ret ?a ≫= ?f) with (f a). cbv beta.
  eexists. split; [reflexivity|].
  destruct (decide (ruby.sorted_keys h = [])) as [He | Hne].
  - rewrite He in Hidx |- *. unfold len in Hidx. cbn in Hidx.
    assert (idx = -1) as -> by lia. cbn.
    split; [tauto|]. intros nd Hnd. discriminate.
  - destruct (at_index_wraps (ruby.sorted_keys h) idx Hne Hidx) as (p & Hp & Hin).
    rewrite Hp. destruct (proj1 (Hdom p) Hin) as [nd Hnd]. rewrite Hnd.
    split; [split; [discriminate | contradiction]|].
    intros nd' [= <-]. destruct (Hown p nd Hnd) as [Hpt Hmem].
    split; [exact Hmem|]. exists p. auto.
Qed.

Lemma ruby_built_consistent (names : list string) (R : Z) :
  ring_consistent (ruby_built names R).
Proof.
  destruct (ring_consistent_new (ruby.NodeNew <$> names)
              {| ruby.replicas := R; ruby.ring := ∅; ruby.nodes := [];
                 ruby.sorted_keys := [] |} (ring_consistent_empty R))
    as (h & Hrun & Hh & _).
  change (ruby.new (ruby.NodeNew <$> names) R = Ret h) in Hrun.
  rewrite ruby_new_built in Hrun. injection Hrun as <-. exact Hh.
Qed.




(** X18: on a ring that is in order, [get_node] never raises; it returns
    [nil] exactly when no point is listed, and otherwise one of the
    nodes of the ring, the owner of a listed point computed from its
    id. *)
Theorem ruby_get_node_consistent (h : ruby.HashRing) (key : string) :
  ring_consistent h ->
  exists res,
    ruby.get_node h key = Ret res /\
    (res = None <-> ruby.sorted_keys h = []) /\
    (forall nd, res = Some nd ->
       nd ∈ ruby.nodes h /\
       exists p, p ∈ ruby.sorted_keys h /\ ruby.ring h !! p = Some nd /\
                 p ∈ replica_points (ruby.id nd) (ruby.replicas h)).
Proof. apply ruby_get_node_wf. Qed.

Lemma ruby_get_node_consistent_witness :
  let h := ruby_built ["cache-a"; "cache-b"; "cache-c"] 1 in
  exists res,
    ruby.get_node h "user:42:abcdef1234567890" = Ret res /\
    (res = None <-> ruby.sorted_keys h = []) /\
    (forall nd, res = Some nd ->
       nd ∈ ruby.nodes h /\
       exists p, p ∈ ruby.sorted_keys h /\ ruby.ring h !! p = Some nd /\
                 p ∈ replica_points (ruby.id nd) (ruby.replicas h)).
Proof.
  apply (ruby_get_node_consistent (ruby_built ["cache-a"; "cache-b"; "cache-c"] 1)
           "user:42:abcdef1234567890").
  apply ruby_built_consistent.
Defined.

(** X19: once a node has been removed from a ring that is in order, no
    key is routed to a node with its id any more: every lookup returns
    a node with another id that was in the ring before, or [nil] when
    no point is left. *)
Theorem ruby_removed_node_unreachable (h h' : ruby.HashRing) (node : ruby.Node)
        (key : string) :
  ring_consistent h -> ruby.remove_node h node = Ret h' ->
  exists res,
    ruby.get_node h' key = Ret res /\
    (res = None <-> ruby.sorted_keys h' = []) /\
    (forall nd, res = Some nd -> ruby.id nd <> ruby.id node /\ nd ∈ ruby.nodes h).
Proof.
  intros Hh Hrm.
  destruct (ring_consistent_remove h node Hh)
    as (h2 & Hrun & Hh2 & _ & Hnodes & _ & Hkeep).
  rewrite Hrm in Hrun. injection Hrun as <-.
  destruct (ruby_get_node_wf h' key Hh2) as (res & Hres & Hnone & Hsome).
  exists res. split; [exact Hres|]. split; [exact Hnone|].
  intros nd Hnd. destruct (Hsome nd Hnd) as (Hmem & p & _ & Hp & _).
  destruct (Hkeep p nd Hp) as [_ Hid]. split; [exact Hid|].
  rewrite Hnodes in Hmem. apply list_elem_of_filter in Hmem as [_ Hmem]. exact Hmem.
Qed.


Lemma ruby_removed_node_unreachable_witness :
  let h := ruby_built ["cache-a"; "cache-b"] 1 in
  let h' := ruby_built ["cache-b"] 1 in
  ruby.remove_node h (ruby.NodeNew "cache-a") = Ret h' /\
  exists res,
    ruby.get_node h' "user:42:abcdef1234567890" = Ret res /\
    (res = None <-> ruby.sorted_keys h' = []) /\
    (forall nd, res = Some nd -> ruby.id nd <> "cache-a" /\ nd ∈ ruby.nodes h).
Proof.
  intros h h'.
  assert (Hrm : ruby.remove_node h (ruby.NodeNew "cache-a") = Ret h')
    by (vm_compute; reflexivity).
  split; [exact Hrm|].
  apply (ruby_removed_node_unreachable h h' (ruby.NodeNew "cache-a")
           "user:42:abcdef1234567890").
  - apply ruby_built_consistent.
  - exact Hrm.
Defined.


(** ** Walking the Ruby ring *)

Lemma size_list_to_set_le (l : list Z) : (size (list_to_set l : gset Z) <= length l)%nat.
Proof.
  induction l as [|x l IH]; [rewrite list_to_set_nil, size_empty; cbn; lia|].
  rewrite list_to_set_cons, size_union_alt, size_singleton. cbn [length].
  assert (Hsub : (list_to_set l : gset Z) ∖ {[x]} ⊆ list_to_set l)
    by (intros y Hy; apply elem_of_difference in Hy as [Hy _]; exact Hy).
  apply subseteq_size in Hsub. lia.
Qed.

Lemma ring_consistent_dom (h : ruby.HashRing) :
  ring_consistent h -> dom (ruby.ring h) = list_to_set (ruby.sorted_keys h).
Proof.
  intros (Hdom & _). apply set_eq. intros p.
  rewrite elem_of_dom, elem_of_list_to_set. symmetry. apply Hdom.
Qed.

Lemma ring_consistent_size (h : ruby.HashRing) :
  ring_consistent h ->
  (size (ruby.ring h) <= length (ruby.sorted_keys h))%nat /\
  (NoDup (ruby.sorted_keys h) -> size (ruby.ring h) = length (ruby.sorted_keys h)) /\
  (ruby.sorted_keys h <> [] -> size (ruby.ring h) <> 0%nat).
Proof.
  intros Hh. pose proof (ring_consistent_dom h Hh) as Hd.
  rewrite <- (size_dom (ruby.ring h)), Hd. split; [apply size_list_to_set_le|]. split.
  - apply size_list_to_set.
  - intros Hne He. apply size_empty_inv in He.
    destruct (ruby.sorted_keys h) as [|k ks]; [congruence|].
    assert (Hk : k ∈ (list_to_set (k :: ks) : gset Z))
      by (apply elem_of_list_to_set; left).
    rewrite (leibniz_equiv _ _ He) in Hk. apply elem_of_empty in Hk as [].
Qed.

(** X20: on a ring that is in order and lists at least one point,
    [iter_nodes] never raises and never yields [nil]; it yields as many
    nodes as points have an owner.  When no point is listed twice, the
    first node it yields is the one [get_node] returns for the key, and
    the owner of every point is among the nodes it yields. *)
Theorem ruby_iter_nodes_consistent (h : ruby.HashRing) (key : string) :
  ring_consistent h -> ruby.sorted_keys h <> [] ->
  exists ys res,
    ruby.iter_nodes h key = Ret ys /\
    ruby.get_node h key = Ret res /\
    length ys = size (ruby.ring h) /\
    Forall is_Some ys /\
    (NoDup (ruby.sorted_keys h) ->
     head ys = Some res /\
     forall p nd, ruby.ring h !! p = Some nd -> Some nd ∈ ys).
Proof.
  intros Hh Hne. destruct (ring_consistent_size h Hh) as (Hle & Heq & Hnz).
  specialize (Hnz Hne). destruct Hh as (Hdom & Hown & _).
  unfold ruby.iter_nodes, ruby.get_node.
  destruct (Nat.eqb_spec (size (ruby.ring h)) 0) as [|_]; [contradiction|].
  pose proof (ruby_binary_search_eq (custom.RubyHashRing 0 (ruby.sorted_keys h) ∅ [])
                (ruby.hash_for key)) as Hbs.
  destruct (binarySearch_spec (custom.RubyHashRing 0 (ruby.sorted_keys h) ∅ [])
              (ruby.hash_for key)) as (pos & Hrun & Hpos & _).
  cbn [custom.sortedKeys] in Hbs, Hpos. rewrite Hbs, Hrun.
  change (Ret ?a ≫= ?f) with (f a). cbv beta.
  set (keys := ruby.sorted_keys h) in *.
  set (n_ring := Z.of_nat (size (ruby.ring h))).
  set (f := fun n : Z => match ruby.at_index keys ((pos + n) mod n_ring) with
                         | Some point => ruby.ring h !! point
                         | None => None
                         end).
  assert (Hn : 0 < n_ring <= len keys) by (unfold n_ring, len; lia).
  assert (Hf : forall j, 0 <= j < n_ring ->
                 exists p, keys !! Z.to_nat j = Some p /\ ruby.at_index keys j = Some p /\
                           is_Some (ruby.ring h !! p)).
  { intros j Hj. rewrite at_index_in_range by lia.
    destruct (lookup_lt_is_Some_2 keys (Z.to_nat j)) as [p Hp]; [unfold len in Hn; lia|].
    exists p. split; [exact Hp|]. split; [exact Hp|].
    apply Hdom. apply (list_elem_of_lookup_2 _ _ _ Hp). }
  eexists _, _. split; [reflexivity|]. split; [reflexivity|].
  split; [rewrite length_fmap, length_seqZ; unfold n_ring; lia|]. split.
  - apply Forall_fmap, Forall_forall. intros n Hin. apply elem_of_seqZ in Hin.
    destruct (Hf ((pos + n) mod n_ring)) as (p & _ & Hp & Hsome);
      [apply Z.mod_pos_bound; lia|].
    unfold compose, f. rewrite Hp. exact Hsome.
  - intros Hnd. specialize (Heq Hnd).
    assert (Hsize : n_ring = len keys) by (unfold n_ring, len; lia).
    split.
    + rewrite seqZ_cons by lia. cbn [fmap list_fmap head]. f_equal. subst f. cbv beta.
      rewrite Z.add_0_r.
      destruct (Z.eq_dec pos (-1)) as [-> | Hp].
      * replace (-1 mod n_ring) with (n_ring - 1)
          by (apply Z.mod_unique with (q := -1); lia).
        unfold ruby.at_index at 2. change (-1 <? 0) with true. cbv iota.
        rewrite Hsize. replace (-1 + len keys) with (len keys - 1) by lia.
        unfold ruby.at_index. destruct (Z.ltb_spec (len keys - 1) 0); [lia|]. reflexivity.
      * rewrite Z.mod_small by lia. reflexivity.
    + intros p nd Hp.
      assert (Hin : p ∈ keys) by (apply Hdom; eauto).
      apply list_elem_of_lookup in Hin as [j Hj].
      pose proof (lookup_lt_Some _ _ _ Hj) as Hlt.
      apply list_elem_of_fmap. exists ((Z.of_nat j - pos) mod n_ring). split.
      * subst f. cbv beta. rewrite Zplus_mod_idemp_r.
        replace (pos + (Z.of_nat j - pos)) with (Z.of_nat j) by lia.
        rewrite Z.mod_small by (unfold len in Hsize; lia).
        rewrite at_index_in_range by (unfold len; lia).
        rewrite Nat2Z.id, Hj. symmetry. exact Hp.
      * apply elem_of_seqZ. pose proof (Z.mod_pos_bound (Z.of_nat j - pos) n_ring). lia.
Qed.

Lemma ruby_iter_nodes_consistent_witness :
  let h := ruby_built ["cache-a"; "cache-b"; "cache-c"] 1 in
  exists ys res,
    ruby.iter_nodes h "user:42:abcdef1234567890" = Ret ys /\
    ruby.get_node h "user:42:abcdef1234567890" = Ret res /\
    length ys = size (ruby.ring h) /\
    Forall is_Some ys /\
    (NoDup (ruby.sorted_keys h) ->
     head ys = Some res /\
     forall p nd, ruby.ring h !! p = Some nd -> Some nd ∈ ys).
Proof.
  apply (ruby_iter_nodes_consistent (ruby_built ["cache-a"; "cache-b"; "cache-c"] 1)
           "user:42:abcdef1234567890").
  - apply ruby_built_consistent.
  - vm_compute. discriminate.
Defined.


(** ** The checksum is a 32-bit value *)

Lemma lxor_range (n a b : Z) :
  0 <= n -> 0 <= a < 2 ^ n -> 0 <= b < 2 ^ n -> 0 <= Z.lxor a b < 2 ^ n.
Proof.
  intros Hn Ha Hb. split; [apply Z.lxor_nonneg; lia|].
  destruct (Z.eq_dec a 0) as [-> | Ha0]; [rewrite Z.lxor_0_l; lia|].
  destruct (Z.eq_dec b 0) as [-> | Hb0]; [rewrite Z.lxor_0_r; lia|].
  destruct (Z.eq_dec (Z.lxor a b) 0) as [-> | Hx0]; [lia|].
  assert (0 <= Z.lxor a b) by (apply Z.lxor_nonneg; lia).
  apply Z.log2_lt_pow2; [lia|].
  pose proof (Z.log2_lxor a b ltac:(lia) ltac:(lia)) as Hl.
  assert (Z.log2 a < n) by (apply Z.log2_lt_pow2; lia).
  assert (Z.log2 b < n) by (apply Z.log2_lt_pow2; lia).
  lia.
Qed.

Lemma IEEETable_range (i : nat) : 0 <= nth i crc32.IEEETable 0 < 2 ^ 32.
Proof.
  assert (Hall : Forall (fun x => 0 <= x < 2 ^ 32) crc32.IEEETable).
  { apply Forall_forall. intros x Hx.
    assert (Hb : forallb (fun x => (0 <=? x) && (x <? 2 ^ 32)) crc32.IEEETable = true)
      by (vm_compute; reflexivity).
    rewrite forallb_forall in Hb. specialize (Hb x).
    rewrite <- list_elem_of_In in Hb. specialize (Hb Hx).
    apply andb_true_iff in Hb as [H1 H2]. apply Z.leb_le in H1. apply Z.ltb_lt in H2. lia. }
  destruct (nth_in_or_default i crc32.IEEETable 0) as [Hin | ->]; [|lia].
  rewrite Forall_forall in Hall. apply Hall, list_elem_of_In, Hin.
Qed.

Lemma ChecksumIEEE_range (data : list Z) :
  0 <= crc32.ChecksumIEEE data <= uint32_max.
Proof.
  unfold crc32.ChecksumIEEE, crc32.simpleUpdate.
  assert (Hinv : forall crc, 0 <= crc < 2 ^ 32 ->
            0 <= foldl (fun crc v =>
                          Z.lxor (nth (Z.to_nat (Z.lxor (Z.land crc 0xFF) v))
                                      crc32.IEEETable 0)
                                 (Z.shiftr crc 8)) crc data < 2 ^ 32).
  { induction data as [|v data IH]; intros crc Hcrc; [exact Hcrc|].
    cbn [foldl]. apply IH. apply lxor_range; [lia | apply IEEETable_range |].
    rewrite Z.shiftr_div_pow2 by lia. split; [apply Z.div_pos; lia|].
    apply Z.div_lt_upper_bound; lia. }
  change (Z.lxor 0 uint32_max) with 0xFFFFFFFF.
  specialize (Hinv 0xFFFFFFFF ltac:(lia)).
  pose proof (lxor_range 32 _ uint32_max ltac:(lia) Hinv ltac:(unfold uint32_max; lia)).
  unfold uint32_max in *. lia.
Qed.

(** X21: [crc32.ChecksumIEEE] of any data, bytes or not, is a value of
    32 bits. *)
Theorem ChecksumIEEE_uint32 (data : list Z) :
  0 <= crc32.ChecksumIEEE data <= uint32_max.
Proof. apply ChecksumIEEE_range. Qed.


(** ** The ring with read replicas *)

Module routing_facts.
Import routing routing_build.

Lemma connect_replicas_spec (addrs : list string) (n : node) :
  foldl connect_replica n addrs =
  {| name := name n; primary := primary n;
     replica_clients :=
       replica_clients n ++ ((fun addr => Some (NewClient addr true)) <$> addrs) |}.
Proof.
  revert n. induction addrs as [|a addrs IH]; intros n.
  - cbn. rewrite app_nil_r. destruct n; reflexivity.
  - cbn [foldl]. rewrite IH. unfold connect_replica at 1 2 3.
    cbn [name primary replica_clients fmap list_fmap]. rewrite <- app_assoc. reflexivity.
Qed.

Lemma add_replica_with_eq (cfg : shardConfig) (n : nat) (r : rubyHashRing) (i : Z) :
  add_replica cfg n r i =
  Ret {| replicas := replicas r;
         sortedKeys := sortedKeys r ++ [virtual_point (Name cfg) i];
         ring := <[virtual_point (Name cfg) i := n]> (ring r);
         nodes := nodes r |}.
Proof.
  unfold add_replica. rewrite Sprintf_virtualKey, serverHashFor_total. reflexivity.
Qed.

Lemma add_replicas_with_spec (cfg : shardConfig) (n : nat) (ixs : list Z) (r : rubyHashRing) :
  for_each (add_replica cfg n) ixs r =
  Ret {| replicas := replicas r;
         sortedKeys := sortedKeys r ++ (virtual_point (Name cfg) <$> ixs);
         ring := insert_all ((fun h => (h, n)) <$> (virtual_point (Name cfg) <$> ixs)) (ring r);
         nodes := nodes r |}.
Proof.
  revert r. induction ixs as [|i ixs IH]; intros r.
  - simpl. rewrite app_nil_r. destruct r; reflexivity.
  - cbn [for_each]. rewrite add_replica_with_eq.
    change (Ret ?a ≫= ?f) with (f a). cbv beta.
    rewrite IH. cbn [replicas sortedKeys ring nodes fmap list_fmap].
    rewrite <- app_assoc. reflexivity.
Qed.

Lemma add_config_with_eq (R : Z) (r : rubyHashRing) (cfg : shardConfig) :
  add_config R r cfg =
  Ret {| replicas := replicas r;
         sortedKeys := sortedKeys r ++ replica_points (Name cfg) R;
         ring := insert_all ((fun h => (h, length (nodes r)))
                               <$> replica_points (Name cfg) R) (ring r);
         nodes := nodes r ++ [node_of cfg] |}.
Proof.
  unfold add_config. rewrite add_replicas_with_spec, connect_replicas_spec. reflexivity.
Qed.

Lemma add_configs_with_spec (R : Z) (configs : list shardConfig) (r : rubyHashRing) :
  for_each (add_config R) configs r =
  Ret {| replicas := replicas r;
         sortedKeys := sortedKeys r
                       ++ (custom_build.trace (length (nodes r)) (plain <$> configs) R).*1;
         ring := insert_all (custom_build.trace (length (nodes r)) (plain <$> configs) R)
                            (ring r);
         nodes := nodes r ++ (node_of <$> configs) |}.
Proof.
  revert r. induction configs as [|cfg configs IH]; intros r.
  - simpl. rewrite !app_nil_r. destruct r; reflexivity.
  - cbn [for_each]. rewrite add_config_with_eq.
    change (Ret ?a ≫= ?f) with (f a). cbv beta.
    rewrite IH. cbn [replicas sortedKeys ring nodes custom_build.trace fmap list_fmap].
    rewrite length_app, Nat.add_1_r.
    rewrite fmap_app, insert_all_app, <- !app_assoc.
    rewrite <- list_fmap_compose.
    replace ((fst ∘ (fun h => (h, length (nodes r))))
               <$> replica_points (custom.Name (plain cfg)) R)
      with (replica_points (custom.Name (plain cfg)) R)
      by (symmetry; apply list_fmap_id).
    reflexivity.
Qed.

Lemma newRubyHashRingWithReplicas_spec (configs : list shardConfig) (R : Z) :
  (custom_build.cap_ok (length configs) R /\
   newRubyHashRingWithReplicas configs R = Ret (built configs R)) \/
  (~ custom_build.cap_ok (length configs) R /\
   newRubyHashRingWithReplicas configs R = Panic "makeslice: cap out of range").
Proof.
  unfold newRubyHashRingWithReplicas, makeslice, custom_build.cap_ok, len.
  destruct (Z.leb_spec 0 (to_int (R * Z.of_nat (length configs))));
    destruct (Z.leb_spec (4 * to_int (R * Z.of_nat (length configs))) maxAlloc);
    cbn [andb]; try (right; split; [lia | reflexivity]).
  left. split; [lia|].
  change (Ret ?a ≫= ?f) with (f a). cbv beta.
  rewrite add_configs_with_spec. reflexivity.
Qed.

Lemma newRubyHashRingWithReplicas_Ret (configs : list shardConfig) (R : Z)
      (r : rubyHashRing) :
  newRubyHashRingWithReplicas configs R = Ret r -> r = built configs R.
Proof.
  destruct (newRubyHashRingWithReplicas_spec configs R) as [[_ ->] | [_ ->]]; congruence.
Qed.

Lemma forget_built (configs : list shardConfig) (R : Z) :
  forget (built configs R) = custom_build.built (plain <$> configs) R.
Proof.
  unfold forget, built, custom_build.built.
  cbn [replicas sortedKeys ring nodes]. f_equal.
  rewrite <- !list_fmap_compose. reflexivity.
Qed.

Lemma getNode_forget (r : rubyHashRing) (key : string) :
  getNode r key = custom.getNode (forget r) key.
Proof. reflexivity. Qed.

Lemma getNode_with_built (configs : list shardConfig) (R : Z) (key : string) :
  (sortedKeys (built configs R) = [] /\ getNode (built configs R) key = Ret None) \/
  (sortedKeys (built configs R) <> [] /\
   exists p cfg,
     getNode (built configs R) key = Ret (Some p) /\
     configs !! p = Some cfg /\
     nodes (built configs R) !! p = Some (node_of cfg)).
Proof.
  destruct (decide (sortedKeys (built configs R) = [])) as [He | Hne].
  - left. split; [exact He|]. unfold getNode. rewrite He. reflexivity.
  - right. split; [exact Hne|].
    rewrite getNode_forget, forget_built.
    destruct (getNode_built (plain <$> configs) R key) as (q & n & nd & _ & _ & Hnd & Hget).
    { exact Hne. }
    cbn zeta in Hnd, Hget.
    unfold custom_build.built in Hnd. cbn [custom.nodes] in Hnd.
    rewrite <- list_fmap_compose in Hnd.
    apply list_lookup_fmap_Some in Hnd as (cfg & _ & Hcfg).
    exists n, cfg. split; [exact Hget|]. split; [exact Hcfg|].
    unfold built. cbn [nodes]. rewrite list_lookup_fmap, Hcfg. reflexivity.
Qed.

Lemma replica_index (key : string) (n : Z) :
  0 < n ->
  Z.rem (to_int (crc32.ChecksumIEEE (bytes_of_string key))) n
  = crc32.ChecksumIEEE (bytes_of_string key) mod n /\
  0 <= crc32.ChecksumIEEE (bytes_of_string key) mod n < n.
Proof.
  intros Hn. pose proof (ChecksumIEEE_range (bytes_of_string key)) as Hc.
  unfold uint32_max in Hc. rewrite to_int_small by lia.
  split; [apply Z.rem_mod_nonneg; lia | apply Z.mod_pos_bound; lia].
Qed.

End routing_facts.


(** X22: the constructor with replicas panics exactly when
    [newRubyHashRing] panics on the same names, and otherwise builds the
    same points with the same owners; on the ring it returns, [getNode]
    never panics, returns [nil] exactly when no point is listed, and
    otherwise returns the node of one of the configurations. *)
Theorem replicas_same_shards (configs : list routing.shardConfig) (R : Z) :
  (r ← routing.newRubyHashRingWithReplicas configs R; Ret (routing_build.forget r))
  = custom.newRubyHashRing (routing_build.plain <$> configs) R /\
  forall r key,
    routing.newRubyHashRingWithReplicas configs R = Ret r ->
    exists n,
      routing.getNode r key = Ret n /\
      custom.getNode (routing_build.forget r) key = Ret n /\
      (n = None <-> routing.sortedKeys r = []) /\
      (forall p, n = Some p ->
         exists cfg, configs !! p = Some cfg /\
                     routing.nodes r !! p = Some (routing_build.node_of cfg)).
Proof.
  split.
  - destruct (routing_facts.newRubyHashRingWithReplicas_spec configs R) as [[Hc ->] | [Hc ->]];
      destruct (custom_facts.newRubyHashRing_spec (routing_build.plain <$> configs) R)
        as [[Hc' ->] | [Hc' ->]];
      rewrite length_fmap in Hc'; try contradiction.
    + change (Ret ?a ≫= ?f) with (f a). cbv beta.
      rewrite routing_facts.forget_built. reflexivity.
    + reflexivity.
  - intros r key Hr. apply routing_facts.newRubyHashRingWithReplicas_Ret in Hr. subst r.
    rewrite <- routing_facts.getNode_forget.
    destruct (routing_facts.getNode_with_built configs R key)
      as [[He Hget] | [Hne (p & cfg & Hget & Hcfg & Hnd)]].
    + exists None. split; [exact Hget|]. split; [exact Hget|].
      split; [tauto|]. intros p Hp. discriminate.
    + exists (Some p). split; [exact Hget|]. split; [exact Hget|].
      split; [split; [discriminate | contradiction]|].
      intros q [= <-]. exists cfg. auto.
Qed.

Lemma replicas_same_shards_witness :
  let configs := [routing.ShardConfig "cache-a" "a-primary:6379" ["a-replica-1:6379"];
                  routing.ShardConfig "cache-c" "c-primary:6379" []] in
  (r ← routing.newRubyHashRingWithReplicas configs 1; Ret (routing_build.forget r))
  = custom.newRubyHashRing (routing_build.plain <$> configs) 1 /\
  exists n,
    routing.getNode (routing_build.built configs 1) "user:42:abcdef1234567890" = Ret n /\
    custom.getNode (routing_build.forget (routing_build.built configs 1))
                   "user:42:abcdef1234567890" = Ret n /\
    (n = None <-> routing.sortedKeys (routing_build.built configs 1) = []) /\
    (forall p, n = Some p ->
       exists cfg, configs !! p = Some cfg /\
                   routing.nodes (routing_build.built configs 1) !! p
                   = Some (routing_build.node_of cfg)).
Proof.
  intros configs.
  destruct (replicas_same_shards configs 1) as [Hsame Hget].
  split; [exact Hsame|].
  apply (Hget (routing_build.built configs 1) "user:42:abcdef1234567890").
  vm_compute. reflexivity.
Defined.

(** X23: on a ring built with replicas, the clients for a write and for
    a read of a key are found without a panic.  Both are [nil] when the
    ring has no node for the key.  Otherwise the write goes to the
    primary of the node [getNode] picks, and the read goes to that
    primary when the node has no replica, and else to the read-only
    replica whose position is the key's checksum modulo the number of
    replicas. *)
Theorem read_write_clients (configs : list routing.shardConfig) (R : Z)
        (r : routing.rubyHashRing) (key : string) :
  routing.newRubyHashRingWithReplicas configs R = Ret r ->
  exists n w rd,
    routing.getNode r key = Ret n /\
    routing.getClientForWrite r key = Ret w /\
    routing.getClientForRead r key = Ret rd /\
    (n = None -> w = None /\ rd = None) /\
    (forall p, n = Some p ->
       exists cfg,
         configs !! p = Some cfg /\
         w = Some (routing.NewClient (routing.PrimaryAddr cfg) false) /\
         (routing.ReplicaAddrs cfg = [] -> rd = w) /\
         (routing.ReplicaAddrs cfg <> [] ->
          exists addr,
            routing.ReplicaAddrs cfg
              !! Z.to_nat (crc32.ChecksumIEEE (bytes_of_string key)
                           mod len (routing.ReplicaAddrs cfg)) = Some addr /\
            rd = Some (routing.NewClient addr true))).
Proof.
  intros Hr. apply routing_facts.newRubyHashRingWithReplicas_Ret in Hr. subst r.
  unfold routing.getClientForWrite, routing.getClientForRead,
    routing.getPrimaryClient, routing.getReplicaClient.
  destruct (routing_facts.getNode_with_built configs R key)
    as [[He Hget] | [Hne (p & cfg & Hget & Hcfg & Hnd)]]; rewrite Hget;
    change (Ret ?a ≫= ?f) with (f a); cbv beta iota.
  - exists None, None, None. repeat split; auto. intros p Hp. discriminate.
  - unfold routing.deref. rewrite Hnd.
    change (Ret ?a ≫= ?f) with (f a). cbv beta.
    cbn [routing_build.node_of routing.primary routing.replica_clients].
    destruct (routing.ReplicaAddrs cfg) as [|a addrs] eqn:Haddrs.
    + eexists (Some p), _, _. split; [reflexivity|]. split; [reflexivity|].
      split; [reflexivity|]. split; [discriminate|].
      intros q [= <-]. exists cfg. rewrite Haddrs.
      split; [exact Hcfg|]. split; [reflexivity|]. split; [reflexivity | congruence].
    + rewrite <- Haddrs.
      assert (Hlen : 0 < len (routing.ReplicaAddrs cfg))
        by (apply len_nonempty; congruence).
      assert (Hlen' : len ((fun addr => Some (routing.NewClient addr true))
                             <$> routing.ReplicaAddrs cfg) = len (routing.ReplicaAddrs cfg))
        by (unfold len; rewrite length_fmap; reflexivity).
      rewrite Hlen'.
      destruct (Z.eqb_spec (len (routing.ReplicaAddrs cfg)) 0); [lia|].
      destruct (routing_facts.replica_index key _ Hlen) as [-> Hidx].
      destruct (lookup_lt_is_Some_2 (routing.ReplicaAddrs cfg)
                  (Z.to_nat (crc32.ChecksumIEEE (bytes_of_string key)
                             mod len (routing.ReplicaAddrs cfg)))) as [addr Haddr];
        [unfold len in Hidx |- *; lia|].
      destruct (index_in_range
                  ((fun addr => Some (routing.NewClient addr true)) <$> routing.ReplicaAddrs cfg)
                  (crc32.ChecksumIEEE (bytes_of_string key) mod len (routing.ReplicaAddrs cfg)))
        as (c & Hc & Hlk); [rewrite Hlen'; lia|].
      rewrite list_lookup_fmap, Haddr in Hlk. injection Hlk as <-. rewrite Hc.
      eexists (Some p), _, _. split; [reflexivity|]. split; [reflexivity|].
      split; [reflexivity|]. split; [discriminate|].
      intros q [= <-]. exists cfg.
      split; [exact Hcfg|]. split; [reflexivity|]. split; [congruence|].
      intros _. exists addr. auto.
Qed.


Lemma read_write_clients_witness :
  let configs := [routing.ShardConfig "cache-a" "a-primary:6379"
                    ["a-replica-1:6379"; "a-replica-2:6379"];
                  routing.ShardConfig "cache-c" "c-primary:6379" []] in
  let key := "user:4" in
  exists n w rd,
    routing.getNode (routing_build.built configs 1) key = Ret n /\
    routing.getClientForWrite (routing_build.built configs 1) key = Ret w /\
    routing.getClientForRead (routing_build.built configs 1) key = Ret rd /\
    (n = None -> w = None /\ rd = None) /\
    (forall p, n = Some p ->
       exists cfg,
         configs !! p = Some cfg /\
         w = Some (routing.NewClient (routing.PrimaryAddr cfg) false) /\
         (routing.ReplicaAddrs cfg = [] -> rd = w) /\
         (routing.ReplicaAddrs cfg <> [] ->
          exists addr,
            routing.ReplicaAddrs cfg
              !! Z.to_nat (crc32.ChecksumIEEE (bytes_of_string key)
                           mod len (routing.ReplicaAddrs cfg)) = Some addr /\
            rd = Some (routing.NewClient addr true))).
Proof.
  intros configs key.
  apply (read_write_clients configs 1 (routing_build.built configs 1) key).
  vm_compute. reflexivity.
Defined.

(** X24: on a ring without points, whatever the key, the random replica
    selection dereferences the [nil] node and panics, where the other
    selections return [nil]. *)
Theorem random_replica_nil_panic (Intn : Z -> Z) (isHealthy : option routing.redisClient -> bool)
        (r : routing.rubyHashRing) (key : string) :
  routing.sortedKeys r = [] ->
  routing.getRandomReplicaClient Intn r key
  = Panic "invalid memory address or nil pointer dereference" /\
  routing.getPrimaryClient r key = Ret None /\
  routing.getReplicaClient r key = Ret None /\
  routing.getHealthyReplicaClient isHealthy r key = Ret None.
Proof.
  intros He.
  assert (Hget : routing.getNode r key = Ret None)
    by (unfold routing.getNode; rewrite He; reflexivity).
  unfold routing.getRandomReplicaClient, routing.getPrimaryClient,
    routing.getReplicaClient, routing.getHealthyReplicaClient.
  rewrite Hget. repeat split; reflexivity.
Qed.

Lemma random_replica_nil_panic_witness :
  routing.newRubyHashRingWithReplicas [] 160 = Ret (routing_build.built [] 160) /\
  routing.getRandomReplicaClient (fun _ => 0) (routing_build.built [] 160) "user:42"
  = Panic "invalid memory address or nil pointer dereference" /\
  routing.getPrimaryClient (routing_build.built [] 160) "user:42" = Ret None /\
  routing.getReplicaClient (routing_build.built [] 160) "user:42" = Ret None /\
  routing.getHealthyReplicaClient (fun _ => true) (routing_build.built [] 160) "user:42"
  = Ret None.
Proof.
  split; [vm_compute; reflexivity|].
  apply (random_replica_nil_panic (fun _ => 0) (fun _ => true)
           (routing_build.built [] 160) "user:42").
  reflexivity.
Defined.

(** X25: on a ring built with replicas that has points, every selection
    returns, without a panic, a client of the node [getNode] picks for
    the key: its primary or one of its read-only replicas.  This holds
    for the random selection whenever the random number is within its
    bound, and for the health-aware selection whatever the probe
    answers; the latter returns a replica only if the probe accepted
    it. *)
Theorem selected_client_of_shard (configs : list routing.shardConfig) (R : Z)
        (r : routing.rubyHashRing) (key : string)
        (Intn : Z -> Z) (isHealthy : option routing.redisClient -> bool) :
  routing.newRubyHashRingWithReplicas configs R = Ret r ->
  routing.sortedKeys r <> [] ->
  (forall n, 0 < n -> 0 <= Intn n < n) ->
  exists p cfg w c1 c2 c3,
    routing.getNode r key = Ret (Some p) /\ configs !! p = Some cfg /\
    routing.getPrimaryClient r key = Ret w /\
    routing.getReplicaClient r key = Ret c1 /\
    routing.getRandomReplicaClient Intn r key = Ret c2 /\
    routing.getHealthyReplicaClient isHealthy r key = Ret c3 /\
    w = Some (routing.NewClient (routing.PrimaryAddr cfg) false) /\
    client_of cfg c1 /\ client_of cfg c2 /\ client_of cfg c3 /\
    (c3 <> w -> isHealthy c3 = true).
Proof.
  intros Hr Hne HIntn. apply routing_facts.newRubyHashRingWithReplicas_Ret in Hr. subst r.
  destruct (routing_facts.getNode_with_built configs R key)
    as [[He _] | [_ (p & cfg & Hget & Hcfg & Hnd)]]; [contradiction|].
  unfold routing.getPrimaryClient, routing.getReplicaClient,
    routing.getRandomReplicaClient, routing.getHealthyReplicaClient.
  rewrite Hget. change (Ret ?a ≫= ?f) with (f a). cbv beta iota.
  unfold routing.deref. rewrite Hnd.
  repeat (change (Ret ?a ≫= ?f) with (f a); cbv beta iota).
  cbn [routing_build.node_of routing.primary routing.replica_clients].
  set (clients := (fun addr => Some (routing.NewClient addr true)) <$> routing.ReplicaAddrs cfg).
  assert (Hmem : forall c, c ∈ clients -> client_of cfg c).
  { intros c Hc. apply list_elem_of_fmap in Hc as (addr & -> & Haddr).
    right. exists addr. auto. }
  assert (Hidx : forall i, 0 <= i < len clients ->
                   exists c, index clients i = Ret c /\ client_of cfg c).
  { intros i Hi. destruct (index_in_range clients i Hi) as (c & Hc & Hlk).
    exists c. split; [exact Hc|]. apply Hmem. apply (list_elem_of_lookup_2 _ _ _ Hlk). }
  assert (Hh : exists c3,
            match List.find isHealthy clients with
            | Some replica => Ret replica
            | None => Ret (Some (routing.NewClient (routing.PrimaryAddr cfg) false))
            end = Ret c3 /\ client_of cfg c3 /\
            (c3 <> Some (routing.NewClient (routing.PrimaryAddr cfg) false) ->
             isHealthy c3 = true)).
  { destruct (List.find isHealthy clients) as [c|] eqn:Hfind.
    - apply find_some in Hfind as [Hin Hok]. exists c. split; [reflexivity|].
      split; [apply Hmem, list_elem_of_In, Hin | intros _; exact Hok].
    - eexists. split; [reflexivity|]. split; [left; reflexivity | congruence]. }
  destruct Hh as (c3 & Hc3 & Hof3 & Hok3). rewrite Hc3.
  destruct (Z.eqb_spec (len clients) 0) as [Hz | Hnz].
  - exists p, cfg. eexists _, _, _, c3.
    repeat (split; [reflexivity|]). split; [exact Hcfg|].
    repeat (split; [reflexivity|]).
    split; [left; reflexivity|]. split; [left; reflexivity|]. split; [exact Hof3 | exact Hok3].
  - assert (Hpos : 0 < len clients) by (unfold len in *; lia).
    destruct (routing_facts.replica_index key _ Hpos) as [-> Hmod].
    destruct (Hidx _ Hmod) as (c1 & Hc1 & Hof1).
    destruct (Hidx _ (HIntn _ Hpos)) as (c2 & Hc2 & Hof2).
    rewrite Hc1, Hc2.
    exists p, cfg. eexists _, c1, c2, c3.
    repeat (split; [reflexivity|]). split; [exact Hcfg|].
    repeat (split; [reflexivity|]).
    split; [exact Hof1|]. split; [exact Hof2|]. split; [exact Hof3 | exact Hok3].
Qed.

Lemma selected_client_of_shard_witness :
  let configs := [routing.ShardConfig "cache-a" "a-primary:6379"
                    ["a-replica-1:6379"; "a-replica-2:6379"];
                  routing.ShardConfig "cache-c" "c-primary:6379" []] in
  let r := routing_build.built configs 1 in
  let key := "user:4" in
  let Intn := fun n : Z => n - 1 in
  let isHealthy := fun c : option routing.redisClient =>
                     match c with
                     | Some cl => String.eqb (routing.opt_Addr cl) "a-replica-2:6379"
                     | None => false
                     end in
  exists p cfg w c1 c2 c3,
    routing.getNode r key = Ret (Some p) /\ configs !! p = Some cfg /\
    routing.getPrimaryClient r key = Ret w /\
    routing.getReplicaClient r key = Ret c1 /\
    routing.getRandomReplicaClient Intn r key = Ret c2 /\
    routing.getHealthyReplicaClient isHealthy r key = Ret c3 /\
    w = Some (routing.NewClient (routing.PrimaryAddr cfg) false) /\
    client_of cfg c1 /\ client_of cfg c2 /\ client_of cfg c3 /\
    (c3 <> w -> isHealthy c3 = true).
Proof.
  intros configs r key Intn isHealthy.
  apply (selected_client_of_shard configs 1 r key Intn isHealthy).
  - vm_compute. reflexivity.
  - vm_compute. discriminate.
  - intros n Hn. unfold Intn. lia.
Defined.


(** ** The generated keys under the hash-tag rule *)

Lemma contains_cons (c a : ascii) (s : string) :
  contains c (String a s) <-> a = c \/ contains c s.
Proof. unfold contains. cbn. tauto. Qed.

Lemma pretty_N_go_chars (x : N) (s : string) (c : ascii) :
  contains c (pretty_N_go x s) ->
  contains c s \/ contains c "0123456789".
Proof.
  revert s. induction (N.lt_wf_0 x) as [x _ IH]; intros s Hc.
  destruct (N.eq_dec x 0%N) as [-> | Hx]; [rewrite pretty_N_go_0 in Hc; auto|].
  rewrite pretty_N_go_step in Hc by lia.
  apply IH in Hc; [|apply N.div_lt; lia].
  destruct Hc as [Hc | Hc]; [|auto].
  apply contains_cons in Hc as [<- | Hc]; [|auto].
  right. unfold pretty_N_char, contains. cbn.
  repeat case_match; tauto.
Qed.

Lemma pretty_Z_chars (i : Z) (c : ascii) :
  contains c (pretty i) -> contains c "-0123456789".
Proof.
  assert (HN : forall p, contains c (pretty (Npos p)) -> contains c "0123456789").
  { intros p Hc. unfold pretty, pretty_N in Hc.
    destruct (decide (N.pos p = 0%N)); [discriminate|].
    apply pretty_N_go_chars in Hc as [Hc | Hc]; [destruct Hc | exact Hc]. }
  destruct i as [|p|p]; unfold pretty, pretty_Z.
  - intros Hc. apply contains_cons in Hc as [<- | []]. unfold contains. cbn. tauto.
  - intros Hc. apply HN in Hc. right. exact Hc.
  - intros Hc. apply contains_app in Hc as [Hc | Hc].
    + apply contains_cons in Hc as [<- | []]. left. reflexivity.
    + apply HN in Hc. right. exact Hc.
Qed.

Lemma hex_digit_chars (n : Z) (c : ascii) :
  contains c (hex_digit n) -> contains c "0123456789abcdef?".
Proof.
  unfold hex_digit. intros Hc. apply contains_cons in Hc as [<- | []].
  destruct (nth_in_or_default (Z.to_nat n) (list_ascii_of_string "0123456789abcdef") "?"%char)
    as [Hin | ->].
  - unfold contains. cbn in Hin |- *. tauto.
  - unfold contains. cbn. tauto.
Qed.

Lemma hex_of_bytes_chars (bs : list Z) (c : ascii) :
  contains c (hex_of_bytes bs) -> contains c "0123456789abcdef?".
Proof.
  induction bs as [|b bs IH]; cbn [hex_of_bytes foldr]; [intros []|].
  intros Hc. apply contains_app in Hc as [Hc | Hc]; [apply (hex_digit_chars _ _ Hc)|].
  apply contains_app in Hc as [Hc | Hc]; [apply (hex_digit_chars _ _ Hc) | auto].
Qed.

Lemma no_brace_pretty (i : Z) : ~ contains "{" (pretty i) /\ ~ contains "}" (pretty i).
Proof.
  split; intros Hc; apply pretty_Z_chars in Hc; unfold contains in Hc; cbn in Hc;
    intuition discriminate.
Qed.

Lemma no_brace_hex (bs : list Z) :
  ~ contains "{" (hex_of_bytes bs) /\ ~ contains "}" (hex_of_bytes bs).
Proof.
  split; intros Hc; apply hex_of_bytes_chars in Hc; unfold contains in Hc; cbn in Hc;
    intuition discriminate.
Qed.

(** X26: of the keys the generator writes under a prefix without an
    opening brace, every twenty-fifth is cut down to its tag by
    [normalizeForGoRedis], whatever the random bytes, and every other
    key is left as it is; so the override program looks up a tagged key
    under [tag<i>] alone. *)
Theorem generated_key_normalized (prefix : string) (i : Z) (bytes : list Z)
        (h : consistent.rubyStyleHash) :
  ~ contains "{" prefix ->
  consistent.normalizeForGoRedis (generate_keys.key prefix i bytes)
  = Ret (if i mod 25 =? 0 then "tag" +:+ pretty i else generate_keys.key prefix i bytes) /\
  consistent.assign h (generate_keys.key prefix i bytes)
  = consistent.Get h (if i mod 25 =? 0 then "tag" +:+ pretty i
                      else generate_keys.key prefix i bytes).
Proof.
  intros Hprefix.
  assert (Hn : consistent.normalizeForGoRedis (generate_keys.key prefix i bytes)
    = Ret (if i mod 25 =? 0 then "tag" +:+ pretty i else generate_keys.key prefix i bytes)).
  { unfold generate_keys.key. cbv zeta.
    destruct (no_brace_pretty i) as [Hp1 Hp2]. destruct (no_brace_hex bytes) as [Hh1 Hh2].
    destruct (i mod 25 =? 0).
    - change (prefix +:+ ":{" +:+ ("tag" +:+ pretty i) +:+ "}:" +:+ hex_of_bytes bytes)
        with (prefix +:+ String ":" (String "{" (("tag" +:+ pretty i)
                +:+ String "}" (":" +:+ hex_of_bytes bytes)))).
      rewrite <- (append_snoc prefix ":").
      apply normalize_tag.
      + intros Hc. apply contains_app in Hc as [Hc | Hc]; [auto|].
        unfold contains in Hc. cbn in Hc. intuition discriminate.
      + intros Hc. apply contains_app in Hc as [Hc | Hc]; [|auto].
        unfold contains in Hc. cbn in Hc. intuition discriminate.
      + discriminate.
    - unfold consistent.normalizeForGoRedis.
      assert (Hno : ~ contains "{" (prefix +:+ ":" +:+ pretty i +:+ ":" +:+ hex_of_bytes bytes)).
      { intros Hc.
        repeat (apply contains_app in Hc as [Hc | Hc]); auto;
          unfold contains in Hc; cbn in Hc; intuition discriminate. }
      apply IndexByte_absent in Hno. rewrite Hno. reflexivity. }
  split; [exact Hn|]. unfold consistent.assign. rewrite Hn. reflexivity.
Qed.

Lemma generated_key_normalized_witness :
  generate_keys.key "user" 25 [222; 173; 190; 239] = "user:{tag25}:deadbeef" /\
  generate_keys.key "user" 26 [222; 173; 190; 239] = "user:26:deadbeef" /\
  consistent.normalizeForGoRedis (generate_keys.key "user" 25 [222; 173; 190; 239])
  = Ret "tag25" /\
  consistent.assign hash1 (generate_keys.key "user" 25 [222; 173; 190; 239])
  = consistent.Get hash1 "tag25".
Proof.
  split; [vm_compute; reflexivity|]. split; [vm_compute; reflexivity|].
  apply (generated_key_normalized "user" 25 [222; 173; 190; 239] hash1).
  unfold contains. cbn. intuition discriminate.
Defined.


(** ** The lookup of the documentation *)

(** X27: the [getNode] printed in the documentation selects as the
    override program does: on rings built from the same names it never
    panics and returns the node whose name [rubyStyleHash.Get] returns
    for the same key, and [nil] exactly when the ring has no point,
    where [Get] returns the empty string. *)
Theorem documented_getNode_is_Get (configs : list custom.shardConfig) (R : Z)
        (r : custom.rubyHashRing) (h : consistent.rubyStyleHash) (key : string) :
  custom.newRubyHashRing configs R = Ret r ->
  consistent.newRubyStyleHash (custom.Name <$> configs) R = Ret h ->
  exists n s,
    documented.getNode r key = Ret n /\
    consistent.Get h key = Ret s /\
    s = custom.shardName r n /\
    (n = None <-> custom.sortedKeys r = []).
Proof.
  intros Hr Hh. apply custom_facts.newRubyHashRing_Ret in Hr.
  apply consistent_facts.newRubyStyleHash_Ret in Hh. subst r h.
  unfold documented.getNode, consistent.Get. rewrite built_keys_agree.
  set (r := custom_build.built configs R).
  destruct (decide (custom.sortedKeys r = [])) as [He | Hne].
  - rewrite He. exists None, EmptyString. repeat split; auto.
  - rewrite (len_eqb_nonempty _ Hne).
    destruct (sort_Search_spec (custom.sortedKeys r)
                (crc32.ChecksumIEEE (bytes_of_string key))) as (idx & Hrun & Hidx & _).
    rewrite Hrun. change (Ret ?a ≫= ?f) with (f a). cbv beta zeta.
    pose proof (len_nonempty _ Hne) as Hlen.
    destruct (index_in_range (custom.sortedKeys r)
                (if idx =? len (custom.sortedKeys r) then 0 else idx))
      as (p & Hp & Hlk).
    { destruct (Z.eqb_spec idx (len (custom.sortedKeys r))); lia. }
    rewrite Hp. change (Ret ?a ≫= ?f) with (f a). cbv beta.
    destruct (built_ring_owner configs R p (list_elem_of_lookup_2 _ _ _ Hlk))
      as (n & nd & Hn & _).
    fold r in Hn. rewrite Hn.
    eexists _, _. split; [reflexivity|]. split; [reflexivity|].
    split; [|split; [discriminate | contradiction]].
    rewrite built_rings_agree. fold r. rewrite Hn. reflexivity.
Qed.

Lemma documented_getNode_is_Get_witness :
  exists n s,
    documented.getNode ring1 "hello" = Ret n /\
    consistent.Get hash1 "hello" = Ret s /\
    s = custom.shardName ring1 n /\
    (n = None <-> custom.sortedKeys ring1 = []).
Proof.
  apply (documented_getNode_is_Get demo_configs 1 ring1 hash1 "hello").
  - vm_compute. reflexivity.
  - vm_compute. reflexivity.
Defined.
